(** * Outline reconciliation of typst-preview (addons/frontend/src/outline.ts)

    A shallow embedding of the outline builder and of the reconciliation
    driver.  The DOM is a store of element records addressed by position;
    the page registry is the caller's array of [CanvasPage] objects; both
    are mutated in place by the source and are therefore threaded through
    every operation as one heap. *)

From Stdlib Require Import ZArith Lia DecimalString DecimalZ DecimalPos.
From stdpp Require Import base list strings.

Local Open Scope string_scope.
Local Open Scope list_scope.
Local Open Scope Z_scope.

(** ** Numbers and their decimal text *)

(** [Number.prototype.toString] on an integer. *)
Definition Number_toString (z : Z) : string :=
  NilZero.string_of_int (Z.to_int z).

(** [Number.parseInt] on an attribute value; [None] is NaN.  [getAttribute]
    yields null for a missing attribute, which reads as NaN.  Only the
    decimal numerals written by [Number_toString] are read as numbers. *)
Definition Number_parseInt (s : option string) : option Z :=
  match s with
  | Some s => Z.of_int <$> NilZero.int_of_string s
  | None => None
  end.

(** ** The DOM *)

(** Attribute names imported from [./svg-patch] ([TypstPatchAttrs]).  Their
    spellings are declared outside this file; they are three names, distinct
    from each other and from the names written literally in [outline.ts]. *)
Inductive TypstPatchAttrs := Tid | ReuseFrom | BadEquality.

Inductive AttrName :=
  | PatchAttr (a : TypstPatchAttrs)
  | Attr (name : string).

Coercion PatchAttr : TypstPatchAttrs >-> AttrName.

#[global] Instance TypstPatchAttrs_eq_dec : EqDecision TypstPatchAttrs.
Proof. solve_decision. Defined.

#[global] Instance AttrName_eq_dec : EqDecision AttrName.
Proof. solve_decision. Defined.

(** The one event listener [generate] installs: a click on the title toggles
    the class [collapsed] on the title's parent element. *)
Inductive Listener := ToggleCollapsedOnParent.

Module Dom.

Record Elem := mkElem {
  tagName : string;
  attributes : list (AttrName * string);
  classList : list string;
  textContent : string;
  style : list (string * string);
  listeners : list (string * Listener);
  children : list nat;
  parentNode : option nat;
}.

Definition blank (tag : string) : Elem :=
  mkElem tag [] [] "" [] [] [] None.

Definition with_attributes (f : list (AttrName * string) → list (AttrName * string)) (e : Elem) : Elem :=
  mkElem (tagName e) (f (attributes e)) (classList e) (textContent e)
         (style e) (listeners e) (children e) (parentNode e).

Definition with_classList (f : list string → list string) (e : Elem) : Elem :=
  mkElem (tagName e) (attributes e) (f (classList e)) (textContent e)
         (style e) (listeners e) (children e) (parentNode e).

Definition with_textContent (t : string) (e : Elem) : Elem :=
  mkElem (tagName e) (attributes e) (classList e) t
         (style e) (listeners e) (children e) (parentNode e).

Definition with_style (f : list (string * string) → list (string * string)) (e : Elem) : Elem :=
  mkElem (tagName e) (attributes e) (classList e) (textContent e)
         (f (style e)) (listeners e) (children e) (parentNode e).

Definition with_listeners (f : list (string * Listener) → list (string * Listener)) (e : Elem) : Elem :=
  mkElem (tagName e) (attributes e) (classList e) (textContent e)
         (style e) (f (listeners e)) (children e) (parentNode e).

Definition with_children (f : list nat → list nat) (e : Elem) : Elem :=
  mkElem (tagName e) (attributes e) (classList e) (textContent e)
         (style e) (listeners e) (f (children e)) (parentNode e).

Definition with_parentNode (p : option nat) (e : Elem) : Elem :=
  mkElem (tagName e) (attributes e) (classList e) (textContent e)
         (style e) (listeners e) (children e) p.

(** Association lists in [setAttribute] order: a name already present keeps
    its place, a new one goes last. *)
Fixpoint assoc_set {K} `{EqDecision K} (k : K) (v : string) (l : list (K * string)) : list (K * string) :=
  match l with
  | [] => [(k, v)]
  | (k', v') :: l' =>
      if decide (k' = k) then (k, v) :: l' else (k', v') :: assoc_set k v l'
  end.

Fixpoint assoc_get {K} `{EqDecision K} (k : K) (l : list (K * string)) : option string :=
  match l with
  | [] => None
  | (k', v') :: l' => if decide (k' = k) then Some v' else assoc_get k l'
  end.

Definition assoc_del {K} `{EqDecision K} (k : K) (l : list (K * string)) : list (K * string) :=
  filter (λ kv, kv.1 ≠ k) l.

(** [classList.add]: a token already present is not added again. *)
Definition class_add (c : string) (l : list string) : list string :=
  if decide (c ∈ l) then l else l ++ [c].

(** The document: every element ever created, addressed by its position.
    A reference to an element is its position; references handed out by
    [createElement] are never dangling.  The operations below are those of
    the DOM on forests of elements; the refusal of the DOM to insert a node
    under one of its own descendants is not modelled, and text nodes are
    kept as the [textContent] of their element. *)
Abbreviation Document := (list Elem).

Definition childrenOf (d : Document) (x : nat) : list nat :=
  match d !! x with Some e => children e | None => [] end.

Definition parentOf (d : Document) (x : nat) : option nat :=
  match d !! x with Some e => parentNode e | None => None end.

Definition getAttribute (d : Document) (x : nat) (k : AttrName) : option string :=
  match d !! x with Some e => assoc_get k (attributes e) | None => None end.

Definition classContains (d : Document) (x : nat) (c : string) : bool :=
  match d !! x with Some e => bool_decide (c ∈ classList e) | None => false end.

Definition firstElementChild (d : Document) (x : nat) : option nat :=
  head (childrenOf d x).

(** [children[i]] for a JS number [i]: undefined outside the list. *)
Definition childAt (d : Document) (x : nat) (i : Z) : option nat :=
  if decide (0 ≤ i) then childrenOf d x !! Z.to_nat i else None.

Definition remove_child (c : nat) (l : list nat) : list nat :=
  filter (λ y, y ≠ c) l.

(** Take [c] out of its parent's child list, if it has a parent. *)
Definition detach (c : nat) (d : Document) : Document :=
  match parentOf d c with
  | Some p =>
      alter (with_parentNode None) c (alter (with_children (remove_child c)) p d)
  | None => d
  end.

(** [parent.append(child)]: the child leaves its old parent first. *)
Definition append (p c : nat) (d : Document) : Document :=
  alter (with_children (λ l, l ++ [c])) p
    (alter (with_parentNode (Some p)) c (detach c d)).

Fixpoint insert_before (c r : nat) (l : list nat) : list nat :=
  match l with
  | [] => [c]
  | x :: l' => if decide (x = r) then c :: x :: l' else x :: insert_before c r l'
  end.

Fixpoint next_sibling (c : nat) (l : list nat) : option nat :=
  match l with
  | [] => None
  | x :: l' => if decide (x = c) then head l' else next_sibling c l'
  end.

(** [parent.insertBefore(node, ref)] where [ref] is a child of [parent] or
    null.  Inserting a node before itself leaves it where it is, which the
    DOM obtains by taking the node's next sibling as the reference. *)
Definition insertBefore (p c : nat) (ref : option nat) (d : Document) : Document :=
  let ref' :=
    match ref with
    | Some r => if decide (r = c) then next_sibling c (childrenOf d p) else Some r
    | None => None
    end in
  let place l := match ref' with Some r => insert_before c r l | None => l ++ [c] end in
  alter (with_children place) p
    (alter (with_parentNode (Some p)) c (detach c d)).

(** [elem.remove()]. *)
Definition remove (x : nat) (d : Document) : Document := detach x d.

Fixpoint replace_child (x n : nat) (l : list nat) : list nat :=
  match l with
  | [] => []
  | y :: l' => if decide (y = x) then n :: l' else y :: replace_child x n l'
  end.

(** [x.replaceWith(n)]: nothing happens when [x] has no parent; otherwise
    [n] leaves its old parent and takes the place of [x]. *)
Definition replaceWith (x n : nat) (d : Document) : Document :=
  match parentOf d x with
  | None => d
  | Some p =>
      if decide (x = n) then d
      else
        alter (with_parentNode None) x
          (alter (with_children (replace_child x n)) p
             (alter (with_parentNode (Some p)) n (detach n d)))
  end.

(** Document order (pre-order) of the subtree under [x].  The fuel bounds
    the depth; [documentOrder] gives as much fuel as there are elements. *)
Fixpoint flatten (ch : nat → list nat) (fuel : nat) (x : nat) : list nat :=
  match fuel with
  | O => []
  | S fuel' => x :: flat_map (flatten ch fuel') (ch x)
  end.

Definition documentOrder (d : Document) (x : nat) : list nat :=
  flatten (childrenOf d) (length d) x.

End Dom.

Abbreviation Elem := Dom.Elem.
Abbreviation Document := (list Dom.Elem).

(** ** Outline items and the page registry *)

Record CursorPosition := mkCursorPosition {
  page_no : Z;
  x : Z;
  y : Z;
}.

#[warnings="-register-all"]
Inductive OutlineItemData := mkOutlineItemData {
  title : string;
  position : option CursorPosition;
  children : list OutlineItemData;
}.

(** The two functions this file stores in [CanvasPage.inserter]. *)
Inductive Inserter := poisionCanvasMoved_fn | replaceStubToRealCanvas_fn.

Record CanvasPage := mkCanvasPage {
  index : Z;
  width : Z;
  height : Z;
  container : nat;
  elem : option nat;
  inserter : option Inserter;
  stub : option nat;
}.

Definition with_container (c : nat) (p : CanvasPage) : CanvasPage :=
  mkCanvasPage (index p) (width p) (height p) c (elem p) (inserter p) (stub p).

Definition with_elem (e : option nat) (p : CanvasPage) : CanvasPage :=
  mkCanvasPage (index p) (width p) (height p) (container p) e (inserter p) (stub p).

Definition with_inserter (i : option Inserter) (p : CanvasPage) : CanvasPage :=
  mkCanvasPage (index p) (width p) (height p) (container p) (elem p) i (stub p).

Definition with_stub (s : option nat) (p : CanvasPage) : CanvasPage :=
  mkCanvasPage (index p) (width p) (height p) (container p) (elem p) (inserter p) s.

(** ** The heap and the monad of the embedding *)

(** [doc] is the DOM, [pages] the caller's array of page objects (a reference
    to a page object is its slot in the array), [patchLog] a ghost record of
    the calls made to the external attribute patcher, oldest first. *)
Record Heap := mkHeap {
  doc : Document;
  pages : list CanvasPage;
  patchLog : list (nat * nat);
}.

Definition with_doc (f : Document → Document) (h : Heap) : Heap :=
  mkHeap (f (doc h)) (pages h) (patchLog h).

Definition with_pages (f : list CanvasPage → list CanvasPage) (h : Heap) : Heap :=
  mkHeap (doc h) (f (pages h)) (patchLog h).

Definition with_patchLog (f : list (nat * nat) → list (nat * nat)) (h : Heap) : Heap :=
  mkHeap (doc h) (pages h) (f (patchLog h)).

(** A run either returns, throws (the heap is left as it was when the error
    was raised: there is no rollback), or exhausts the recursion budget of
    the reconciliation driver. *)
Inductive Result (A : Type) :=
  | Ok (a : A) (h : Heap)
  | Throw (msg : string) (h : Heap)
  | OutOfFuel (h : Heap).

Arguments Ok {A} a h.
Arguments Throw {A} msg h.
Arguments OutOfFuel {A} h.

Definition M (A : Type) := Heap → Result A.

Definition ret {A} (a : A) : M A := λ h, Ok a h.

Definition bind {A B} (m : M A) (k : A → M B) : M B :=
  λ h, match m h with
       | Ok a h' => k a h'
       | Throw msg h' => Throw msg h'
       | OutOfFuel h' => OutOfFuel h'
       end.

Definition throw {A} (msg : string) : M A := λ h, Throw msg h.

Notation "x <- m ;; k" := (bind m (λ x, k))
  (at level 61, m at next level, k at level 200, right associativity,
   format "'[v' x  <-  m  ;;  '/' k ']'").

Definition heapOf {A} (r : Result A) : Heap :=
  match r with Ok _ h => h | Throw _ h => h | OutOfFuel h => h end.

Definition readDoc {A} (f : Document → A) : M A := λ h, Ok (f (doc h)) h.
Definition updDoc (f : Document → Document) : M unit := λ h, Ok tt (with_doc f h).
Definition updElem (x : nat) (f : Elem → Elem) : M unit := updDoc (alter f x).

Definition createElement (tag : string) : M nat :=
  λ h, Ok (length (doc h)) (with_doc (λ d, d ++ [Dom.blank tag]) h).

Definition setAttribute (x : nat) (k : AttrName) (v : string) : M unit :=
  updElem x (Dom.with_attributes (Dom.assoc_set k v)).

Definition removeAttribute (x : nat) (k : AttrName) : M unit :=
  updElem x (Dom.with_attributes (Dom.assoc_del k)).

Definition classList_add (x : nat) (cs : list string) : M unit :=
  updElem x (Dom.with_classList (λ l, foldl (λ l c, Dom.class_add c l) l cs)).

(** A dereference of a page object; [undefined] has no fields. *)
Definition typeError : string := "TypeError".

Definition readPage {A} (pg : option nat) (f : CanvasPage → A) : M A :=
  λ h, match pg with
       | Some k => match pages h !! k with
                   | Some p => Ok (f p) h
                   | None => Throw typeError h
                   end
       | None => Throw typeError h
       end.

Definition writePage (pg : option nat) (f : CanvasPage → CanvasPage) : M unit :=
  λ h, match pg with
       | Some k => match pages h !! k with
                   | Some _ => Ok tt (with_pages (alter f k) h)
                   | None => Throw typeError h
                   end
       | None => Throw typeError h
       end.

(** [pages[i]] for a JS number [i] ([None] is NaN): undefined outside the
    array. *)
Definition pagesAt (i : option Z) : M (option nat) :=
  λ h, Ok (match i with
           | Some i => if decide (0 ≤ i < Z.of_nat (length (pages h)))
                       then Some (Z.to_nat i) else None
           | None => None
           end) h.

Definition pagesLength : M Z := λ h, Ok (Z.of_nat (length (pages h))) h.

(** ** The target-tree builder *)

(** A [GenElem] wraps its container element.  Its [children] array is only
    ever written by the source, never read, and is left out. *)
Abbreviation GenElem := nat.

Module GenElem.

(** [push(child)] *)
Definition push (this : GenElem) (child : GenElem) : M unit :=
  updDoc (Dom.append this child).

(** [pushCanvas(pg)] *)
Definition pushCanvas (this : GenElem) (pg : option nat) : M unit :=
  stub <- createElement "div";;
  i <- readPage pg index;;
  _ <- setAttribute stub Tid ("canvas:" +:+ Number_toString i);;
  i <- readPage pg index;;
  _ <- setAttribute stub (Attr "data-page-number") (Number_toString i);;
  _ <- writePage pg (with_stub (Some stub));;
  updDoc (Dom.append this stub).

End GenElem.

Definition tagPatchId (elem : nat) (tid : string) : M unit :=
  _ <- setAttribute elem Tid tid;;
  _ <- setAttribute elem ReuseFrom tid;;
  setAttribute elem BadEquality "1".

(** [populateHist] is ghost: the values [populateCnt] has held, oldest
    first. *)
Record GenContext := mkGenContext {
  populateCnt : Z;
  insertionPoint : GenElem;
  parent : GenElem;
  lastVisit : option GenElem;
  populateHist : list Z;
}.

Definition with_populateCnt (n : Z) (c : GenContext) : GenContext :=
  mkGenContext n (insertionPoint c) (parent c) (lastVisit c) (populateHist c ++ [n]).

Definition with_insertionPoint (e : GenElem) (c : GenContext) : GenContext :=
  mkGenContext (populateCnt c) e (parent c) (lastVisit c) (populateHist c).

Definition with_parent (e : GenElem) (c : GenContext) : GenContext :=
  mkGenContext (populateCnt c) (insertionPoint c) e (lastVisit c) (populateHist c).

Definition with_lastVisit (e : option GenElem) (c : GenContext) : GenContext :=
  mkGenContext (populateCnt c) (insertionPoint c) (parent c) e (populateHist c).

Module GenContext.

(** [new GenContext(pages)] *)
Definition new : M GenContext :=
  root <- createElement "div";;
  ret (mkGenContext 1 root root None [1]).

(** The loop of [spliceCanvas]: [n] iterations from [i]. *)
Fixpoint spliceLoop (next : GenElem) (i : Z) (n : nat) : M unit :=
  match n with
  | O => ret tt
  | S n' =>
      pg <- pagesAt (Some (i - 1));;
      _ <- GenElem.pushCanvas next pg;;
      spliceLoop next (i + 1) n'
  end.

(** [spliceCanvas(next, until)]: populate canvas stubs from
    [this.populateCnt] to [until] (exclusive). *)
Definition spliceCanvas (this : GenContext) (next : GenElem) (until : Z) : M GenContext :=
  len <- pagesLength;;
  let until := Z.min until (len + 1) in
  _ <- spliceLoop next (populateCnt this) (Z.to_nat (until - populateCnt this));;
  ret (with_populateCnt (Z.max until (populateCnt this)) this).

(** [item.position?.page_no || 0] *)
Definition posOf (item : OutlineItemData) : Z :=
  match position item with
  | Some p => page_no p
  | None => 0
  end.

(** [generate(item, level)] *)
Fixpoint generate (item : OutlineItemData) (level : Z) (this : GenContext)
  : M (GenElem * GenContext) :=
  outlineDiv <- createElement "div";;
  _ <- classList_add outlineDiv ["typst-outline"];;
  _ <- setAttribute outlineDiv (Attr "data-title") (title item);;
  _ <- tagPatchId outlineDiv ("outline:" +:+ title item);;
  let outlineNode : GenElem := outlineDiv in
  let pos := posOf item in
  let hasChildren :=
    bool_decide (Z.max 0 (pos - populateCnt this) + Z.of_nat (length (children item)) > 0) in
  this <- spliceCanvas this (insertionPoint this) pos;;
  titleSpan <- createElement "span";;
  _ <- classList_add titleSpan ["typst-outline-title"; "level-" +:+ Number_toString level];;
  _ <- updElem titleSpan (Dom.with_textContent (title item));;
  _ <- tagPatchId titleSpan ("title:" +:+ title item);;
  _ <- GenElem.push outlineNode titleSpan;;
  let this := with_lastVisit (Some outlineNode) this in
  _ <- GenElem.push (parent this) outlineNode;;
  let parent0 := parent this in
  let insertionPoint0 := insertionPoint this in
  let this := with_insertionPoint outlineNode (with_parent outlineNode this) in
  this <- (fix each (chs : list OutlineItemData) (this : GenContext) : M GenContext :=
            match chs with
            | [] => ret this
            | ch :: chs' =>
                r <- generate ch (level + 1) this;;
                each chs' (with_insertionPoint r.1 r.2)
            end) (children item) this;;
  let this := with_parent parent0 (with_insertionPoint insertionPoint0 this) in
  _ <- (if hasChildren then
          _ <- updElem titleSpan (Dom.with_style (Dom.assoc_set "text-decoration" "underline"));;
          _ <- updElem titleSpan (Dom.with_style (Dom.assoc_set "cursor" "pointer"));;
          updElem titleSpan (Dom.with_listeners (λ l, l ++ [("click", ToggleCollapsedOnParent)]))
        else ret tt);;
  ret (outlineNode, this).

(** The loops over outline items: the one inside [generate] and the one of
    [patchOutlineEntry] have the same body. *)
Fixpoint generateEach (items : list OutlineItemData) (level : Z) (this : GenContext)
  : M GenContext :=
  match items with
  | [] => ret this
  | item :: items' =>
      r <- generate item level this;;
      generateEach items' level (with_insertionPoint r.1 r.2)
  end.

End GenContext.

(** ** The inserters *)

(** [poisionCanvasMoved(t)]; the [console.error] line is not modelled. *)
Definition poisionCanvasMoved (t : option nat) : M unit :=
  throw "never called moved canvas".

(** [replaceStubToRealCanvas(t)] *)
Definition replaceStubToRealCanvas (t : option nat) : M unit :=
  s <- readPage t stub;;
  match s with
  | None => throw typeError
  | Some s =>
      c <- readPage t container;;
      _ <- updDoc (Dom.replaceWith s c);;
      writePage t (with_stub None)
  end.

(** A call [page.inserter(page)] made by the caller. *)
Definition callInserter (f : Inserter) (t : option nat) : M unit :=
  match f with
  | poisionCanvasMoved_fn => poisionCanvasMoved t
  | replaceStubToRealCanvas_fn => replaceStubToRealCanvas t
  end.

(** ** Edit instructions *)

(** The third component of an [OriginViewInstruction]: a node for [insert],
    a child offset for [swap_in], absent for [remove]. *)
Inductive InstructionArg :=
  | ArgNode (n : nat)
  | ArgNumber (i : Z)
  | ArgUndefined.

Definition OriginViewInstruction : Type := string * Z * InstructionArg.

(** [a < b] for JS numbers, [None] being NaN. *)
Definition Number_lt (a : option Z) (b : Z) : bool :=
  match a with
  | Some a => bool_decide (a < b)
  | None => false
  end.

(** The body of the loop of [runOriginViewInstructionsOnOutline]. *)
Definition runOriginViewInstruction (ctx : GenContext) (prev : nat)
    (ins : OriginViewInstruction) : M unit :=
  let '(op, off, fr) := ins in
  elem <- readDoc (λ d, Dom.childAt d prev off);;
  if decide (op = "insert") then
    match fr with
    | ArgNode n => updDoc (Dom.insertBefore prev n elem)
    | _ => throw typeError
    end
  else if decide (op = "swap_in") then
    moved <- readDoc (λ d, match fr with
                           | ArgNumber i => Dom.childAt d prev i
                           | _ => None
                           end);;
    match moved with
    | Some n => updDoc (Dom.insertBefore prev n elem)
    | None => throw typeError
    end
  else if decide (op = "remove") then
    match elem with
    | Some e =>
        isPage <- readDoc (λ d, Dom.classContains d e "typst-page");;
        _ <- (if isPage : bool then
                pageNumber <- readDoc (λ d,
                  Number_parseInt (Dom.getAttribute d e (Attr "data-page-number")));;
                len <- pagesLength;;
                if Number_lt pageNumber len then
                  page <- pagesAt pageNumber;;
                  _ <- writePage page (with_container e);;
                  c <- readPage page container;;
                  first <- readDoc (λ d, Dom.firstElementChild d c);;
                  writePage page (with_elem first)
                else ret tt
              else ret tt);;
        updDoc (Dom.remove e)
    | None => throw typeError
    end
  else throw ("unknown op " +:+ op).

(** [runOriginViewInstructionsOnOutline(ctx, prev, originView)] *)
Fixpoint runOriginViewInstructionsOnOutline (ctx : GenContext) (prev : nat)
    (originView : list OriginViewInstruction) : M unit :=
  match originView with
  | [] => ret tt
  | ins :: rest =>
      _ <- runOriginViewInstruction ctx prev ins;;
      runOriginViewInstructionsOnOutline ctx prev rest
  end.

(** The first half of [patchOutlineEntry]: the construction of the target
    tree, up to the stubs after the last node. *)
Definition patchOutlineEntry_generate (items : list OutlineItemData)
  : M (GenElem * GenContext) :=
  ctx <- GenContext.new;;
  let next := insertionPoint ctx in
  ctx <- GenContext.generateEach items 1 ctx;;
  len <- pagesLength;;
  ctx <- GenContext.spliceCanvas ctx (default next (lastVisit ctx)) (len + 1);;
  ret (next, ctx).

(** ** The reconciliation driver *)

Section Driver.

(** The collaborators imported from [./svg-patch].  They are not part of
    this file and are taken as they come: an equality oracle, an attribute
    patcher acting on the document, the alignment of two child sequences
    and its reprojection to edit instructions. *)
Variable TargetView : Type.
Variable equalPatchElem : Document → nat → nat → bool.
Variable patchAttributes : Document → nat → nat → Document.
Variable interpretTargetView :
  Document → list nat → list nat → bool → TargetView * list (nat * nat).
Variable changeViewPerspective :
  Document → list nat → TargetView → list OriginViewInstruction.

(** A call [patchAttributes(prev, next)], entered in the ghost log. *)
Definition callPatchAttributes (prev next : nat) : M unit :=
  λ h, Ok tt (with_patchLog (λ l, l ++ [(prev, next)])
                (with_doc (λ d, patchAttributes d prev next) h)).

Definition outOfFuel {A} : M A := λ h, OutOfFuel h.

(** [reuseOrPatchOutlineElem(ctx, prev, next)] and
    [patchOutlineChildren(ctx, prev, next)].  The recursion follows the
    depth of the trees the collaborators hand back; [fuel] bounds it. *)
Fixpoint reuseOrPatchOutlineElem (fuel : nat) (ctx : GenContext) (prev next : nat)
  : M bool :=
  match fuel with
  | O => outOfFuel
  | S fuel' =>
      canReuse <- readDoc (λ d, equalPatchElem d prev next);;
      _ <- removeAttribute next ReuseFrom;;
      isPageElem <- readDoc (λ d, Dom.classContains d prev "typst-page");;
      _ <- (if negb isPageElem then callPatchAttributes prev next else ret tt);;
      if canReuse : bool then
        _ <- (if isPageElem : bool then
                pageNumber <- readDoc (λ d,
                  Number_parseInt (Dom.getAttribute d next (Attr "data-page-number")));;
                page <- pagesAt pageNumber;;
                _ <- writePage page (with_inserter (Some poisionCanvasMoved_fn));;
                _ <- writePage page (with_container prev);;
                c <- readPage page container;;
                first <- readDoc (λ d, Dom.firstElementChild d c);;
                writePage page (with_elem first)
              else ret tt);;
        ret true
      else if isPageElem : bool then
        ret false
      else
        _ <- patchOutlineChildren fuel' ctx prev next;;
        ret false
  end
with patchOutlineChildren (fuel : nat) (ctx : GenContext) (prev next : nat)
  : M unit :=
  match fuel with
  | O => outOfFuel
  | S fuel' =>
      view <- readDoc (λ d,
        interpretTargetView d (Dom.childrenOf d prev) (Dom.childrenOf d next) false);;
      let '(targetView, toPatch) := view in
      _ <- (fix each (l : list (nat * nat)) : M unit :=
              match l with
              | [] => ret tt
              | (prevChild, nextChild) :: l' =>
                  _ <- reuseOrPatchOutlineElem fuel' ctx prevChild nextChild;;
                  each l'
              end) toPatch;;
      originView <- readDoc (λ d,
        changeViewPerspective d (Dom.childrenOf d prev) targetView);;
      runOriginViewInstructionsOnOutline ctx prev originView
  end.

(** [prev.append(...nodes)] *)
Fixpoint appendAll (prev : nat) (nodes : list nat) : M unit :=
  match nodes with
  | [] => ret tt
  | n :: nodes' =>
      _ <- updDoc (Dom.append prev n);;
      appendAll prev nodes'
  end.

(** [page.inserter ||= replaceStubToRealCanvas] *)
Definition defaultInserter (page : CanvasPage) : CanvasPage :=
  match inserter page with
  | Some _ => page
  | None => with_inserter (Some replaceStubToRealCanvas_fn) page
  end.

(** [patchOutlineEntry(prev, pages, items)]; [pages] is the array held by
    the heap. *)
Definition patchOutlineEntry (fuel : nat) (prev : nat) (items : list OutlineItemData)
  : M unit :=
  r <- patchOutlineEntry_generate items;;
  let '(next, ctx) := r in
  n <- readDoc (λ d, length (Dom.childrenOf d prev));;
  _ <- (if decide (n = 0%nat) then
          nodes <- readDoc (λ d, Dom.childrenOf d next);;
          appendAll prev nodes
        else
          patchOutlineChildren fuel ctx prev next);;
  λ h, Ok tt (with_pages (map defaultInserter) h).

End Driver.

(** * Vocabulary of the statements *)

(** ** Trees whose references point forward *)

(** Every child was created after its parent: below [root] nothing is
    assumed, from [root] on each child reference is larger than its parent
    and smaller than the size [n] of the document. *)
Definition Forward (root : nat) (ch : nat → list nat) (n : nat) : Prop :=
  ∀ x c, (root ≤ x)%nat → c ∈ ch x → (x < c < n)%nat.

(** [q] is reached from [x] by following last children. *)
Inductive Spine (ch : nat → list nat) : nat → nat → Prop :=
  | Spine_here x : Spine ch x x
  | Spine_last x y q : last (ch x) = Some y → Spine ch y q → Spine ch x q.

(** ** Placeholders, tags and the invariant of the builder *)

Definition attributesOf (d : Document) (x : nat) : option (list (AttrName * string)) :=
  Dom.attributes <$> d !! x.

(** Page placeholders are the elements carrying [data-page-number]. *)
Definition isPlaceholder (d : Document) (x : nat) : Prop :=
  is_Some (Dom.getAttribute d x (Attr "data-page-number")).

Definition placeholders (d : Document) (root : nat) : list nat :=
  filter (isPlaceholder d) (Dom.documentOrder d root).

(** The attributes [pushCanvas] writes for a page of index [i], and the
    ones [tagPatchId] writes for a tag [tid]. *)
Definition stubAttributes (i : Z) : list (AttrName * string) :=
  [(PatchAttr Tid, "canvas:" +:+ Number_toString i);
   (Attr "data-page-number", Number_toString i)].

Definition patchIdAttributes (tid : string) : list (AttrName * string) :=
  [(PatchAttr Tid, tid); (PatchAttr ReuseFrom, tid); (PatchAttr BadEquality, "1")].

Definition outlineAttributes (t : string) : list (AttrName * string) :=
  (Attr "data-title", t) :: patchIdAttributes ("outline:" +:+ t).

Definition titleAttributes (t : string) : list (AttrName * string) :=
  patchIdAttributes ("title:" +:+ t).

(** The element [pushCanvas] leaves under [this] for page object [p]. *)
Definition stubElem (p : CanvasPage) (this : nat) : Elem :=
  Dom.mkElem "div" (stubAttributes (index p)) [] "" [] [] [] (Some this).

(** [s] is the placeholder of page object [p]. *)
Definition StubFor (d : Document) (s : nat) (p : CanvasPage) : Prop :=
  stub p = Some s ∧ attributesOf d s = Some (stubAttributes (index p)).

(** The titles of an outline, in pre-order. *)
Fixpoint titlesOf (item : OutlineItemData) : list string :=
  title item :: flat_map titlesOf (children item).

(** What the builder leaves on a node it creates: the attributes of an
    outline container or of a title, for a title of the outline, or those of
    the placeholder of some page of the registry. *)
Definition Tagged (titles : list string) (indices : list Z) (d : Document) (x : nat) : Prop :=
  (∃ t, t ∈ titles ∧ attributesOf d x = Some (outlineAttributes t)) ∨
  (∃ t, t ∈ titles ∧ attributesOf d x = Some (titleAttributes t)) ∨
  (∃ i, i ∈ indices ∧ attributesOf d x = Some (stubAttributes i)).

(** Successive values never decrease. *)
Definition NonDecreasing (l : list Z) : Prop :=
  ∀ (i : nat) a b, l !! i = Some a → l !! S i = Some b → a ≤ b.

(** The tree under [root] has forward references and no repeated node, and
    its placeholders are, in document order, those of the first [m] pages. *)
Record Grown (root : nat) (h : Heap) (m : nat) : Prop := {
  grown_root : (root < length (doc h))%nat;
  grown_forward : Forward root (Dom.childrenOf (doc h)) (length (doc h));
  grown_nodup : NoDup (Dom.documentOrder (doc h) root);
  grown_stubs : Forall2 (StubFor (doc h)) (placeholders (doc h) root) (take m (pages h));
}.

(** What a builder step leaves alone: elements that exist keep their
    attributes, page objects change in their [stub] field only, the
    attribute patcher is not called. *)
Record Step (h h' : Heap) : Prop := {
  step_length : (length (doc h) ≤ length (doc h'))%nat;
  step_attrs : ∀ y, (y < length (doc h))%nat →
                    attributesOf (doc h') y = attributesOf (doc h) y;
  step_pages : with_stub None <$> pages h' = with_stub None <$> pages h;
  step_log : patchLog h' = patchLog h;
}.

(** The elements created between [h] and [h'] are tagged. *)
Definition FreshTagged (titles : list string) (h h' : Heap) : Prop :=
  ∀ y, (length (doc h) ≤ y < length (doc h'))%nat →
       Tagged titles (index <$> pages h) (doc h') y.

(** Between [h] and [h'] the tree under [root] lost no node, and every
    element created in between is in it. *)
Definition Attached (root : nat) (h h' : Heap) : Prop :=
  (∀ y, y ∈ Dom.documentOrder (doc h) root → y ∈ Dom.documentOrder (doc h') root) ∧
  (∀ y, (length (doc h) ≤ y < length (doc h'))%nat →
        y ∈ Dom.documentOrder (doc h') root).

(** The state of the builder between two of its steps. *)
Record Building (root : nat) (h : Heap) (ctx : GenContext) : Prop := {
  building_grown : Grown root h (Z.to_nat (populateCnt ctx - 1));
  building_cnt : 1 ≤ populateCnt ctx ≤ Z.of_nat (length (pages h)) + 1;
  building_parent : Spine (Dom.childrenOf (doc h)) root (parent ctx);
  building_point : Spine (Dom.childrenOf (doc h)) (parent ctx) (insertionPoint ctx);
  building_last : last (populateHist ctx) = Some (populateCnt ctx);
  building_hist : NonDecreasing (populateHist ctx);
  building_bound : Forall (λ v, 1 ≤ v ≤ Z.of_nat (length (pages h)) + 1) (populateHist ctx);
}.

(** The straight-line pieces of [generate], named for the proofs. *)
Definition newOutlineDiv (t : string) : M nat :=
  outlineDiv <- createElement "div";;
  _ <- classList_add outlineDiv ["typst-outline"];;
  _ <- setAttribute outlineDiv (Attr "data-title") t;;
  _ <- tagPatchId outlineDiv ("outline:" +:+ t);;
  ret outlineDiv.

Definition newTitleSpan (t : string) (level : Z) (outlineNode : GenElem) : M nat :=
  titleSpan <- createElement "span";;
  _ <- classList_add titleSpan ["typst-outline-title"; "level-" +:+ Number_toString level];;
  _ <- updElem titleSpan (Dom.with_textContent t);;
  _ <- tagPatchId titleSpan ("title:" +:+ t);;
  _ <- GenElem.push outlineNode titleSpan;;
  ret titleSpan.

Definition makeClickable (hasChildren : bool) (titleSpan : nat) : M unit :=
  if hasChildren then
    _ <- updElem titleSpan (Dom.with_style (Dom.assoc_set "text-decoration" "underline"));;
    _ <- updElem titleSpan (Dom.with_style (Dom.assoc_set "cursor" "pointer"));;
    updElem titleSpan (Dom.with_listeners (λ l, l ++ [("click", ToggleCollapsedOnParent)]))
  else ret tt.

Definition outlineDivElem (t : string) : Elem :=
  Dom.mkElem "div" (outlineAttributes t) ["typst-outline"] "" [] [] [] None.

Definition titleSpanElem (t : string) (level : Z) (outlineNode : nat) : Elem :=
  Dom.mkElem "span" (titleAttributes t)
    ["typst-outline-title"; "level-" +:+ Number_toString level] t [] [] []
    (Some outlineNode).

(** The loop of [generate] over [item.children], as it stands inside
    [generate]. *)
Definition eachChild (level : Z) : list OutlineItemData → GenContext → M GenContext :=
  fix each (chs : list OutlineItemData) (this : GenContext) : M GenContext :=
    match chs with
    | [] => ret this
    | ch :: chs' =>
        r <- GenContext.generate ch level this;;
        each chs' (with_insertionPoint r.1 r.2)
    end.

(** The node visited last, when there is one, is on the spine under the
    insertion point. *)
Definition LastOk (h : Heap) (ctx : GenContext) : Prop :=
  ∀ v, lastVisit ctx = Some v →
       Spine (Dom.childrenOf (doc h)) (insertionPoint ctx) v.

(** What [generate] does on an item, from any state of the builder. *)
Definition GenerateSpec (titles : list string) (root : nat) (item : OutlineItemData) : Prop :=
  ∀ level ctx h,
    Building root h ctx →
    ∃ N ctx' h',
      GenContext.generate item level ctx h = Ok (N, ctx') h' ∧
      Building root h' (with_insertionPoint N ctx') ∧
      parent ctx' = parent ctx ∧
      (∃ v, lastVisit ctx' = Some v ∧ Spine (Dom.childrenOf (doc h')) N v) ∧
      Step h h' ∧ FreshTagged titles h h' ∧ Attached root h h' ∧
      (∀ y, (y < parent ctx)%nat →
            Dom.childrenOf (doc h') y = Dom.childrenOf (doc h) y).

(** ** Reading a tree as the outline it shows *)

(** Outline entries carry [data-title], page placeholders carry
    [data-page-number]; title spans and the root carry neither. *)
Inductive OutlineLabel :=
  | Entry (title : string)
  | Page (number : string).

Definition labelOf (d : Document) (x : nat) : option OutlineLabel :=
  match Dom.getAttribute d x (Attr "data-title") with
  | Some t => Some (Entry t)
  | None =>
      match Dom.getAttribute d x (Attr "data-page-number") with
      | Some n => Some (Page n)
      | None => None
      end
  end.

Definition readingOrder (d : Document) (root : nat) : list OutlineLabel :=
  omap (labelOf d) (Dom.documentOrder d root).

(** ** The scenarios of the specification *)

(** Three pages of indices 1, 2, 3 with their containers (elements 1 to 3)
    and an empty previous root (element 0). *)
Definition scenarioHeap : Heap :=
  mkHeap
    [Dom.blank "div"; Dom.blank "div"; Dom.blank "div"; Dom.blank "div"]
    [mkCanvasPage 1 595 842 1 None None None;
     mkCanvasPage 2 595 842 2 None None None;
     mkCanvasPage 3 595 842 3 None None None]
    [].

Definition scenarioOutline : list OutlineItemData :=
  [mkOutlineItemData "A" (Some (mkCursorPosition 1 0 0)) [];
   mkOutlineItemData "B" (Some (mkCursorPosition 3 0 0)) []].

(** One page of index 1 whose container is element 0. *)
Definition onePageHeap : Heap :=
  mkHeap [Dom.blank "div"] [mkCanvasPage 1 595 842 0 None None None] [].

(** A previous root (element 0) whose only child is a rendered page
    (element 1, class [typst-page], page number 1, holding its canvas,
    element 2); the registry has one page, of index 1, whose container is
    element 3. *)
Definition removalHeap : Heap :=
  mkHeap
    [Dom.mkElem "div" [] [] "" [] [] [1%nat] None;
     Dom.mkElem "div" [(Attr "data-page-number", "1")] ["typst-page"] "" [] [] [2%nat] (Some 0%nat);
     Dom.mkElem "canvas" [] [] "" [] [] [] (Some 1%nat);
     Dom.blank "div"]
    [mkCanvasPage 1 595 842 3 None None None]
    [].

(** The same tree with a registry of two pages, of indices 0 and 1. *)
Definition recoveryHeap : Heap :=
  mkHeap (doc removalHeap)
    [mkCanvasPage 0 595 842 3 None None None;
     mkCanvasPage 1 595 842 3 None None None]
    [].


(** The ghost log of calls to the attribute patcher only grows along a
    run, whatever its outcome. *)
Definition GrowsLog {A} (m : M A) : Prop :=
  ∀ h, ∃ rest, patchLog (heapOf (m h)) = patchLog h ++ rest.

(** The collaborators used where a statement is tried on a concrete heap:
    an oracle that always answers reuse, a patcher that changes nothing, an
    alignment without pairs and without instructions. *)
Definition alwaysEqual : Document → nat → nat → bool := λ _ _ _, true.
Definition patchNothing : Document → nat → nat → Document := λ d _ _, d.
Definition alignNothing : Document → list nat → list nat → bool → unit * list (nat * nat) :=
  λ _ _ _ _, (tt, []).
Definition noInstructions : Document → list nat → unit → list OriginViewInstruction :=
  λ _ _ _, [].

(** A rendered page (element 0, class [typst-page], holding its canvas,
    element 1) and the placeholder built for page number 0 (element 2); the
    registry has one page, of index 0, whose stub is that placeholder. *)
Definition reuseHeap : Heap :=
  mkHeap
    [Dom.mkElem "div" [(Attr "data-page-number", "0")] ["typst-page"] "" [] [] [1%nat] None;
     Dom.mkElem "canvas" [] [] "" [] [] [] (Some 0%nat);
     Dom.mkElem "div" (stubAttributes 0) [] "" [] [] [] None;
     Dom.blank "div"]
    [mkCanvasPage 0 595 842 3 None None (Some 2%nat)]
    [].

(** A live root (element 0) holding the stub (element 1) of the only page,
    whose container (element 2, holding its canvas, element 3) is still
    detached, with the default inserter armed. *)
Definition pendingHeap : Heap :=
  mkHeap
    [Dom.mkElem "div" [] [] "" [] [] [1%nat] None;
     Dom.mkElem "div" (stubAttributes 0) [] "" [] [] [] (Some 0%nat);
     Dom.mkElem "div" [] ["typst-page"] "" [] [] [3%nat] None;
     Dom.mkElem "canvas" [] [] "" [] [] [] (Some 2%nat)]
    [mkCanvasPage 0 595 842 2 (Some 3%nat) (Some replaceStubToRealCanvas_fn) (Some 1%nat)]
    [].




(** ** What a run keeps *)

(** [I] holds after a run of [m] whenever it held before, whatever the
    outcome of the run. *)
Definition Invariant {A} (I : Heap → Prop) (m : M A) : Prop :=
  ∀ h, I h → I (heapOf (m h)).

(** The fields of a page object that identify the page. *)
Definition identityOf (p : CanvasPage) : Z * Z * Z :=
  (index p, width p, height p).

(** The page object in slot [k] carries the inserter [o], or the poison,
    or, when [o] is none, the default inserter. *)
Definition inserterIn (k : nat) (o : option Inserter) (l : list CanvasPage) : Prop :=
  ∃ p, l !! k = Some p ∧
       (inserter p = o ∨ inserter p = Some poisionCanvasMoved_fn ∨
        (inserter p = Some replaceStubToRealCanvas_fn ∧ o = None)).

(** ** Edit instructions that cannot be carried out *)

(** [a] is [x] or is reached from [x] by following parent references, at
    most [fuel] of them. *)
Fixpoint reaches (d : Document) (fuel : nat) (a x : nat) : bool :=
  bool_decide (x = a) ||
  match fuel with
  | O => false
  | S fuel' =>
      match Dom.parentOf d x with
      | Some p => reaches d fuel' a p
      | None => false
      end
  end.

(** [a] is an inclusive ancestor of [x]. *)
Definition inclusiveAncestor (d : Document) (a x : nat) : bool :=
  reaches d (length d) a x.

(** The instruction names a child or a node that is not there: [remove] at
    an offset outside the children, [insert] of something that is not a
    node, [swap_in] from an offset outside the children. *)
Definition malformed (d : Document) (prev : nat) (ins : OriginViewInstruction) : Prop :=
  let '(op, off, fr) := ins in
  (op = "remove" ∧ Dom.childAt d prev off = None) ∨
  (op = "insert" ∧ ∀ n, fr ≠ ArgNode n) ∨
  (op = "swap_in" ∧
   match fr with ArgNumber i => Dom.childAt d prev i | _ => None end = None).

(** ** The shape of what the builder leaves *)

(** Between [h] and [h'] every element that existed is as it was, except
    that [ip] and [par] may have been given more children, at the end. *)
Definition Extends (ip par : nat) (h h' : Heap) : Prop :=
  ∀ x e, doc h !! x = Some e →
    ∃ more, doc h' !! x = Some (Dom.with_children (λ l, l ++ more) e) ∧
            (x ≠ ip → x ≠ par → more = []).

(** From [root] on, every child names its parent. *)
Definition Agree (root : nat) (d : Document) : Prop :=
  ∀ x c, (root ≤ x)%nat → c ∈ Dom.childrenOf d x → Dom.parentOf d c = Some x.

(** The titles carried by the outline containers among [l]. *)
Definition entriesOf (d : Document) (l : list nat) : list string :=
  omap (λ x, Dom.getAttribute d x (Attr "data-title")) l.

(** [hasChildren] as [generate] computes it on entry. *)
Definition hasChildren (item : OutlineItemData) (this : GenContext) : bool :=
  bool_decide (Z.max 0 (GenContext.posOf item - populateCnt this)
               + Z.of_nat (length (children item)) > 0).

(** What the last lines of [generate] do to the title. *)
Definition clickable (b : bool) (e : Elem) : Elem :=
  if b then
    Dom.with_listeners (λ l, l ++ [("click", ToggleCollapsedOnParent)])
      (Dom.with_style (Dom.assoc_set "cursor" "pointer")
         (Dom.with_style (Dom.assoc_set "text-decoration" "underline") e))
  else e.

(** The title span [generate] leaves under the container [outlineNode]. *)
Definition titleElem (t : string) (level : Z) (outlineNode : nat) (b : bool) : Elem :=
  Dom.mkElem "span" (titleAttributes t)
    ["typst-outline-title"; "level-" +:+ Number_toString level] t
    (if b then [("text-decoration", "underline"); ("cursor", "pointer")] else [])
    (if b then [("click", ToggleCollapsedOnParent)] else [])
    [] (Some outlineNode).

(** The number of placeholders [spliceCanvas(next, until)] emits. *)
Definition spliceCount (this : GenContext) (until : Z) (h : Heap) : nat :=
  Z.to_nat (Z.min until (Z.of_nat (length (pages h)) + 1) - populateCnt this).

(** The labels read on the nodes [l]. *)
Definition labelsOf (d : Document) (l : list nat) : list OutlineLabel :=
  omap (labelOf d) l.

(** The labels of the placeholders [spliceCanvas] emits while the watermark
    goes from [from] to [until]: those of the pages in slots [from - 1] to
    [until - 2] of the registry, whose indices are [idx]. *)
Definition pageLabels (idx : list Z) (from until : Z) : list OutlineLabel :=
  (λ i, Page (Number_toString i))
    <$> take (Z.to_nat (until - from)) (drop (Z.to_nat (from - 1)) idx).

(** What [generate] emits for an item when it finds the watermark at [cnt],
    in the order it emits it and as labels, with the watermark it leaves:
    the placeholders up to the page of the item, the entry of the item, then
    what it emits for the children, one after the other. *)
Fixpoint outlineLabels (idx : list Z) (item : OutlineItemData) (cnt : Z)
  : list OutlineLabel * Z :=
  let until := Z.min (GenContext.posOf item) (Z.of_nat (length idx) + 1) in
  let r := (fix each (chs : list OutlineItemData) (cnt : Z) : list OutlineLabel * Z :=
              match chs with
              | [] => ([], cnt)
              | ch :: chs' =>
                  let r1 := outlineLabels idx ch cnt in
                  let r2 := each chs' r1.2 in
                  (r1.1 ++ r2.1, r2.2)
              end) (children item) (Z.max until cnt) in
  (pageLabels idx cnt until ++ Entry (title item) :: r.1, r.2).

Fixpoint outlineLabelsEach (idx : list Z) (items : list OutlineItemData) (cnt : Z)
  : list OutlineLabel * Z :=
  match items with
  | [] => ([], cnt)
  | item :: items' =>
      let r1 := outlineLabels idx item cnt in
      let r2 := outlineLabelsEach idx items' r1.2 in
      (r1.1 ++ r2.1, r2.2)
  end.

(** What the construction pass of [patchOutlineEntry] emits: the items from
    a watermark of 1, then the placeholders of the pages that are left. *)
Definition targetLabels (idx : list Z) (items : list OutlineItemData) : list OutlineLabel :=
  let r := outlineLabelsEach idx items 1 in
  r.1 ++ pageLabels idx r.2 (Z.of_nat (length idx) + 1).

(** ** What the builder makes of a node *)

(** [s] is the title span of an item titled [t]: a [span] whose text is the
    title, of class [typst-outline-title], tagged for the title. *)
Definition isTitleOf (d : Document) (s : nat) (t : string) : Prop :=
  ∃ e, d !! s = Some e ∧ Dom.tagName e = "span" ∧ Dom.textContent e = t ∧
       "typst-outline-title" ∈ Dom.classList e ∧
       Dom.attributes e = titleAttributes t.

(** [y] is the container of an item titled [t]: a [div] of class
    [typst-outline] carrying [data-title] and the tags of the title, whose
    first child is the title span of the item. *)
Definition isContainerOf (d : Document) (y : nat) (t : string) : Prop :=
  ∃ e s kids, d !! y = Some e ∧ Dom.tagName e = "div" ∧
              Dom.classList e = ["typst-outline"] ∧
              Dom.attributes e = outlineAttributes t ∧
              Dom.children e = s :: kids ∧ isTitleOf d s t.

(** [y] is a page placeholder: a [div] carrying the attributes
    [pushCanvas] writes for some index. *)
Definition isStubElem (d : Document) (y : nat) : Prop :=
  ∃ e i, d !! y = Some e ∧ Dom.tagName e = "div" ∧ Dom.attributes e = stubAttributes i.

Definition Made (titles : list string) (d : Document) (y : nat) : Prop :=
  (∃ t, t ∈ titles ∧ isContainerOf d y t) ∨
  (∃ t, t ∈ titles ∧ isTitleOf d y t) ∨
  isStubElem d y.

(** Every element of [d] is in [d'] with its tag name, attributes, classes
    and text, and with its children, possibly followed by more. *)
Definition Keeps (d d' : Document) : Prop :=
  ∀ x e, d !! x = Some e →
    ∃ e', d' !! x = Some e' ∧ Dom.tagName e' = Dom.tagName e ∧
          Dom.attributes e' = Dom.attributes e ∧ Dom.classList e' = Dom.classList e ∧
          Dom.textContent e' = Dom.textContent e ∧
          ∃ more, Dom.children e' = Dom.children e ++ more.

(** What [generate] leaves, beyond the invariant of the builder. *)
Definition GenerateShape (root : nat) (item : OutlineItemData) : Prop :=
  ∀ level ctx h,
    Building root h ctx → Agree root (doc h) →
    ∃ ctx' h' kids new,
      let N := length (doc h) in
      let k := spliceCount ctx (GenContext.posOf item) h in
      let s := (N + 1 + k)%nat in
      GenContext.generate item level ctx h = Ok (N, ctx') h' ∧
      Agree root (doc h') ∧
      Extends (insertionPoint ctx) (parent ctx) h h' ∧
      Dom.documentOrder (doc h') root = Dom.documentOrder (doc h) root ++ new ∧
      entriesOf (doc h') new = titlesOf item ∧
      labelsOf (doc h') new = (outlineLabels (index <$> pages h) item (populateCnt ctx)).1 ∧
      populateCnt ctx' = (outlineLabels (index <$> pages h) item (populateCnt ctx)).2 ∧
      insertionPoint ctx' = insertionPoint ctx ∧
      last (Dom.childrenOf (doc h') (parent ctx)) = Some N ∧
      doc h' !! N =
        Some (Dom.mkElem "div" (outlineAttributes (title item)) ["typst-outline"] ""
                [] [] (s :: kids) (Some (parent ctx))) ∧
      doc h' !! s = Some (titleElem (title item) level N (hasChildren item ctx)) ∧
      (∀ y, (N < y < s)%nat →
            ∃ p, pages h !! (Z.to_nat (populateCnt ctx - 1) + (y - S N))%nat = Some p ∧
                 doc h' !! y = Some (stubElem p (insertionPoint ctx))) ∧
      (∀ y, (N ≤ y < length (doc h'))%nat → Made (titlesOf item) (doc h') y).

(** Every parent reference of the document names an element of the
    document. *)
Definition closed (d : Document) : bool :=
  forallb (λ e, match Dom.parentNode e with
                | Some p => bool_decide (p < length d)%nat
                | None => true
                end) d.

(** The builder as [new GenContext(pages)] leaves it on [scenarioHeap]:
    the target root is element 4. *)
Definition builderStart : Heap := heapOf (GenContext.new scenarioHeap).

Definition builderStartContext : GenContext := mkGenContext 1 4 4 None [1].

(** ** What reconciliation may still do *)


(** ** More collaborators and heaps for the concrete runs *)

(** An oracle that never answers reuse, and a patcher that gives the
    previous node the attributes of the target node. *)
Definition neverEqual : Document → nat → nat → bool := λ _ _ _, false.
Definition copyAttributes : Document → nat → nat → Document :=
  λ d prev next,
    match d !! next with
    | Some e => alter (Dom.with_attributes (λ _, Dom.attributes e)) prev d
    | None => d
    end.

(** The rendered element of page 1 (element 0, class [typst-page], holding
    its canvas, element 1) and the detached container of page 2 (element
    2); the registry has the two pages, of indices 1 and 2. *)
Definition twoPageHeap : Heap :=
  mkHeap
    [Dom.mkElem "div" [(Attr "data-page-number", "1")] ["typst-page"] "" [] [] [1%nat] None;
     Dom.mkElem "canvas" [] [] "" [] [] [] (Some 0%nat);
     Dom.blank "div"]
    [mkCanvasPage 1 595 842 0 (Some 1%nat) None None;
     mkCanvasPage 2 595 842 2 None None None]
    [].


(** * Properties *)

(** ** Round trip of page numbers through attribute text *)

Lemma Number_parseInt_toString (z : Z) :
  Number_parseInt (Some (Number_toString z)) = Some z.
Proof.
  unfold Number_parseInt, Number_toString.
  rewrite NilZero.isi.
  - simpl. f_equal. apply DecimalZ.of_to.
  - destruct z; simpl; try discriminate.
    intros [= H]. revert H. apply Unsigned.to_uint_nonnil.
  - destruct z; simpl; try discriminate.
    intros [= H]. revert H. apply Unsigned.to_uint_nonnil.
Qed.

(** ** Document order of a tree whose references point forward *)

Section Order.

Local Open Scope nat_scope.

Implicit Types (ch : nat → list nat) (x y c q root n fuel : nat).

Lemma elem_of_flat_map {A B} (f : A → list B) (l : list A) (b : B) :
  b ∈ flat_map f l ↔ ∃ a, a ∈ l ∧ b ∈ f a.
Proof.
  rewrite list_elem_of_In, in_flat_map.
  split; intros (a & Ha & Hb); exists a; by rewrite ?list_elem_of_In in *.
Qed.

Lemma flat_map_agree {A B} (f g : A → list B) (l : list A) :
  (∀ a, a ∈ l → f a = g a) → flat_map f l = flat_map g l.
Proof.
  induction l as [|a l IH]; intros H; [done|].
  simpl. rewrite H by left. rewrite IH; [done|].
  intros b Hb. apply H. by right.
Qed.

Lemma Forward_leaf root ch n x : Forward root ch n → root ≤ x → n ≤ S x → ch x = [].
Proof.
  intros Hf Hx Hn. destruct (ch x) as [|c l] eqn:E; [done|].
  assert (x < c < n) by (apply Hf; [done|rewrite E; left]). lia.
Qed.

Lemma flatten_fuel root ch n :
  Forward root ch n →
  ∀ f f' x, root ≤ x → n - x ≤ f → n - x ≤ f' → 1 ≤ f → 1 ≤ f' →
  Dom.flatten ch f x = Dom.flatten ch f' x.
Proof.
  intros Hf f. induction f as [|f IH]; intros f' x Hx H1 H2 H3 H4; [lia|].
  destruct f' as [|f']; [lia|]. simpl. f_equal.
  apply flat_map_agree. intros c Hc.
  destruct (Hf x c Hx Hc) as [Hxc Hcn].
  apply IH; lia.
Qed.

Lemma flatten_S ch fuel x :
  Dom.flatten ch (S fuel) x = x :: flat_map (Dom.flatten ch fuel) (ch x).
Proof. reflexivity. Qed.

(** With enough fuel the traversal satisfies the equation of pre-order. *)
Lemma flatten_unfold root ch n fuel x :
  Forward root ch n → root ≤ x → n ≤ fuel → 1 ≤ fuel →
  Dom.flatten ch fuel x = x :: flat_map (Dom.flatten ch fuel) (ch x).
Proof.
  intros Hf Hx Hn H1. destruct fuel as [|f]; [lia|].
  etrans; [apply flatten_S|].
  f_equal. apply flat_map_agree. intros c Hc.
  destruct (Hf x c Hx Hc) as [Hxc Hcn].
  eapply flatten_fuel; eauto; lia.
Qed.

Lemma flatten_ge root ch n fuel x y :
  Forward root ch n → root ≤ x → y ∈ Dom.flatten ch fuel x → x ≤ y.
Proof.
  intros Hf. revert x. induction fuel as [|f IH]; intros x Hx Hy.
  - by apply elem_of_nil in Hy.
  - simpl in Hy. apply elem_of_cons in Hy as [->|Hy]; [lia|].
    apply elem_of_flat_map in Hy as (c & Hc & Hy).
    destruct (Hf x c Hx Hc). apply IH in Hy; lia.
Qed.

Lemma flatten_lt root ch n fuel x y :
  Forward root ch n → root ≤ x → y ∈ Dom.flatten ch fuel x → y = x ∨ y < n.
Proof.
  intros Hf. revert x. induction fuel as [|f IH]; intros x Hx Hy.
  - by apply elem_of_nil in Hy.
  - simpl in Hy. apply elem_of_cons in Hy as [->|Hy]; [by left|].
    apply elem_of_flat_map in Hy as (c & Hc & Hy).
    destruct (Hf x c Hx Hc). apply IH in Hy as [->|?]; [|by right|lia]. by right.
Qed.

(** Changing the children of [q] leaves every subtree without [q] alone. *)
Lemma flatten_frame ch ch' q fuel x :
  (∀ y, y ≠ q → ch' y = ch y) →
  q ∉ Dom.flatten ch fuel x →
  Dom.flatten ch' fuel x = Dom.flatten ch fuel x.
Proof.
  intros Hch. revert x. induction fuel as [|f IH]; intros x Hq; [done|].
  simpl in *. apply not_elem_of_cons in Hq as [Hqx Hq].
  rewrite Hch by done. f_equal. apply flat_map_agree. intros c Hc.
  apply IH. intros Hin. apply Hq. apply elem_of_flat_map. eauto.
Qed.

Lemma Spine_trans ch x y z : Spine ch x y → Spine ch y z → Spine ch x z.
Proof. induction 1; [done|]. intros. eapply Spine_last; eauto. Qed.

Lemma Spine_le root ch n x q : Forward root ch n → root ≤ x → Spine ch x q → x ≤ q.
Proof.
  intros Hf Hx Hs. induction Hs as [|x y q Hl Hs IH]; [done|].
  apply last_Some_elem_of in Hl. destruct (Hf x y Hx Hl). lia.
Qed.

Lemma Spine_lt root ch n x q :
  Forward root ch n → root ≤ x → x < n → Spine ch x q → q < n.
Proof.
  intros Hf Hx Hn Hs. induction Hs as [|x y q Hl Hs IH]; [done|].
  apply last_Some_elem_of in Hl. destruct (Hf x y Hx Hl). apply IH; lia.
Qed.

Lemma Spine_elem_of root ch n fuel x q :
  Forward root ch n → root ≤ x → n ≤ fuel → 1 ≤ fuel →
  Spine ch x q → q ∈ Dom.flatten ch fuel x.
Proof.
  intros Hf Hx Hn H1 Hs. induction Hs as [|x y q Hl Hs IH].
  - erewrite flatten_unfold by eauto. left.
  - erewrite flatten_unfold by eauto. right.
    apply elem_of_flat_map. exists y. split; [by apply last_Some_elem_of|].
    apply last_Some_elem_of in Hl. destruct (Hf x y Hx Hl). apply IH. lia.
Qed.

(** A spine survives any change made at or below its end. *)
Lemma Spine_frame root ch ch' n x q :
  Forward root ch n → root ≤ x →
  (∀ y, y < q → ch' y = ch y) →
  Spine ch x q → Spine ch' x q.
Proof.
  intros Hf Hx Hch Hs. induction Hs as [|x y q Hl Hs IH]; [constructor|].
  pose proof (last_Some_elem_of _ _ Hl) as Hin.
  destruct (Hf x y Hx Hin).
  assert (y ≤ q) by (apply (Spine_le root ch n); [done|lia|done]).
  eapply Spine_last; [rewrite Hch by lia; done|].
  apply IH; [lia|done].
Qed.

(** Appending [c] under the end [q] of a spine appends the subtree of [c]
    to the document order of the whole tree. *)
Lemma flatten_append root ch ch' n fuel x q c :
  Forward root ch n → Forward root ch' n → n ≤ fuel → 1 ≤ fuel → root ≤ x →
  (∀ y, y ≠ q → ch' y = ch y) → ch' q = ch q ++ [c] →
  q < c →
  NoDup (Dom.flatten ch fuel x) →
  Spine ch x q →
  Dom.flatten ch' fuel x = Dom.flatten ch fuel x ++ Dom.flatten ch' fuel c.
Proof.
  intros Hf Hf' Hn H1 Hx Hch Hq Hqc Hnd Hs.
  induction Hs as [x|x y q Hl Hs IH].
  - rewrite (flatten_unfold root ch' n) by done.
    rewrite (flatten_unfold root ch n) by done.
    rewrite Hq, flat_map_app. simpl. rewrite app_nil_r.
    f_equal. f_equal. apply flat_map_agree. intros z Hz.
    apply flatten_frame with (q := x); [done|].
    intros Hin. destruct (Hf x z Hx Hz).
    eapply flatten_ge in Hin; eauto; lia.
  - pose proof (last_Some_elem_of _ _ Hl) as Hin.
    destruct (Hf x y Hx Hin) as [Hxy Hyn].
    assert (Hyq : y ≤ q) by (apply (Spine_le root ch n); [done|lia|done]).
    apply last_Some in Hl as [ys Hys].
    rewrite (flatten_unfold root ch n) in Hnd |- * by done.
    rewrite (flatten_unfold root ch' n) by done.
    rewrite Hch by lia. rewrite Hys in *.
    rewrite !flat_map_app in *. simpl in *. rewrite !app_nil_r in *.
    apply NoDup_cons in Hnd as [_ Hnd].
    apply NoDup_app in Hnd as (_ & Hdis & Hndy).
    rewrite IH by (done || lia).
    rewrite <- !app_assoc. simpl. f_equal. f_equal.
    apply flat_map_agree. intros z Hz.
    apply flatten_frame with (q := q); [done|].
    intros Hqz. apply (Hdis q).
    + apply elem_of_flat_map. eauto.
    + eapply Spine_elem_of; eauto. lia.
Qed.

End Order.

Section BuilderFacts.

Local Open Scope nat_scope.

Implicit Types (d : Document) (h : Heap) (e : Elem) (x y q c root m : nat).

Lemma alter_snoc_last {A} (f : A → A) (l : list A) (a : A) :
  alter f (length l) (l ++ [a]) = l ++ [f a].
Proof.
  replace (length l) with (length l + 0) at 1 by lia.
  by rewrite alter_app_r.
Qed.

Lemma lookup_snoc {A} (l : list A) (a : A) x :
  (l ++ [a]) !! x = if decide (x = length l) then Some a else l !! x.
Proof.
  case_decide as Hx.
  - subst. rewrite lookup_app_r by lia. by rewrite Nat.sub_diag.
  - destruct (decide (x < length l)).
    + by rewrite lookup_app_l.
    + rewrite !lookup_ge_None_2; [done|lia|rewrite length_app; simpl; lia].
Qed.

Lemma childrenOf_ge d x : length d ≤ x → Dom.childrenOf d x = [].
Proof. intros. unfold Dom.childrenOf. by rewrite lookup_ge_None_2. Qed.

Lemma parentOf_ge d x : length d ≤ x → Dom.parentOf d x = None.
Proof. intros. unfold Dom.parentOf. by rewrite lookup_ge_None_2. Qed.

Lemma childrenOf_snoc d e x :
  Dom.childrenOf (d ++ [e]) x =
    if decide (x = length d) then Dom.children e else Dom.childrenOf d x.
Proof. unfold Dom.childrenOf. rewrite lookup_snoc. by case_decide. Qed.

Lemma parentOf_snoc d e x :
  Dom.parentOf (d ++ [e]) x =
    if decide (x = length d) then Dom.parentNode e else Dom.parentOf d x.
Proof. unfold Dom.parentOf. rewrite lookup_snoc. by case_decide. Qed.

Lemma attributesOf_snoc d e x :
  attributesOf (d ++ [e]) x =
    if decide (x = length d) then Some (Dom.attributes e) else attributesOf d x.
Proof. unfold attributesOf. rewrite lookup_snoc. by case_decide. Qed.

Lemma childrenOf_alter f d q x :
  Dom.childrenOf (alter f q d) x =
    if decide (q = x) then match d !! q with Some e => Dom.children (f e) | None => [] end
    else Dom.childrenOf d x.
Proof.
  unfold Dom.childrenOf. rewrite list_lookup_alter.
  case_decide; [subst|done]. by destruct (d !! x).
Qed.

Lemma parentOf_alter f d q x :
  Dom.parentOf (alter f q d) x =
    if decide (q = x) then match d !! q with Some e => Dom.parentNode (f e) | None => None end
    else Dom.parentOf d x.
Proof.
  unfold Dom.parentOf. rewrite list_lookup_alter.
  case_decide; [subst|done]. by destruct (d !! x).
Qed.

Lemma attributesOf_alter f d q x :
  (∀ e, Dom.attributes (f e) = Dom.attributes e) →
  attributesOf (alter f q d) x = attributesOf d x.
Proof.
  intros Hf. unfold attributesOf. rewrite list_lookup_alter.
  case_decide; [subst|done]. destruct (d !! x); simpl; [|done]. by rewrite Hf.
Qed.

Lemma childrenOf_alter_children g d q x :
  q < length d →
  Dom.childrenOf (alter (Dom.with_children g) q d) x =
    if decide (q = x) then g (Dom.childrenOf d q) else Dom.childrenOf d x.
Proof.
  intros Hq. rewrite childrenOf_alter. case_decide; [|done].
  unfold Dom.childrenOf. destruct (lookup_lt_is_Some_2 d q Hq) as [e ->]. done.
Qed.

Lemma getAttribute_attributesOf d x k :
  Dom.getAttribute d x k = attributesOf d x ≫= Dom.assoc_get k.
Proof. unfold Dom.getAttribute, attributesOf. by destruct (d !! x). Qed.

Lemma isPlaceholder_attrs d d' x :
  attributesOf d' x = attributesOf d x → isPlaceholder d' x ↔ isPlaceholder d x.
Proof. unfold isPlaceholder. rewrite !getAttribute_attributesOf. by intros ->. Qed.

Lemma filter_agree {A} (P Q : A → Prop) `{∀ a, Decision (P a)} `{∀ a, Decision (Q a)}
    (l : list A) :
  (∀ a, a ∈ l → P a ↔ Q a) → filter P l = filter Q l.
Proof.
  induction l as [|a l IH]; intros HPQ; [done|].
  rewrite !filter_cons. rewrite IH by (intros; apply HPQ; by right).
  destruct (decide (P a)) as [HP|HP], (decide (Q a)) as [HQ|HQ]; try done.
  - apply HPQ in HP; [done|left].
  - apply HPQ in HQ; [done|left].
Qed.

Lemma flatten_agree ch ch' fuel x :
  (∀ y, y ∈ Dom.flatten ch fuel x → ch' y = ch y) →
  Dom.flatten ch' fuel x = Dom.flatten ch fuel x.
Proof.
  revert x. induction fuel as [|f IH]; intros x Hch; [done|].
  rewrite !flatten_S in *. rewrite Hch by left. f_equal.
  apply flat_map_agree. intros c Hc. apply IH. intros y Hy.
  apply Hch. right. apply elem_of_flat_map. eauto.
Qed.

Lemma Forward_weaken root ch n n' : Forward root ch n → n ≤ n' → Forward root ch n'.
Proof. intros Hf Hn x c Hx Hc. destruct (Hf x c Hx Hc). lia. Qed.

Lemma documentOrder_lt root h m y :
  Grown root h m → y ∈ Dom.documentOrder (doc h) root → y < length (doc h).
Proof.
  intros [Hr Hf _ _] Hy. eapply flatten_lt in Hy as [->|?]; eauto.
Qed.


Lemma Forall2_impl_elem {A B} (P Q : A → B → Prop) (l : list A) (k : list B) :
  Forall2 P l k → (∀ a b, a ∈ l → P a b → Q a b) → Forall2 Q l k.
Proof.
  induction 1 as [|a b l k Hab Hlk IH]; intros HPQ; constructor.
  - apply HPQ; [left|done].
  - apply IH. intros ???. apply HPQ. by right.
Qed.

(** A step that changes neither the children of the nodes of the tree nor
    the attributes of existing elements leaves the tree as it is. *)
Lemma Grown_transfer root h h' m :
  Grown root h m →
  length (doc h) ≤ length (doc h') →
  Forward root (Dom.childrenOf (doc h')) (length (doc h')) →
  (∀ y, y ∈ Dom.documentOrder (doc h) root →
        Dom.childrenOf (doc h') y = Dom.childrenOf (doc h) y) →
  (∀ y, y ∈ Dom.documentOrder (doc h) root →
        attributesOf (doc h') y = attributesOf (doc h) y) →
  take m (pages h') = take m (pages h) →
  Grown root h' m ∧ Dom.documentOrder (doc h') root = Dom.documentOrder (doc h) root.
Proof.
  intros Hg Hlen Hf' Hch Hat Hpg.
  pose proof Hg as [Hr Hf Hnd Hst].
  assert (Hord : Dom.documentOrder (doc h') root = Dom.documentOrder (doc h) root).
  { unfold Dom.documentOrder.
    rewrite (flatten_fuel root _ _ Hf' (length (doc h')) (length (doc h) + length (doc h')) root)
      by lia.
    rewrite (flatten_fuel root _ _ Hf (length (doc h)) (length (doc h) + length (doc h')) root)
      by lia.
    apply flatten_agree. intros y Hy. apply Hch. unfold Dom.documentOrder.
    rewrite (flatten_fuel root _ _ Hf (length (doc h)) (length (doc h) + length (doc h')) root)
      by lia. done. }
  split; [|done]. split.
  - lia.
  - done.
  - by rewrite Hord.
  - rewrite Hpg. unfold placeholders. rewrite Hord.
    rewrite (filter_agree (isPlaceholder (doc h')) (isPlaceholder (doc h))).
    + eapply Forall2_impl_elem; [exact Hst|].
      intros s p Hs [Hsp Hsa]. split; [done|].
      apply list_elem_of_filter in Hs as [_ Hs]. by rewrite Hat.
    + intros y Hy. apply isPlaceholder_attrs. by apply Hat.
Qed.
(** Appending a detached subtree under the end of the spine. *)
Lemma order_append root h h' m q c :
  Grown root h m →
  Spine (Dom.childrenOf (doc h)) root q → q < c →
  length (doc h) ≤ length (doc h') →
  Forward root (Dom.childrenOf (doc h')) (length (doc h')) →
  (∀ y, y ≠ q → Dom.childrenOf (doc h') y = Dom.childrenOf (doc h) y) →
  Dom.childrenOf (doc h') q = Dom.childrenOf (doc h) q ++ [c] →
  (∀ y, y ∈ Dom.documentOrder (doc h) root →
        attributesOf (doc h') y = attributesOf (doc h) y) →
  Dom.documentOrder (doc h') root =
    Dom.documentOrder (doc h) root ++ Dom.documentOrder (doc h') c ∧
  placeholders (doc h') root =
    placeholders (doc h) root ++ filter (isPlaceholder (doc h')) (Dom.documentOrder (doc h') c).
Proof.
  intros Hg Hs Hqc Hlen Hf' Hch Hq Hat.
  pose proof Hg as [Hr Hf Hnd Hst].
  assert (Hord : Dom.documentOrder (doc h') root =
            Dom.documentOrder (doc h) root ++ Dom.documentOrder (doc h') c).
  { unfold Dom.documentOrder.
    assert (Hfw : Forward root (Dom.childrenOf (doc h)) (length (doc h')))
      by (eapply Forward_weaken; eauto).
    rewrite (flatten_fuel root _ _ Hf (length (doc h)) (length (doc h')) root) by lia.
    eapply flatten_append with (q := q); eauto; try lia.
    rewrite <- (flatten_fuel root _ _ Hf (length (doc h)) (length (doc h')) root) by lia.
    done. }
  split; [done|].
  unfold placeholders. rewrite Hord, filter_app. f_equal.
  apply filter_agree. intros y Hy. apply isPlaceholder_attrs. by apply Hat.
Qed.

Lemma Spine_root_lt root h m q :
  Grown root h m → Spine (Dom.childrenOf (doc h)) root q → root ≤ q < length (doc h).
Proof.
  intros [Hr Hf _ _] Hs. split.
  - eapply Spine_le; eauto.
  - eapply Spine_lt; eauto.
Qed.

Lemma erase_stub_alter s k (ps : list CanvasPage) :
  with_stub None <$> alter (with_stub s) k ps = with_stub None <$> ps.
Proof.
  apply list_eq. intros i. rewrite !list_lookup_fmap, list_lookup_alter.
  case_decide; [subst|done]. by destruct (ps !! i).
Qed.

Lemma pushCanvas_eq this k p h :
  pages h !! k = Some p → this < length (doc h) →
  GenElem.pushCanvas this (Some k) h =
    Ok tt (mkHeap
             (alter (Dom.with_children (λ l, l ++ [length (doc h)])) this (doc h)
                ++ [stubElem p this])
             (alter (with_stub (Some (length (doc h)))) k (pages h))
             (patchLog h)).
Proof.
  intros Hp Hthis.
  unfold GenElem.pushCanvas, bind, createElement, readPage, setAttribute,
    updElem, updDoc, writePage, with_doc, with_pages. simpl.
  repeat (rewrite Hp; simpl).
  rewrite !alter_snoc_last. simpl.
  unfold Dom.append, Dom.detach. rewrite parentOf_snoc. rewrite decide_True by done.
  simpl. rewrite alter_snoc_last. rewrite alter_app_l by done.
  reflexivity.
Qed.

Lemma pushCanvas_grown root h m q p :
  Grown root h m →
  Spine (Dom.childrenOf (doc h)) root q →
  pages h !! m = Some p →
  ∃ h', GenElem.pushCanvas q (Some m) h = Ok tt h' ∧
    Grown root h' (S m) ∧ Step h h' ∧
    length (doc h') = S (length (doc h)) ∧
    (∀ y, y ≠ q → Dom.childrenOf (doc h') y = Dom.childrenOf (doc h) y) ∧
    Dom.childrenOf (doc h') q = Dom.childrenOf (doc h) q ++ [length (doc h)] ∧
    Dom.documentOrder (doc h') root = Dom.documentOrder (doc h) root ++ [length (doc h)] ∧
    attributesOf (doc h') (length (doc h)) = Some (stubAttributes (index p)) ∧
    (∀ y, y < length (doc h) → Dom.parentOf (doc h') y = Dom.parentOf (doc h) y).
Proof.
  intros Hg Hs Hp.
  destruct (Spine_root_lt _ _ _ _ Hg Hs) as [Hrq Hql].
  pose proof Hg as [Hr Hf Hnd Hst].
  eexists. split; [by apply pushCanvas_eq|].
  set (d' := alter _ q (doc h) ++ [stubElem p q]).
  set (h' := mkHeap d' _ _).
  assert (Hlen : length d' = S (length (doc h))).
  { unfold d'. rewrite length_app, length_alter. simpl. lia. }
  assert (Hch : ∀ y, y ≠ q → Dom.childrenOf d' y = Dom.childrenOf (doc h) y).
  { intros y Hy. unfold d'. rewrite childrenOf_snoc, length_alter.
    rewrite childrenOf_alter_children by done.
    case_decide; [subst; by rewrite childrenOf_ge|]. by rewrite decide_False. }
  assert (Hq : Dom.childrenOf d' q = Dom.childrenOf (doc h) q ++ [length (doc h)]).
  { unfold d'. rewrite childrenOf_snoc, length_alter.
    rewrite childrenOf_alter_children by done.
    rewrite decide_False by lia. by rewrite decide_True. }
  assert (Hat : ∀ y, y < length (doc h) → attributesOf d' y = attributesOf (doc h) y).
  { intros y Hy. unfold d'. rewrite attributesOf_snoc, length_alter.
    rewrite decide_False by lia. by apply attributesOf_alter. }
  assert (Hnew : attributesOf d' (length (doc h)) = Some (stubAttributes (index p))).
  { unfold d'. rewrite attributesOf_snoc, length_alter. by rewrite decide_True. }
  assert (Hpa : ∀ y, y < length (doc h) → Dom.parentOf d' y = Dom.parentOf (doc h) y).
  { intros y Hy. unfold d'. rewrite parentOf_snoc, length_alter.
    rewrite decide_False by lia. rewrite parentOf_alter.
    case_decide; [subst|done]. unfold Dom.parentOf. by destruct (doc h !! y). }
  assert (Hf' : Forward root (Dom.childrenOf d') (length d')).
  { intros x c Hx Hc. rewrite Hlen. destruct (decide (x = q)) as [->|Hxq].
    - rewrite Hq in Hc. apply elem_of_app in Hc as [Hc|Hc].
      + destruct (Hf q c Hx Hc). lia.
      + apply list_elem_of_singleton in Hc as ->. lia.
    - rewrite Hch in Hc by done. destruct (Hf x c Hx Hc). lia. }
  assert (Hleaf : Dom.documentOrder d' (length (doc h)) = [length (doc h)]).
  { unfold Dom.documentOrder. rewrite Hlen, flatten_S.
    rewrite Hch by lia. by rewrite childrenOf_ge. }
  assert (Hd' : doc h' = d') by done.
  assert (Hp' : pages h' = alter (with_stub (Some (length (doc h)))) m (pages h)) by done.
  assert (Hl' : patchLog h' = patchLog h) by done.
  clearbody h' d'. subst d'.
  destruct (order_append root h h' m q (length (doc h))) as [Hord Hpl]; try done.
  { lia. }
  { intros y Hy. apply Hat. eapply documentOrder_lt; eauto. }
  rewrite Hleaf in Hord, Hpl.
  assert (Hsp : isPlaceholder (doc h') (length (doc h))).
  { unfold isPlaceholder. rewrite getAttribute_attributesOf, Hnew. by eexists. }
  rewrite filter_cons_True, filter_nil in Hpl by done.
  assert (HG : Grown root h' (S m)).
  { split.
    - lia.
    - done.
    - rewrite Hord. apply NoDup_app. repeat split; [done| |apply NoDup_singleton].
      intros y Hy ->%list_elem_of_singleton.
      eapply documentOrder_lt in Hy; eauto. lia.
    - rewrite Hpl, Hp'. erewrite take_S_r; [|by rewrite list_lookup_alter_eq, Hp].
      apply Forall2_app.
      + rewrite take_alter_ge by lia.
        eapply Forall2_impl_elem; [exact Hst|].
        intros z p' Hz [Hzp Hza]. split; [done|].
        apply list_elem_of_filter in Hz as [_ Hz].
        rewrite Hat; [done|]. eapply documentOrder_lt in Hz; eauto.
      + constructor; [|constructor]. split; [done|]. by rewrite Hnew. }
  assert (HS : Step h h').
  { split; try done.
    - lia.
    - rewrite Hp'. apply erase_stub_alter. }
  done.
Qed.

Lemma Step_refl h : Step h h.
Proof. by split. Qed.

Lemma Step_trans h1 h2 h3 : Step h1 h2 → Step h2 h3 → Step h1 h3.
Proof.
  intros [L1 A1 G1 O1] [L2 A2 G2 O2]. split.
  - lia.
  - intros y Hy. rewrite A2 by lia. by apply A1.
  - by rewrite G2.
  - by rewrite O2.
Qed.

Lemma Step_indices h h' : Step h h' → index <$> pages h' = index <$> pages h.
Proof.
  intros [_ _ Hp _].
  assert (Hi : ∀ ps : list CanvasPage, index <$> ps = index <$> (with_stub None <$> ps)).
  { intros ps. rewrite <- list_fmap_compose. by apply list_fmap_ext. }
  by rewrite (Hi (pages h')), (Hi (pages h)), Hp.
Qed.

Lemma Step_pages_length h h' : Step h h' → length (pages h') = length (pages h).
Proof.
  intros Hs. apply Step_indices in Hs.
  apply (f_equal length) in Hs. by rewrite !length_fmap in Hs.
Qed.

Lemma Tagged_step titles h h' h'' y :
  Step h h' → Step h' h'' → y < length (doc h') →
  Tagged titles (index <$> pages h) (doc h') y →
  Tagged titles (index <$> pages h) (doc h'') y.
Proof.
  intros _ [_ Ha _ _] Hy. unfold Tagged. by rewrite Ha.
Qed.

Lemma FreshTagged_trans titles h1 h2 h3 :
  Step h1 h2 → Step h2 h3 →
  FreshTagged titles h1 h2 → FreshTagged titles h2 h3 → FreshTagged titles h1 h3.
Proof.
  intros S1 S2 F1 F2 y Hy.
  destruct (decide (y < length (doc h2))).
  - eapply Tagged_step; eauto. apply F1. lia.
  - rewrite <- (Step_indices _ _ S1). apply F2. lia.
Qed.

Lemma FreshTagged_refl titles h h' :
  length (doc h') = length (doc h) → FreshTagged titles h h'.
Proof. intros Hl y Hy. lia. Qed.

Lemma spliceLoop_grown titles root next k :
  ∀ h m,
  Grown root h m →
  Spine (Dom.childrenOf (doc h)) root next →
  m + k ≤ length (pages h) →
  ∃ h', GenContext.spliceLoop next (Z.of_nat m + 1) k h = Ok tt h' ∧
    Grown root h' (m + k) ∧ Step h h' ∧ FreshTagged titles h h' ∧
    length (doc h') = length (doc h) + k ∧
    (∀ y, y ≠ next → Dom.childrenOf (doc h') y = Dom.childrenOf (doc h) y) ∧
    Dom.childrenOf (doc h') next = Dom.childrenOf (doc h) next ++ seq (length (doc h)) k ∧
    Dom.documentOrder (doc h') root = Dom.documentOrder (doc h) root ++ seq (length (doc h)) k ∧
    (∀ y, y < length (doc h) → Dom.parentOf (doc h') y = Dom.parentOf (doc h) y).
Proof.
  induction k as [|k IH]; intros h m Hg Hs Hk.
  - exists h. simpl. rewrite !app_nil_r, !Nat.add_0_r.
    split_and!; try done; try apply Step_refl. by apply FreshTagged_refl.
  - destruct (lookup_lt_is_Some_2 (pages h) m) as [p Hp]; [lia|].
    destruct (pushCanvas_grown root h m next p Hg Hs Hp)
      as (h1 & Hrun & Hg1 & Hs1 & Hl1 & Hch1 & Hq1 & Ho1 & Ha1 & Hp1).
    assert (Hsp1 : Spine (Dom.childrenOf (doc h1)) root next).
    { pose proof Hg as [Hr Hf _ _].
      eapply Spine_frame; eauto. intros y Hy. apply Hch1. lia. }
    destruct (IH h1 (S m) Hg1 Hsp1)
      as (h2 & Hrun2 & Hg2 & Hs2 & Ht2 & Hl2 & Hch2 & Hq2 & Ho2 & Hp2).
    { rewrite (Step_pages_length _ _ Hs1). lia. }
    exists h2.
    assert (Hrun' : GenContext.spliceLoop next (Z.of_nat m + 1) (S k) h = Ok tt h2).
    { simpl. unfold bind, pagesAt.
      replace (Z.of_nat m + 1 - 1)%Z with (Z.of_nat m) by lia.
      rewrite decide_True by lia. rewrite Nat2Z.id, Hrun.
      replace (Z.of_nat m + 1 + 1)%Z with (Z.of_nat (S m) + 1)%Z by lia. done. }
    split; [done|].
    split; [by replace (m + S k) with (S m + k) by lia|].
    split; [by eapply Step_trans|].
    split.
    { eapply FreshTagged_trans; eauto.
      intros y Hy. right. right. exists (index p). split.
      - apply list_elem_of_fmap. exists p. split; [done|]. by eapply list_elem_of_lookup_2.
      - replace y with (length (doc h)) by lia. done. }
    split; [lia|].
    split; [intros y Hy; rewrite Hch2, Hch1; done|].
    split; [rewrite Hq2, Hq1, Hl1; by rewrite <- app_assoc|].
    split; [rewrite Ho2, Ho1, Hl1; by rewrite <- app_assoc|].
    intros y Hy. rewrite Hp2 by lia. by apply Hp1.
Qed.

Lemma NonDecreasing_snoc (l : list Z) (a b : Z) :
  NonDecreasing l → last l = Some a → (a ≤ b)%Z → NonDecreasing (l ++ [b]).
Proof.
  intros Hl Ha Hab i u v Hu Hv.
  destruct (decide (S i < length l)) as [Hi|Hi].
  - rewrite lookup_app_l in Hu by lia. rewrite lookup_app_l in Hv by lia. eauto.
  - assert (i < length l) by (apply lookup_lt_Some in Hu; rewrite length_app in Hu;
       apply lookup_lt_Some in Hv; rewrite length_app in Hv; simpl in *; lia).
    rewrite lookup_app_l in Hu by lia.
    rewrite lookup_app_r in Hv by lia.
    replace (S i - length l) with 0 in Hv by lia. simpl in Hv.
    rewrite last_lookup in Ha. replace (pred (length l)) with i in Ha by lia.
    congruence.
Qed.

Lemma spliceCanvas_grown titles root h ctx next until :
  let cnt' := Z.max (Z.min until (Z.of_nat (length (pages h)) + 1)) (populateCnt ctx) in
  Grown root h (Z.to_nat (populateCnt ctx - 1)) →
  (1 ≤ populateCnt ctx ≤ Z.of_nat (length (pages h)) + 1)%Z →
  Spine (Dom.childrenOf (doc h)) root next →
  ∃ h' k, GenContext.spliceCanvas ctx next until h = Ok (with_populateCnt cnt' ctx) h' ∧
    Grown root h' (Z.to_nat (cnt' - 1)) ∧ Step h h' ∧ FreshTagged titles h h' ∧
    length (doc h') = length (doc h) + k ∧
    (∀ y, y ≠ next → Dom.childrenOf (doc h') y = Dom.childrenOf (doc h) y) ∧
    Dom.childrenOf (doc h') next = Dom.childrenOf (doc h) next ++ seq (length (doc h)) k ∧
    Dom.documentOrder (doc h') root = Dom.documentOrder (doc h) root ++ seq (length (doc h)) k ∧
    (∀ y, y < length (doc h) → Dom.parentOf (doc h') y = Dom.parentOf (doc h) y).
Proof.
  intros cnt' Hg Hc Hs.
  set (m := Z.to_nat (populateCnt ctx - 1)).
  set (k := Z.to_nat (Z.min until (Z.of_nat (length (pages h)) + 1) - populateCnt ctx)).
  destruct (spliceLoop_grown titles root next k h m Hg Hs) as (h' & Hrun & Hrest).
  { unfold m, k. lia. }
  exists h', k. split.
  - unfold GenContext.spliceCanvas, bind, pagesLength.
    replace (populateCnt ctx) with (Z.of_nat m + 1)%Z at 1 by (unfold m; lia).
    fold k. by rewrite Hrun.
  - replace (Z.to_nat (cnt' - 1)) with (m + k) by (unfold cnt', m, k; lia). done.
Qed.

End BuilderFacts.

Section GenerateFacts.

Local Open Scope nat_scope.

Implicit Types (d : Document) (h : Heap) (e : Elem) (x y q c root m : nat).

Lemma eachChild_generateEach (chs : list OutlineItemData) (level : Z) :
  ∀ this h, eachChild level chs this h = GenContext.generateEach chs level this h.
Proof.
  induction chs as [|ch chs IH]; intros this h; [done|].
  simpl. unfold bind. destruct (GenContext.generate ch level this h); auto.
Qed.

Lemma generate_run item level this h :
  GenContext.generate item level this h =
    (outlineNode <- newOutlineDiv (title item);;
     let hasChildren :=
       bool_decide (Z.max 0 (GenContext.posOf item - populateCnt this)
                    + Z.of_nat (length (children item)) > 0)%Z in
     this1 <- GenContext.spliceCanvas this (insertionPoint this) (GenContext.posOf item);;
     titleSpan <- newTitleSpan (title item) level outlineNode;;
     _ <- GenElem.push (parent this1) outlineNode;;
     this2 <- eachChild (level + 1)%Z (children item)
                (with_insertionPoint outlineNode
                   (with_parent outlineNode (with_lastVisit (Some outlineNode) this1)));;
     _ <- makeClickable hasChildren titleSpan;;
     ret (outlineNode,
          with_parent (parent this1) (with_insertionPoint (insertionPoint this1) this2))) h.
Proof.
  destruct item as [t pos chs]. reflexivity.
Qed.

Lemma newOutlineDiv_eq t h :
  newOutlineDiv t h = Ok (length (doc h)) (with_doc (λ d, d ++ [outlineDivElem t]) h).
Proof.
  unfold newOutlineDiv, tagPatchId, bind, createElement, classList_add, setAttribute,
    updElem, updDoc, ret, with_doc. simpl.
  rewrite !alter_snoc_last. reflexivity.
Qed.

Lemma newTitleSpan_eq t level N h :
  N < length (doc h) →
  newTitleSpan t level N h =
    Ok (length (doc h))
       (with_doc (λ d, alter (Dom.with_children (λ l, l ++ [length d])) N d
                         ++ [titleSpanElem t level N]) h).
Proof.
  intros HN.
  unfold newTitleSpan, tagPatchId, GenElem.push, bind, createElement, classList_add,
    setAttribute, updElem, updDoc, ret, with_doc. simpl.
  rewrite !alter_snoc_last.
  unfold Dom.append, Dom.detach. rewrite parentOf_snoc, decide_True by done. simpl.
  rewrite alter_snoc_last, alter_app_l by done.
  reflexivity.
Qed.

Lemma push_eq q N h :
  Dom.parentOf (doc h) N = None →
  GenElem.push q N h =
    Ok tt (with_doc (λ d, alter (Dom.with_children (λ l, l ++ [N])) q
                            (alter (Dom.with_parentNode (Some q)) N d)) h).
Proof.
  intros HN. unfold GenElem.push, updDoc, with_doc, Dom.append, Dom.detach. by rewrite HN.
Qed.

Lemma Building_parent_bounds root h ctx :
  Building root h ctx →
  root ≤ parent ctx ∧ parent ctx ≤ insertionPoint ctx ∧
  insertionPoint ctx < length (doc h).
Proof.
  intros [Hg _ Hp Hi _ _ _]. pose proof Hg as [Hr Hf _ _].
  assert (root ≤ parent ctx) by (eapply Spine_le; eauto).
  assert (parent ctx ≤ insertionPoint ctx) by (eapply Spine_le; eauto).
  split_and!; try done.
  eapply Spine_lt; [exact Hf|done| |exact Hi].
  exact (Spine_lt root _ _ root (parent ctx) Hf (le_n _) Hr Hp).
Qed.

(** A step that leaves the children of the nodes below the insertion point
    alone keeps the builder's state, given that the tree is still grown. *)
Lemma Building_transfer root h h' ctx :
  Building root h ctx →
  Grown root h' (Z.to_nat (populateCnt ctx - 1)) →
  length (pages h') = length (pages h) →
  (∀ y, y < insertionPoint ctx →
        Dom.childrenOf (doc h') y = Dom.childrenOf (doc h) y) →
  Building root h' ctx.
Proof.
  intros HB Hg' Hpl Hch.
  destruct (Building_parent_bounds _ _ _ HB) as (Hrp & Hpi & Hil).
  destruct HB as [Hg Hc Hp Hi Hl Hh Hb]. pose proof Hg as [Hr Hf _ _].
  split; try done.
  - by rewrite Hpl.
  - eapply Spine_frame; eauto. intros y Hy. apply Hch. lia.
  - eapply Spine_frame; [exact Hf|done| |exact Hi]. done.
  - by rewrite Hpl.
Qed.

Lemma newOutlineDiv_building titles root h ctx t :
  Building root h ctx → t ∈ titles →
  ∃ h1, newOutlineDiv t h = Ok (length (doc h)) h1 ∧
    Building root h1 ctx ∧ Step h h1 ∧ FreshTagged titles h h1 ∧
    length (doc h1) = S (length (doc h)) ∧
    (∀ y, Dom.childrenOf (doc h1) y = Dom.childrenOf (doc h) y) ∧
    Dom.parentOf (doc h1) (length (doc h)) = None ∧
    attributesOf (doc h1) (length (doc h)) = Some (outlineAttributes t) ∧
    Dom.documentOrder (doc h1) root = Dom.documentOrder (doc h) root.
Proof.
  intros HB Ht. eexists. split; [apply newOutlineDiv_eq|].
  set (h1 := with_doc _ h).
  assert (Hd : doc h1 = doc h ++ [outlineDivElem t]) by done.
  assert (Hp : pages h1 = pages h) by done.
  assert (Hl : patchLog h1 = patchLog h) by done.
  clearbody h1.
  assert (Hlen : length (doc h1) = S (length (doc h))).
  { rewrite Hd, length_app. simpl. lia. }
  assert (Hch : ∀ y, Dom.childrenOf (doc h1) y = Dom.childrenOf (doc h) y).
  { intros y. rewrite Hd, childrenOf_snoc. case_decide; [|done].
    subst. by rewrite childrenOf_ge. }
  assert (Hat : ∀ y, y < length (doc h) → attributesOf (doc h1) y = attributesOf (doc h) y).
  { intros y Hy. rewrite Hd, attributesOf_snoc. by rewrite decide_False by lia. }
  assert (Hnew : attributesOf (doc h1) (length (doc h)) = Some (outlineAttributes t)).
  { rewrite Hd, attributesOf_snoc. by rewrite decide_True. }
  pose proof (building_grown _ _ _ HB) as Hg. pose proof Hg as [Hr Hf _ _].
  destruct (Grown_transfer root h h1 _ Hg) as [Hg1 Hord]; try done.
  { lia. }
  { intros x c Hx Hc. rewrite Hch in Hc. destruct (Hf x c Hx Hc). lia. }
  { intros y Hy. apply Hat. eapply documentOrder_lt; eauto. }
  { by rewrite Hp. }
  split_and!; try done.
  - eapply Building_transfer; eauto. by rewrite Hp.
  - split; try done; [lia|by rewrite Hp].
  - intros y Hy. left. exists t. split; [done|].
    replace y with (length (doc h)) by lia. done.
  - rewrite Hd, parentOf_snoc. by rewrite decide_True.
Qed.

Lemma spliceCanvas_building titles root h ctx until :
  let cnt' := Z.max (Z.min until (Z.of_nat (length (pages h)) + 1)) (populateCnt ctx) in
  let ctx1 := with_populateCnt cnt' ctx in
  Building root h ctx →
  ∃ h' k, GenContext.spliceCanvas ctx (insertionPoint ctx) until h = Ok ctx1 h' ∧
    Building root h' ctx1 ∧ Step h h' ∧ FreshTagged titles h h' ∧
    length (doc h') = length (doc h) + k ∧
    (∀ y, y ≠ insertionPoint ctx →
          Dom.childrenOf (doc h') y = Dom.childrenOf (doc h) y) ∧
    Dom.documentOrder (doc h') root =
      Dom.documentOrder (doc h) root ++ seq (length (doc h)) k ∧
    (∀ y, y < length (doc h) → Dom.parentOf (doc h') y = Dom.parentOf (doc h) y).
Proof.
  intros cnt' ctx1 HB.
  destruct (Building_parent_bounds _ _ _ HB) as (Hrp & Hpi & Hil).
  pose proof HB as [Hg Hc Hp Hi Hl Hh Hb]. pose proof Hg as [Hr Hf _ _].
  destruct (spliceCanvas_grown titles root h ctx (insertionPoint ctx) until Hg Hc)
    as (h' & k & Hrun & Hg' & Hs & Ht & Hlen & Hch & Hq & Hord & Hpa).
  { eapply Spine_trans; eauto. }
  exists h', k. split_and!; try done.
  pose proof (Step_pages_length _ _ Hs) as Hpl.
  split; simpl; fold cnt'.
  - done.
  - rewrite Hpl. lia.
  - eapply Spine_frame; eauto. intros y Hy. apply Hch. lia.
  - eapply Spine_frame; [exact Hf|done| |exact Hi]. intros y Hy. apply Hch. lia.
  - apply last_snoc.
  - eapply NonDecreasing_snoc; eauto. lia.
  - rewrite Hpl. apply Forall_app. split; [done|].
    constructor; [lia|constructor].
Qed.

Lemma childrenOf_alter_same f d q x :
  (∀ e, Dom.children (f e) = Dom.children e) →
  Dom.childrenOf (alter f q d) x = Dom.childrenOf d x.
Proof.
  intros Hf. rewrite childrenOf_alter. case_decide; [subst|done].
  unfold Dom.childrenOf. destruct (d !! x); [apply Hf|done].
Qed.

Lemma parentOf_alter_same f d q x :
  (∀ e, Dom.parentNode (f e) = Dom.parentNode e) →
  Dom.parentOf (alter f q d) x = Dom.parentOf d x.
Proof.
  intros Hf. rewrite parentOf_alter. case_decide; [subst|done].
  unfold Dom.parentOf. destruct (d !! x); [apply Hf|done].
Qed.

Lemma not_placeholder_outline d x t :
  attributesOf d x = Some (outlineAttributes t) → ¬ isPlaceholder d x.
Proof.
  unfold isPlaceholder. rewrite getAttribute_attributesOf. intros ->.
  simpl. intros [? ?]. done.
Qed.

Lemma not_placeholder_title d x t :
  attributesOf d x = Some (titleAttributes t) → ¬ isPlaceholder d x.
Proof.
  unfold isPlaceholder. rewrite getAttribute_attributesOf. intros ->.
  simpl. intros [? ?]. done.
Qed.

(** The title goes under the detached outline node, and the outline node
    under the current parent, at the end of the document order. *)
Lemma attach_building titles root h ctx t level N :
  Building root h ctx →
  parent ctx < N → N < length (doc h) →
  Dom.childrenOf (doc h) N = [] →
  Dom.parentOf (doc h) N = None →
  attributesOf (doc h) N = Some (outlineAttributes t) →
  N ∉ Dom.documentOrder (doc h) root →
  t ∈ titles →
  ∃ h3 h4,
    newTitleSpan t level N h = Ok (length (doc h)) h3 ∧
    GenElem.push (parent ctx) N h3 = Ok tt h4 ∧
    Building root h4
      (with_insertionPoint N (with_parent N (with_lastVisit (Some N) ctx))) ∧
    Spine (Dom.childrenOf (doc h4)) root (parent ctx) ∧
    Spine (Dom.childrenOf (doc h4)) (parent ctx) N ∧
    Step h h4 ∧ FreshTagged titles h h4 ∧
    length (doc h4) = S (length (doc h)) ∧
    (∀ y, y < parent ctx → Dom.childrenOf (doc h4) y = Dom.childrenOf (doc h) y) ∧
    Dom.documentOrder (doc h4) root =
      Dom.documentOrder (doc h) root ++ [N; length (doc h)].
Proof.
  intros HB HqN HN HchN HpaN HatN HNout Ht.
  destruct (Building_parent_bounds _ _ _ HB) as (Hrp & Hpi & Hil).
  pose proof HB as [Hg Hcnt Hp Hi Hl Hh Hb]. pose proof Hg as [Hr Hf Hnd Hst].
  set (q := parent ctx) in *. set (s := length (doc h)).
  (* the title span under the outline node *)
  set (h3 := with_doc (λ d, alter (Dom.with_children (λ l, l ++ [length d])) N d
                              ++ [titleSpanElem t level N]) h).
  set (h4 := with_doc (λ d, alter (Dom.with_children (λ l, l ++ [N])) q
                              (alter (Dom.with_parentNode (Some q)) N d)) h3).
  assert (Hrun3 : newTitleSpan t level N h = Ok s h3) by (by apply newTitleSpan_eq).
  assert (Hrun4 : Dom.parentOf (doc h3) N = None → GenElem.push q N h3 = Ok tt h4)
    by (apply push_eq).
  assert (Hd3 : doc h3 = alter (Dom.with_children (λ l, l ++ [s])) N (doc h)
                           ++ [titleSpanElem t level N]) by done.
  assert (Hp3 : pages h3 = pages h) by done.
  assert (Hl3 : patchLog h3 = patchLog h) by done.
  assert (Hd4 : doc h4 = alter (Dom.with_children (λ l, l ++ [N])) q
                           (alter (Dom.with_parentNode (Some q)) N (doc h3))) by done.
  assert (Hp4 : pages h4 = pages h) by done.
  assert (Hl4 : patchLog h4 = patchLog h) by done.
  clearbody h4. clearbody h3.
  exists h3, h4. split; [done|].
  assert (Hlen3 : length (doc h3) = S s).
  { rewrite Hd3, length_app, length_alter. simpl. unfold s. lia. }
  assert (Hch3 : ∀ y, y ≠ N → Dom.childrenOf (doc h3) y = Dom.childrenOf (doc h) y).
  { intros y Hy. rewrite Hd3, childrenOf_snoc, length_alter.
    rewrite childrenOf_alter_children by done.
    case_decide; [subst; by rewrite childrenOf_ge|]. by rewrite decide_False. }
  assert (Hch3N : Dom.childrenOf (doc h3) N = [s]).
  { rewrite Hd3, childrenOf_snoc, length_alter.
    rewrite childrenOf_alter_children by done.
    rewrite decide_False by lia. rewrite decide_True by done. by rewrite HchN. }
  assert (Hat3 : ∀ y, y < s → attributesOf (doc h3) y = attributesOf (doc h) y).
  { intros y Hy. rewrite Hd3, attributesOf_snoc, length_alter.
    rewrite decide_False by (unfold s in Hy; lia). by apply attributesOf_alter. }
  assert (Hat3s : attributesOf (doc h3) s = Some (titleAttributes t)).
  { rewrite Hd3, attributesOf_snoc, length_alter. by rewrite decide_True. }
  assert (Hpa3N : Dom.parentOf (doc h3) N = None).
  { rewrite Hd3, parentOf_snoc, length_alter. rewrite decide_False by lia.
    rewrite parentOf_alter_same by done. done. }
  assert (Hf3 : Forward root (Dom.childrenOf (doc h3)) (length (doc h3))).
  { intros x c Hx Hc. rewrite Hlen3. destruct (decide (x = N)) as [->|HxN].
    - rewrite Hch3N in Hc. apply list_elem_of_singleton in Hc as ->. unfold s. lia.
    - rewrite Hch3 in Hc by done. destruct (Hf x c Hx Hc). unfold s. lia. }
  destruct (Grown_transfer root h h3 _ Hg) as [Hg3 Hord3]; try done.
  { lia. }
  { intros y Hy. apply Hch3. intros ->. done. }
  { intros y Hy. apply Hat3. eapply documentOrder_lt; eauto. }
  { by rewrite Hp3. }
  (* the outline node under the parent *)
  split; [by apply Hrun4|].
  assert (Hlen4 : length (doc h4) = S s).
  { by rewrite Hd4, !length_alter. }
  assert (Hch4 : ∀ y, y ≠ q → Dom.childrenOf (doc h4) y = Dom.childrenOf (doc h3) y).
  { intros y Hy. rewrite Hd4. rewrite childrenOf_alter_children
      by (rewrite length_alter; lia).
    rewrite decide_False by done. by rewrite childrenOf_alter_same. }
  assert (Hch4q : Dom.childrenOf (doc h4) q = Dom.childrenOf (doc h3) q ++ [N]).
  { rewrite Hd4. rewrite childrenOf_alter_children by (rewrite length_alter; lia).
    rewrite decide_True by done. by rewrite childrenOf_alter_same. }
  assert (Hat4 : ∀ y, attributesOf (doc h4) y = attributesOf (doc h3) y).
  { intros y. rewrite Hd4. by rewrite !attributesOf_alter. }
  assert (Hf4 : Forward root (Dom.childrenOf (doc h4)) (length (doc h4))).
  { intros x c Hx Hc. rewrite Hlen4. rewrite Hlen3 in Hf3.
    destruct (decide (x = q)) as [->|Hxq].
    - rewrite Hch4q in Hc. apply elem_of_app in Hc as [Hc|Hc].
      + by apply Hf3.
      + apply list_elem_of_singleton in Hc as ->. unfold s. lia.
    - rewrite Hch4 in Hc by done. by apply Hf3. }
  assert (Hsp3 : Spine (Dom.childrenOf (doc h3)) root q).
  { eapply (Spine_frame root (Dom.childrenOf (doc h))); [exact Hf|done| |exact Hp].
    intros y Hy. apply Hch3. lia. }
  destruct (order_append root h3 h4 _ q N Hg3 Hsp3) as [Hord4 Hpl4]; try done.
  { lia. }
  assert (HordN : Dom.documentOrder (doc h4) N = [N; s]).
  { unfold Dom.documentOrder.
    erewrite (flatten_unfold root) by (eauto; lia).
    rewrite Hch4, Hch3N by lia. simpl.
    erewrite (flatten_unfold root) by (eauto; unfold s; lia).
    rewrite Hch4, Hch3 by (unfold s; lia). rewrite childrenOf_ge by done. done. }
  rewrite HordN, Hord3 in Hord4. rewrite HordN in Hpl4.
  rewrite filter_cons_False, filter_cons_False, filter_nil, app_nil_r in Hpl4.
  2:{ eapply not_placeholder_title. by rewrite Hat4. }
  2:{ eapply not_placeholder_outline. rewrite Hat4, Hat3 by done. done. }
  assert (Hg4 : Grown root h4 (Z.to_nat (populateCnt ctx - 1))).
  { split.
    - lia.
    - done.
    - rewrite Hord4. apply NoDup_app. split_and!; [done| |].
      + intros y Hy Hy'. apply elem_of_cons in Hy' as [->|Hy']; [done|].
        apply list_elem_of_singleton in Hy' as ->.
        eapply documentOrder_lt in Hy; eauto. unfold s in Hy. lia.
      + apply NoDup_cons. split; [|apply NoDup_singleton].
        intros ->%list_elem_of_singleton. lia.
    - rewrite Hpl4, Hp4. destruct Hg3 as [_ _ _ Hst3]. rewrite Hp3 in Hst3.
      eapply Forall2_impl_elem; [exact Hst3|].
      intros z p Hz [Hzp Hza]. split; [done|]. by rewrite Hat4. }
  assert (Hsp4 : Spine (Dom.childrenOf (doc h4)) root q).
  { eapply Spine_frame; [exact Hf| |..]; [done| |exact Hp].
    intros y Hy. rewrite Hch4, Hch3 by lia. done. }
  assert (Hsp4N : Spine (Dom.childrenOf (doc h4)) q N).
  { eapply Spine_last; [|apply Spine_here]. rewrite Hch4q. apply last_snoc. }
  split_and!; try done.
  - split; simpl; try done.
    + by rewrite Hp4.
    + eapply Spine_trans; eauto.
    + apply Spine_here.
    + by rewrite Hp4.
  - split; try done.
    + lia.
    + intros y Hy. rewrite Hat4. by apply Hat3.
    + by rewrite Hp4.
  - intros y Hy. right. left. exists t. split; [done|].
    replace y with s by (unfold s; lia). by rewrite Hat4.
  - intros y Hy. rewrite Hch4, Hch3 by lia. done.
Qed.

Lemma updElem_cosmetic root h ctx x f :
  (∀ e, Dom.children (f e) = Dom.children e) →
  (∀ e, Dom.attributes (f e) = Dom.attributes e) →
  Building root h ctx →
  ∃ h', updElem x f h = Ok tt h' ∧
    Building root h' ctx ∧ Step h h' ∧
    length (doc h') = length (doc h) ∧
    (∀ y, Dom.childrenOf (doc h') y = Dom.childrenOf (doc h) y) ∧
    Dom.documentOrder (doc h') root = Dom.documentOrder (doc h) root.
Proof.
  intros Hfc Hfa HB. eexists. split; [reflexivity|].
  set (h' := with_doc _ h).
  assert (Hd : doc h' = alter f x (doc h)) by done.
  assert (Hp : pages h' = pages h) by done.
  assert (Hl : patchLog h' = patchLog h) by done.
  clearbody h'.
  assert (Hlen : length (doc h') = length (doc h)) by (by rewrite Hd, length_alter).
  assert (Hch : ∀ y, Dom.childrenOf (doc h') y = Dom.childrenOf (doc h) y).
  { intros y. rewrite Hd. by apply childrenOf_alter_same. }
  assert (Hat : ∀ y, attributesOf (doc h') y = attributesOf (doc h) y).
  { intros y. rewrite Hd. by apply attributesOf_alter. }
  pose proof (building_grown _ _ _ HB) as Hg. pose proof Hg as [Hr Hf _ _].
  destruct (Grown_transfer root h h' _ Hg) as [Hg' Hord]; try done.
  { lia. }
  { rewrite Hlen. intros a c Ha Hc. rewrite Hch in Hc. by apply Hf. }
  { by rewrite Hp. }
  split_and!; try done.
  - eapply Building_transfer; eauto. by rewrite Hp.
  - split; try done; [lia|by rewrite Hp].
Qed.

Lemma makeClickable_building root h ctx b s :
  Building root h ctx →
  ∃ h', makeClickable b s h = Ok tt h' ∧
    Building root h' ctx ∧ Step h h' ∧
    length (doc h') = length (doc h) ∧
    (∀ y, Dom.childrenOf (doc h') y = Dom.childrenOf (doc h) y) ∧
    Dom.documentOrder (doc h') root = Dom.documentOrder (doc h) root.
Proof.
  intros HB. destruct b; simpl.
  - destruct (updElem_cosmetic root h ctx s
                (Dom.with_style (Dom.assoc_set "text-decoration" "underline")))
      as (h1 & R1 & B1 & S1 & L1 & C1 & O1); try done.
    destruct (updElem_cosmetic root h1 ctx s
                (Dom.with_style (Dom.assoc_set "cursor" "pointer")))
      as (h2 & R2 & B2 & S2 & L2 & C2 & O2); try done.
    destruct (updElem_cosmetic root h2 ctx s
                (Dom.with_listeners (λ l, l ++ [("click", ToggleCollapsedOnParent)])))
      as (h3 & R3 & B3 & S3 & L3 & C3 & O3); try done.
    exists h3. unfold bind. rewrite R1, R2, R3. split_and!; try done.
    + eauto using Step_trans.
    + lia.
    + intros y. by rewrite C3, C2, C1.
    + by rewrite O3, O2, O1.
  - exists h. split_and!; try done; apply Step_refl.
Qed.

Lemma Attached_refl root h h' :
  length (doc h') = length (doc h) →
  Dom.documentOrder (doc h') root = Dom.documentOrder (doc h) root →
  Attached root h h'.
Proof. intros Hl Ho. split; intros y Hy; [by rewrite Ho|lia]. Qed.

Lemma Attached_trans root h1 h2 h3 :
  length (doc h1) ≤ length (doc h2) →
  Attached root h1 h2 → Attached root h2 h3 → Attached root h1 h3.
Proof.
  intros Hl [K1 N1] [K2 N2]. split; intros y Hy.
  - auto.
  - destruct (decide (y < length (doc h2))).
    + apply K2, N1. lia.
    + apply N2. lia.
Qed.

(** The loops over items, given what [generate] does on each of them. *)
Lemma generateEach_building titles root level items :
  Forall (GenerateSpec titles root) items →
  ∀ ctx h, Building root h ctx → LastOk h ctx →
  ∃ ctx' h',
    GenContext.generateEach items level ctx h = Ok ctx' h' ∧
    Building root h' ctx' ∧ parent ctx' = parent ctx ∧ LastOk h' ctx' ∧
    (is_Some (lastVisit ctx) → is_Some (lastVisit ctx')) ∧
    Step h h' ∧ FreshTagged titles h h' ∧ Attached root h h' ∧
    (∀ y, y < parent ctx → Dom.childrenOf (doc h') y = Dom.childrenOf (doc h) y).
Proof.
  induction 1 as [|item items Hitem _ IH]; intros ctx h HB HL.
  - exists ctx, h. split_and!; try done; try apply Step_refl;
      [by apply FreshTagged_refl|by apply Attached_refl].
  - destruct (Hitem level ctx h HB)
      as (N & ctx1 & h1 & R1 & B1 & P1 & (v & V1 & SV1) & S1 & T1 & A1 & C1).
    destruct (IH (with_insertionPoint N ctx1) h1 B1)
      as (ctx2 & h2 & R2 & B2 & P2 & L2 & V2 & S2 & T2 & A2 & C2).
    { intros v' Hv'. simpl in *. congruence. }
    exists ctx2, h2. simpl. unfold bind. rewrite R1. simpl. rewrite R2.
    split_and!; try done.
    + simpl in P2. congruence.
    + intros _. apply V2. simpl. rewrite V1. by eexists.
    + eauto using Step_trans.
    + eauto using FreshTagged_trans.
    + exact (Attached_trans root h h1 h2 (step_length _ _ S1) A1 A2).
    + intros y Hy. simpl in C2. rewrite C2, C1 by lia. done.
Qed.

Lemma OutlineItemData_forall_ind (P : OutlineItemData → Prop) :
  (∀ t pos chs, Forall P chs → P (mkOutlineItemData t pos chs)) →
  ∀ item, P item.
Proof.
  intros H. fix IH 1. intros [t pos chs]. apply H.
  induction chs as [|ch chs IHchs]; constructor; [apply IH|exact IHchs].
Qed.

Lemma generate_building titles root item :
  titlesOf item ⊆ titles → GenerateSpec titles root item.
Proof.
  induction item as [t pos chs IH] using OutlineItemData_forall_ind.
  intros Hsub level ctx h HB.
  set (item := mkOutlineItemData t pos chs) in *.
  assert (Ht : t ∈ titles) by (apply Hsub; simpl; left).
  assert (Hchs : Forall (GenerateSpec titles root) chs).
  { apply Forall_forall. intros c Hc.
    rewrite Forall_forall in IH. apply IH; [done|].
    intros u Hu. apply Hsub. simpl. right.
    apply elem_of_flat_map. eauto. }
  destruct (Building_parent_bounds _ _ _ HB) as (Hrp & Hpi & Hil).
  set (N := length (doc h)).
  (* the outline container *)
  destruct (newOutlineDiv_building titles root h ctx t HB Ht)
    as (h1 & R1 & B1 & S1 & T1 & L1 & C1 & PN & AN & O1).
  (* stubs before this node *)
  destruct (spliceCanvas_building titles root h1 ctx (GenContext.posOf item) B1)
    as (h2 & k & R2 & B2 & S2 & T2 & L2 & C2 & O2 & P2).
  set (ctx1 := with_populateCnt _ ctx) in *.
  (* title and attachment *)
  destruct (attach_building titles root h2 ctx1 t level N B2)
    as (h3 & h4 & R3 & R4 & B4 & Sq & SqN & S4 & T4 & L4 & C4 & O4); try done.
  { simpl. unfold N. lia. }
  { unfold N. lia. }
  { rewrite C2 by (unfold N; lia). rewrite C1. by apply childrenOf_ge. }
  { rewrite P2 by lia. done. }
  { rewrite (step_attrs _ _ S2) by lia. done. }
  { rewrite O2, O1. intros [Hin|Hin]%elem_of_app.
    - eapply documentOrder_lt in Hin; [|exact (building_grown _ _ _ HB)]. unfold N in Hin. lia.
    - apply elem_of_seq in Hin. unfold N in Hin. lia. }
  (* the children *)
  set (ctx5 := with_insertionPoint N (with_parent N (with_lastVisit (Some N) ctx1))) in *.
  destruct (generateEach_building titles root (level + 1)%Z chs Hchs ctx5 h4 B4)
    as (ctx6 & h5 & R5 & B5 & P5 & LO5 & V5 & S5 & T5 & A5 & C5).
  { intros v [= <-]. apply Spine_here. }
  (* the title made clickable *)
  destruct (makeClickable_building root h5 ctx6
              (bool_decide (Z.max 0 (GenContext.posOf item - populateCnt ctx)
                            + Z.of_nat (length (children item)) > 0)%Z)
              (length (doc h2)) B5)
    as (h6 & R6 & B6 & S6 & L6 & C6 & O6).
  exists N, (with_parent (parent ctx1) (with_insertionPoint (insertionPoint ctx1) ctx6)), h6.
  assert (HS : Step h h6) by eauto 10 using Step_trans.
  assert (Hf4 : Forward root (Dom.childrenOf (doc h4)) (length (doc h4))).
  { apply (grown_forward _ _ _ (building_grown _ _ _ B4)). }
  assert (Hch64 : ∀ y, y < N → Dom.childrenOf (doc h6) y = Dom.childrenOf (doc h4) y).
  { intros y Hy. rewrite C6. apply C5. simpl. done. }
  split_and!.
  - clear -R1 R2 R3 R4 R5 R6. subst ctx5 ctx1 N.
    rewrite generate_run. unfold bind.
    change (title item) with t. change (children item) with chs. rewrite R1.
    cbv zeta. rewrite R2, R3, R4.
    change (children item) with chs in R6.
    rewrite eachChild_generateEach. rewrite R5, R6. reflexivity.
  - destruct B6 as [G6 N6 _ I6 A6 H6 D6]. split; simpl; try done.
    + eapply (Spine_frame root (Dom.childrenOf (doc h4))); [exact Hf4|lia| |exact Sq].
      intros y Hy. apply Hch64. simpl in Hy. unfold N. lia.
    + eapply (Spine_frame root (Dom.childrenOf (doc h4))); [exact Hf4|done| |exact SqN].
      intros y Hy. by apply Hch64.
  - done.
  - destruct V5 as [v Hv]; [by eexists|]. exists v. split; [done|].
    eapply (Spine_frame root (Dom.childrenOf (doc h5)));
      [apply (grown_forward _ _ _ (building_grown _ _ _ B5))| | |].
    + unfold N. lia.
    + intros y Hy. apply C6.
    + eapply Spine_trans; [|by apply LO5].
      pose proof (building_point _ _ _ B5) as HH. rewrite P5 in HH. exact HH.
  - done.
  - assert (T12 : FreshTagged titles h h2) by eauto using FreshTagged_trans.
    assert (T14 : FreshTagged titles h h4) by eauto using FreshTagged_trans, Step_trans.
    assert (T15 : FreshTagged titles h h5)
      by (eapply FreshTagged_trans; [| |exact T14|]; eauto 10 using Step_trans).
    eapply FreshTagged_trans; [| |exact T15|]; eauto 10 using Step_trans.
    by apply FreshTagged_refl.
  - destruct A5 as [K5 N5]. rewrite O2, O1 in O4.
    split; intros y Hy; rewrite O6.
    + apply K5. rewrite O4. apply elem_of_app. left. apply elem_of_app. by left.
    + destruct (decide (y < length (doc h4))) as [Hy4|Hy4]; [|apply N5; lia].
      apply K5. rewrite O4, L4, L2, L1 in *. fold N in Hy4 |- *.
      destruct (decide (y = N)) as [->|HyN].
      { apply elem_of_app. right. left. }
      destruct (decide (y = S N + k)) as [->|Hys].
      { apply elem_of_app. right. right. left. }
      apply elem_of_app. left. apply elem_of_app. right.
      apply elem_of_seq. unfold N in *. lia.
  - intros y Hy. rewrite Hch64 by (unfold N; lia).
    rewrite C4 by done. rewrite C2 by lia. apply C1.
Qed.

End GenerateFacts.

Section EntryFacts.

Local Open Scope nat_scope.

Lemma GenContext_new_building h :
  ∃ h0, GenContext.new h = Ok (mkGenContext 1 (length (doc h)) (length (doc h)) None [1%Z]) h0 ∧
    Building (length (doc h)) h0 (mkGenContext 1 (length (doc h)) (length (doc h)) None [1%Z]) ∧
    Step h h0 ∧ length (doc h0) = S (length (doc h)) ∧
    attributesOf (doc h0) (length (doc h)) = Some [].
Proof.
  eexists. split; [reflexivity|].
  set (h0 := with_doc _ h).
  assert (Hd : doc h0 = doc h ++ [Dom.blank "div"]) by done.
  assert (Hp : pages h0 = pages h) by done.
  assert (Hl : patchLog h0 = patchLog h) by done.
  clearbody h0.
  assert (Hlen : length (doc h0) = S (length (doc h))).
  { rewrite Hd, length_app. simpl. lia. }
  assert (Hch : ∀ y, length (doc h) ≤ y → Dom.childrenOf (doc h0) y = []).
  { intros y Hy. rewrite Hd, childrenOf_snoc. case_decide; [done|].
    by apply childrenOf_ge. }
  assert (Hat : attributesOf (doc h0) (length (doc h)) = Some []).
  { rewrite Hd, attributesOf_snoc. by rewrite decide_True. }
  split_and!; try done.
  - split; simpl.
    + split.
      * lia.
      * intros x c Hx Hc. rewrite Hch in Hc by done. by apply elem_of_nil in Hc.
      * unfold Dom.documentOrder. rewrite Hlen, flatten_S, Hch by done.
        simpl. apply NoDup_singleton.
      * unfold placeholders, Dom.documentOrder. rewrite Hlen, flatten_S, Hch by done.
        simpl. rewrite filter_cons_False, filter_nil; [constructor|].
        unfold isPlaceholder. rewrite getAttribute_attributesOf, Hat. simpl.
        by intros [? ?].
    + lia.
    + apply Spine_here.
    + apply Spine_here.
    + done.
    + intros i a b Ha Hb. destruct i; done.
    + constructor; [lia|constructor].
  - split; try done.
    + lia.
    + intros y Hy. rewrite Hd, attributesOf_snoc. by rewrite decide_False by lia.
    + by rewrite Hp.
Qed.

(** The construction pass of [patchOutlineEntry], from any heap. *)
Lemma patchOutlineEntry_generate_built (items : list OutlineItemData) (h : Heap) :
  ∃ ctx h',
    patchOutlineEntry_generate items h = Ok (length (doc h), ctx) h' ∧
    Grown (length (doc h)) h' (length (pages h')) ∧
    Step h h' ∧
    attributesOf (doc h') (length (doc h)) = Some [] ∧
    (∀ y, length (doc h) < y < length (doc h') →
          Tagged (flat_map titlesOf items) (index <$> pages h) (doc h') y) ∧
    (∀ y, length (doc h) ≤ y < length (doc h') →
          y ∈ Dom.documentOrder (doc h') (length (doc h))) ∧
    populateCnt ctx = (Z.of_nat (length (pages h)) + 1)%Z ∧
    last (populateHist ctx) = Some (populateCnt ctx) ∧
    NonDecreasing (populateHist ctx) ∧
    Forall (λ v, 1 ≤ v ≤ Z.of_nat (length (pages h)) + 1)%Z (populateHist ctx).
Proof.
  set (titles := flat_map titlesOf items).
  set (root := length (doc h)).
  destruct (GenContext_new_building h) as (h0 & R0 & B0 & S0 & L0 & A0).
  fold root in R0, B0, A0.
  set (ctx0 := mkGenContext 1 root root None [1%Z]) in *.
  assert (Hspecs : Forall (GenerateSpec titles root) items).
  { apply Forall_forall. intros item Hitem. apply generate_building.
    intros t Ht. apply elem_of_flat_map. eauto. }
  destruct (generateEach_building titles root 1%Z items Hspecs ctx0 h0 B0)
    as (ctx1 & h1 & R1 & B1 & P1 & LO1 & _ & S1 & T1 & [K1 A1] & C1).
  { intros v [=]. }
  pose proof B1 as [G1 N1 SP1 SI1 HL1 HH1 HB1].
  destruct (spliceCanvas_grown titles root h1 ctx1 (default root (lastVisit ctx1))
              (Z.of_nat (length (pages h1)) + 1)%Z G1 N1)
    as (h2 & k & R2 & G2 & S2 & T2 & L2 & _ & _ & O2 & _).
  { destruct (lastVisit ctx1) as [v|] eqn:Hv; simpl.
    - eapply Spine_trans; [exact SP1|]. eapply Spine_trans; [exact SI1|]. by apply LO1.
    - apply Spine_here. }
  pose proof (Step_pages_length _ _ S0) as PL0.
  pose proof (Step_pages_length _ _ S1) as PL1.
  pose proof (Step_pages_length _ _ S2) as PL2.
  set (cnt' := Z.max _ _) in *.
  assert (Hcnt : cnt' = (Z.of_nat (length (pages h)) + 1)%Z).
  { unfold cnt'. rewrite PL1, PL0. rewrite PL1, PL0 in N1. lia. }
  exists (with_populateCnt cnt' ctx1), h2. split_and!.
  - unfold patchOutlineEntry_generate, bind. rewrite R0. simpl.
    fold root ctx0. rewrite R1. unfold pagesLength. rewrite R2. done.
  - fold root. replace (length (pages h2)) with (Z.to_nat (cnt' - 1)); [done|].
    rewrite Hcnt, PL2, PL1, PL0. lia.
  - eauto using Step_trans.
  - rewrite (step_attrs _ _ S2), (step_attrs _ _ S1); [done|lia|].
    pose proof (step_length _ _ S1). lia.
  - intros y Hy.
    assert (FreshTagged titles h0 h2) as HT by eauto using FreshTagged_trans.
    rewrite <- (Step_indices _ _ S0). apply HT. fold root in Hy. lia.
  - intros y Hy. fold root in Hy |- *. rewrite O2.
    destruct (decide (y < length (doc h1))) as [Hy1|Hy1].
    + apply elem_of_app. left.
      destruct (decide (y = root)) as [->|Hyr].
      * apply K1. unfold Dom.documentOrder. rewrite L0, flatten_S. left.
      * apply A1. lia.
    + apply elem_of_app. right. apply elem_of_seq. lia.
  - done.
  - simpl. apply last_snoc.
  - simpl. eapply NonDecreasing_snoc; eauto. lia.
  - simpl. apply Forall_app. split.
    + by rewrite <- PL0, <- PL1.
    + constructor; [lia|constructor].
Qed.
End EntryFacts.

(** * The claims *)

(** C1. For every page registry and every outline, the construction pass of
    [patchOutlineEntry] returns; the page placeholders of the target tree,
    read in document order, are pairwise distinct elements and are, one for
    one and in registry order, the placeholders of the pages 1 to P (the
    k-th placeholder is the stub of the k-th page object and carries that
    page's index); every element the pass creates is in the target tree, so
    no placeholder is emitted elsewhere; the registry is otherwise
    unchanged; and the values taken by [populateCnt] never decrease, stay
    within 1 and P+1, and end at P+1. *)
Theorem C1_page_coverage (items : list OutlineItemData) (h : Heap) :
  ∃ next ctx h',
    patchOutlineEntry_generate items h = Ok (next, ctx) h' ∧
    Forall2 (StubFor (doc h')) (placeholders (doc h') next) (pages h') ∧
    NoDup (placeholders (doc h') next) ∧
    length (placeholders (doc h') next) = length (pages h) ∧
    (∀ y, (length (doc h) ≤ y < length (doc h'))%nat →
          y ∈ Dom.documentOrder (doc h') next) ∧
    with_stub None <$> pages h' = with_stub None <$> pages h ∧
    NonDecreasing (populateHist ctx) ∧
    Forall (λ v, 1 ≤ v ≤ Z.of_nat (length (pages h)) + 1) (populateHist ctx) ∧
    last (populateHist ctx) = Some (populateCnt ctx) ∧
    populateCnt ctx = Z.of_nat (length (pages h)) + 1.
Proof.
  destruct (patchOutlineEntry_generate_built items h)
    as (ctx & h' & Hrun & Hg & Hs & _ & _ & Hin & Hcnt & Hlast & Hnd & Hb).
  exists (length (doc h)), ctx, h'.
  destruct Hg as [_ _ Hnodup Hst]. rewrite take_ge in Hst by done.
  split_and!; try done.
  - by apply NoDup_filter.
  - rewrite (Forall2_length _ _ _ Hst). by apply Step_pages_length.
  - apply (step_pages _ _ Hs).
Qed.

(** C7, as stated, fails: with one page of index 1 and an empty outline the
    only placeholder carries the tag ["canvas:1"], not ["page:1"]. *)
Lemma C7_counterexample :
  ∃ ctx h',
    patchOutlineEntry_generate [] onePageHeap = Ok (1%nat, ctx) h' ∧
    placeholders (doc h') 1 = [2%nat] ∧
    Dom.getAttribute (doc h') 2 (Attr "data-page-number") = Some (Number_toString 1) ∧
    Dom.getAttribute (doc h') 2 Tid = Some "canvas:1" ∧
    Dom.getAttribute (doc h') 2 Tid ≠ Some ("page:" +:+ Number_toString 1).
Proof.
  eexists. eexists. split; [vm_compute; reflexivity|].
  split_and!; try (vm_compute; reflexivity).
  vm_compute. discriminate.
Qed.

(** C4, as stated, fails: in the target tree the placeholder of page 2
    comes before the entry B, not after it. *)
Lemma C4_counterexample :
  ∃ next ctx h',
    patchOutlineEntry_generate scenarioOutline scenarioHeap = Ok (next, ctx) h' ∧
    readingOrder (doc h') next ≠
      [Entry "A"; Page "1"; Entry "B"; Page "2"; Page "3"].
Proof.
  eexists. eexists. eexists. split; [vm_compute; reflexivity|].
  vm_compute. discriminate.
Qed.

Section DriverClaims.

Variable TargetView : Type.
Variable equalPatchElem : Document → nat → nat → bool.
Variable patchAttributes : Document → nat → nat → Document.
Variable interpretTargetView :
  Document → list nat → list nat → bool → TargetView * list (nat * nat).
Variable changeViewPerspective :
  Document → list nat → TargetView → list OriginViewInstruction.

Local Abbreviation reuseOrPatchOutlineElem :=
  (reuseOrPatchOutlineElem TargetView equalPatchElem patchAttributes
     interpretTargetView changeViewPerspective).
Local Abbreviation patchOutlineChildren :=
  (patchOutlineChildren TargetView equalPatchElem patchAttributes
     interpretTargetView changeViewPerspective).
Local Abbreviation patchOutlineEntry :=
  (patchOutlineEntry TargetView equalPatchElem patchAttributes
     interpretTargetView changeViewPerspective).

(** C4, as the code has it.  For the outline [A on page 1, B on page 3] and
    three pages, the target tree reads A, page 1, page 2, B, page 3 in
    document order (pages 1 and 2 inside the container of A, page 3 inside
    that of B); a first render into the empty previous root moves the two
    containers under it, in this order, so that the previous root reads the
    same sequence. *)
Theorem C4_scenario (fuel : nat) :
  ∃ next ctx h1 h2,
    patchOutlineEntry_generate scenarioOutline scenarioHeap = Ok (next, ctx) h1 ∧
    readingOrder (doc h1) next =
      [Entry "A"; Page "1"; Page "2"; Entry "B"; Page "3"] ∧
    patchOutlineEntry fuel 0%nat scenarioOutline scenarioHeap = Ok tt h2 ∧
    Dom.childrenOf (doc h2) 0 = Dom.childrenOf (doc h1) next ∧
    omap (labelOf (doc h2)) (Dom.childrenOf (doc h2) 0) = [Entry "A"; Entry "B"] ∧
    readingOrder (doc h2) 0 =
      [Entry "A"; Page "1"; Page "2"; Entry "B"; Page "3"].
Proof.
  eexists. eexists. eexists. eexists.
  split; [vm_compute; reflexivity|].
  split; [vm_compute; reflexivity|].
  split; [vm_compute; reflexivity|].
  split_and!; vm_compute; reflexivity.
Qed.

End DriverClaims.





Ltac munfold :=
  unfold bind, ret, throw, readDoc, updDoc, updElem, removeAttribute, readPage,
    writePage, pagesAt, pagesLength, with_doc, with_pages.

(** C3, as the code has it.  Removing a child that is a page node carrying
    page number [i >= 0]: when [i] is below the length of the registry, the
    page object in slot [i] of the registry array (slots count from 0) gets
    the removed node as its container and that node's first element child as
    its element, and the node is detached; when [i] is at or beyond the
    length of the registry, no page object changes and the node is detached
    without error. *)
Theorem C3_remove_page ctx prev off fr e i h :
  Dom.childAt (doc h) prev off = Some e →
  Dom.classContains (doc h) e "typst-page" = true →
  Dom.getAttribute (doc h) e (Attr "data-page-number") = Some (Number_toString i) →
  0 ≤ i →
  ∃ h',
    runOriginViewInstructionsOnOutline ctx prev [("remove", off, fr)] h = Ok tt h' ∧
    doc h' = Dom.remove e (doc h) ∧
    patchLog h' = patchLog h ∧
    pages h' =
      if decide (i < Z.of_nat (length (pages h))) then
        alter (λ pg, with_elem (Dom.firstElementChild (doc h) e) (with_container e pg))
              (Z.to_nat i) (pages h)
      else pages h.
Proof.
  intros He Hpage Hattr Hi.
  unfold runOriginViewInstructionsOnOutline, runOriginViewInstruction.
  munfold. simpl. rewrite He, Hpage, Hattr, Number_parseInt_toString. simpl.
  case_decide as Hlt.
  - rewrite bool_decide_eq_true_2 by done.
    rewrite decide_True by lia.
    destruct (lookup_lt_is_Some_2 (pages h) (Z.to_nat i)) as [pg Hpg]; [lia|].
    rewrite Hpg. simpl. rewrite list_lookup_alter_eq, Hpg. simpl.
    rewrite list_lookup_alter_eq, Hpg. simpl.
    eexists. split; [reflexivity|]. simpl. split_and!; try done.
    by rewrite list_alter_alter_eq.
  - rewrite bool_decide_eq_false_2 by done.
    eexists. split; [reflexivity|]. done.
Qed.

(** C3, as stated, fails at the top of the range it names: with one page
    and a removed page node carrying page number 1, no page object is
    rebound (the only one keeps its container, element 3), and the node is
    detached. *)
Lemma C3_counterexample :
  ∃ h',
    runOriginViewInstructionsOnOutline (mkGenContext 1 0 0 None [1]) 0
      [("remove", 0, ArgUndefined)] removalHeap = Ok tt h' ∧
    length (pages removalHeap) = 1%nat ∧
    Dom.getAttribute (doc removalHeap) 1 (Attr "data-page-number") = Some (Number_toString 1) ∧
    pages h' = pages removalHeap ∧
    container <$> pages h' = [3%nat] ∧
    Dom.childrenOf (doc h') 0 = [].
Proof.
  eexists. split; [vm_compute; reflexivity|].
  split_and!; vm_compute; reflexivity.
Qed.

Lemma C3_witness :
  Dom.childAt (doc recoveryHeap) 0 0 = Some 1%nat ∧
  Dom.classContains (doc recoveryHeap) 1 "typst-page" = true ∧
  Dom.getAttribute (doc recoveryHeap) 1 (Attr "data-page-number") = Some (Number_toString 1) ∧
  0 ≤ 1 ∧
  ∃ h',
    runOriginViewInstructionsOnOutline (mkGenContext 1 0 0 None [1]) 0
      [("remove", 0, ArgUndefined)] recoveryHeap = Ok tt h' ∧
    doc h' = Dom.remove 1 (doc recoveryHeap) ∧
    patchLog h' = patchLog recoveryHeap ∧
    pages h' =
      if decide (1 < Z.of_nat (length (pages recoveryHeap))) then
        alter (λ pg, with_elem (Dom.firstElementChild (doc recoveryHeap) 1)
                       (with_container 1 pg))
              (Z.to_nat 1) (pages recoveryHeap)
      else pages recoveryHeap.
Proof.
  split; [reflexivity|]. split; [reflexivity|]. split; [reflexivity|].
  split; [lia|].
  apply (C3_remove_page (mkGenContext 1 0 0 None [1]) 0%nat 0 ArgUndefined 1%nat 1 recoveryHeap);
    [reflexivity|reflexivity|reflexivity|lia].
Defined.

Lemma classContains_alter_attributes f d x y c :
  Dom.classContains (alter (Dom.with_attributes f) x d) y c = Dom.classContains d y c.
Proof.
  unfold Dom.classContains. rewrite list_lookup_alter.
  case_decide; [subst|done]. by destruct (d !! y).
Qed.

Lemma assoc_get_del_ne {K} `{EqDecision K} (k k' : K) (l : list (K * string)) :
  k ≠ k' → Dom.assoc_get k (Dom.assoc_del k' l) = Dom.assoc_get k l.
Proof.
  intros Hk. unfold Dom.assoc_del.
  induction l as [|[a v] l IH]; [done|].
  rewrite filter_cons. simpl. destruct (decide (a ≠ k')) as [Ha|Ha]; simpl.
  - by rewrite IH.
  - apply dec_stable in Ha. subst a. rewrite decide_False by done. done.
Qed.

Lemma getAttribute_removeAttribute_ne d x y k k' :
  k ≠ k' →
  Dom.getAttribute (alter (Dom.with_attributes (Dom.assoc_del k')) x d) y k =
    Dom.getAttribute d y k.
Proof.
  intros Hk. unfold Dom.getAttribute. rewrite list_lookup_alter.
  case_decide; [subst|done]. destruct (d !! y); simpl; [|done].
  by apply assoc_get_del_ne.
Qed.

Section ReuseClaims.

Variable TargetView : Type.
Variable equalPatchElem : Document → nat → nat → bool.
Variable patchAttributes : Document → nat → nat → Document.
Variable interpretTargetView :
  Document → list nat → list nat → bool → TargetView * list (nat * nat).
Variable changeViewPerspective :
  Document → list nat → TargetView → list OriginViewInstruction.

Local Abbreviation reuseOrPatchOutlineElem :=
  (reuseOrPatchOutlineElem TargetView equalPatchElem patchAttributes
     interpretTargetView changeViewPerspective).
Local Abbreviation patchOutlineChildren :=
  (patchOutlineChildren TargetView equalPatchElem patchAttributes
     interpretTargetView changeViewPerspective).

(** The reuse of a page node, step by step. *)
Lemma reuse_page_run fuel ctx prev next i pg h :
  Dom.classContains (doc h) prev "typst-page" = true →
  equalPatchElem (doc h) prev next = true →
  Dom.getAttribute (doc h) next (Attr "data-page-number") = Some (Number_toString i) →
  0 ≤ i →
  pages h !! Z.to_nat i = Some pg →
  reuseOrPatchOutlineElem (S fuel) ctx prev next h =
    Ok true
       (mkHeap
          (alter (Dom.with_attributes (Dom.assoc_del (PatchAttr ReuseFrom))) next (doc h))
          (<[Z.to_nat i :=
               mkCanvasPage (index pg) (width pg) (height pg) prev
                 (Dom.firstElementChild (doc h) prev)
                 (Some poisionCanvasMoved_fn) (stub pg)]> (pages h))
          (patchLog h)).
Proof.
  intros Hpage Heq Hattr Hi Hpg.
  pose proof (lookup_lt_Some _ _ _ Hpg) as Hlt.
  simpl. munfold. simpl.
  rewrite Heq, classContains_alter_attributes, Hpage. simpl.
  rewrite getAttribute_removeAttribute_ne by done.
  rewrite Hattr, Number_parseInt_toString.
  rewrite decide_True by lia.
  repeat (rewrite ?list_lookup_alter_eq, ?Hpg; simpl).
  f_equal. f_equal.
  apply list_eq. intros j. rewrite list_lookup_insert.
  rewrite !list_lookup_alter.
  destruct (decide (Z.to_nat i = j)) as [<-|Hj].
  - rewrite !decide_True by (first [done | split; [done|lia]]).
    rewrite Hpg. simpl.
    unfold Dom.firstElementChild. by rewrite childrenOf_alter_same.
  - rewrite !decide_False by (first [done | tauto]). done.
Qed.

(** The reuse of a page node against a placeholder whose page number names
    no slot of the registry. *)
Lemma reuse_page_throw fuel ctx prev next i h :
  Dom.classContains (doc h) prev "typst-page" = true →
  equalPatchElem (doc h) prev next = true →
  Dom.getAttribute (doc h) next (Attr "data-page-number") = Some (Number_toString i) →
  (if decide (0 ≤ i) then pages h !! Z.to_nat i else None) = None →
  reuseOrPatchOutlineElem (S fuel) ctx prev next h =
    Throw typeError
      (with_doc (alter (Dom.with_attributes (Dom.assoc_del (PatchAttr ReuseFrom))) next) h).
Proof.
  intros Hpage Heq Hattr Hnone.
  simpl. munfold. simpl.
  rewrite Heq, classContains_alter_attributes, Hpage. simpl.
  rewrite getAttribute_removeAttribute_ne by done.
  rewrite Hattr, Number_parseInt_toString.
  case_decide as Hi; [|by rewrite decide_False by lia].
  apply lookup_ge_None in Hnone. by rewrite decide_False by lia.
Qed.

(** C2, as the code has it.  When the oracle judges a previous page node
    reusable against a placeholder carrying page number [i], the code reads
    [ctx.pages[i]]: the page number is taken as a slot of the registry
    array, counted from 0.  When there is a page object in slot [i],
    reconciliation returns [true] and rebinds that page object: its
    container becomes the previous element, its element that element's
    first element child, its inserter the poison, which throws whenever it
    is invoked and changes nothing; every other page object and every other
    field is left as it was.  When there is none ([i] is negative, or the
    length of the registry or more), the call throws a type error, having
    removed the reuse mark of the placeholder and rebound nothing. *)
Theorem C2_reuse_rebinds_page fuel ctx prev next i h :
  Dom.classContains (doc h) prev "typst-page" = true →
  equalPatchElem (doc h) prev next = true →
  Dom.getAttribute (doc h) next (Attr "data-page-number") = Some (Number_toString i) →
  match (if decide (0 ≤ i) then pages h !! Z.to_nat i else None) with
  | Some pg =>
      ∃ h' pg',
        reuseOrPatchOutlineElem (S fuel) ctx prev next h = Ok true h' ∧
        pages h' = <[Z.to_nat i := pg']> (pages h) ∧
        container pg' = prev ∧
        elem pg' = Dom.firstElementChild (doc h') prev ∧
        inserter pg' = Some poisionCanvasMoved_fn ∧
        (index pg', width pg', height pg', stub pg') =
          (index pg, width pg, height pg, stub pg) ∧
        ∀ t h'', callInserter poisionCanvasMoved_fn t h'' =
                   Throw "never called moved canvas" h''
  | None =>
      reuseOrPatchOutlineElem (S fuel) ctx prev next h =
        Throw typeError
          (with_doc (alter (Dom.with_attributes (Dom.assoc_del (PatchAttr ReuseFrom))) next)
             h)
  end.
Proof.
  intros Hpage Heq Hattr.
  destruct (if decide (0 ≤ i) then pages h !! Z.to_nat i else None) as [pg|] eqn:Hslot.
  - case_decide as Hi; [|done].
    eexists. eexists.
    split; [exact (reuse_page_run fuel ctx prev next i pg h Hpage Heq Hattr Hi Hslot)|].
    simpl. split_and!; try done.
    unfold Dom.firstElementChild. by rewrite childrenOf_alter_same.
  - exact (reuse_page_throw fuel ctx prev next i h Hpage Heq Hattr Hslot).
Qed.

End ReuseClaims.

Lemma C2_witness :
  Dom.classContains (doc reuseHeap) 0 "typst-page" = true ∧
  alwaysEqual (doc reuseHeap) 0 2 = true ∧
  Dom.getAttribute (doc reuseHeap) 2 (Attr "data-page-number") = Some (Number_toString 0) ∧
  match (if decide (0 ≤ 0) then pages reuseHeap !! Z.to_nat 0 else None) with
  | Some pg =>
      ∃ h' pg',
        reuseOrPatchOutlineElem unit alwaysEqual patchNothing alignNothing noInstructions
          1 (mkGenContext 1 3 3 None [1]) 0 2 reuseHeap = Ok true h' ∧
        pages h' = <[Z.to_nat 0 := pg']> (pages reuseHeap) ∧
        container pg' = 0%nat ∧
        elem pg' = Dom.firstElementChild (doc h') 0 ∧
        inserter pg' = Some poisionCanvasMoved_fn ∧
        (index pg', width pg', height pg', stub pg') =
          (index pg, width pg, height pg, stub pg) ∧
        ∀ t h'', callInserter poisionCanvasMoved_fn t h'' =
                   Throw "never called moved canvas" h''
  | None =>
      reuseOrPatchOutlineElem unit alwaysEqual patchNothing alignNothing noInstructions
        1 (mkGenContext 1 3 3 None [1]) 0 2 reuseHeap =
        Throw typeError
          (with_doc (alter (Dom.with_attributes (Dom.assoc_del (PatchAttr ReuseFrom))) 2%nat)
             reuseHeap)
  end.
Proof.
  split; [reflexivity|]. split; [reflexivity|]. split; [reflexivity|].
  apply (C2_reuse_rebinds_page unit alwaysEqual patchNothing alignNothing noInstructions
           0 (mkGenContext 1 3 3 None [1]) 0%nat 2%nat 0 reuseHeap);
    reflexivity.
Defined.

(** C2, as stated, fails on a registry whose pages carry the indices 1 and
    2.  The rendered element of page 1 (element 0) is judged reusable
    against the placeholder the pass built for page 1 (element 4, carrying
    page number 1): the page object rebound is the one in slot 1, which is
    that of index 2, and the one of index 1 is left as it was, without the
    poison. *)
Lemma C2_counterexample :
  ∃ ctx ht h',
    patchOutlineEntry_generate [] twoPageHeap = Ok (3%nat, ctx) ht ∧
    Dom.classContains (doc ht) 0 "typst-page" = true ∧
    Dom.getAttribute (doc ht) 4 (Attr "data-page-number") = Some (Number_toString 1) ∧
    pages ht = [mkCanvasPage 1 595 842 0 (Some 1%nat) None (Some 4%nat);
                mkCanvasPage 2 595 842 2 None None (Some 5%nat)] ∧
    reuseOrPatchOutlineElem unit alwaysEqual patchNothing alignNothing noInstructions
      1 ctx 0 4 ht = Ok true h' ∧
    pages h' = [mkCanvasPage 1 595 842 0 (Some 1%nat) None (Some 4%nat);
                mkCanvasPage 2 595 842 0 (Some 1%nat) (Some poisionCanvasMoved_fn)
                  (Some 5%nat)].
Proof.
  eexists. eexists. eexists. split; [vm_compute; reflexivity|].
  split_and!; vm_compute; reflexivity.
Qed.

Lemma replace_child_middle (s c : nat) (l1 l2 : list nat) :
  s ∉ l1 → Dom.replace_child s c (l1 ++ s :: l2) = l1 ++ c :: l2.
Proof.
  induction l1 as [|a l1 IH]; intros Hs; simpl.
  - by rewrite decide_True.
  - apply not_elem_of_cons in Hs as [Hsa Hs].
    rewrite decide_False by done. by rewrite IH.
Qed.

(** C10. The default inserter needs the stub of its page object.  On a page
    object whose stub sits in the tree and whose container is detached and
    is not the parent of the stub nor one of the ancestors of that parent
    (the DOM refuses to put a node under itself), it puts the container in
    the place of the stub, detaches the stub, and clears the [stub] field;
    invoked again on the same page object it throws a type error on the
    cleared field and changes nothing. *)
Theorem C10_default_inserter_once k pg s p l1 l2 h :
  pages h !! k = Some pg →
  stub pg = Some s →
  Dom.parentOf (doc h) s = Some p →
  Dom.childrenOf (doc h) p = l1 ++ s :: l2 →
  s ∉ l1 →
  Dom.parentOf (doc h) (container pg) = None →
  (container pg < length (doc h))%nat →
  container pg ≠ s →
  inclusiveAncestor (doc h) (container pg) p = false →
  ∃ h1,
    callInserter replaceStubToRealCanvas_fn (Some k) h = Ok tt h1 ∧
    doc h1 = Dom.replaceWith s (container pg) (doc h) ∧
    Dom.childrenOf (doc h1) p = l1 ++ container pg :: l2 ∧
    Dom.parentOf (doc h1) (container pg) = Some p ∧
    Dom.parentOf (doc h1) s = None ∧
    pages h1 = <[k := with_stub None pg]> (pages h) ∧
    callInserter replaceStubToRealCanvas_fn (Some k) h1 = Throw typeError h1.
Proof.
  intros Hpg Hstub Hps Hch Hs Hpc Hc Hcs _.
  pose proof (lookup_lt_Some _ _ _ Hpg) as Hk.
  assert (Hp : (p < length (doc h))%nat).
  { apply lookup_lt_is_Some. unfold Dom.childrenOf in Hch.
    destruct (doc h !! p); [by eexists|]. by destruct l1. }
  assert (Hsl : (s < length (doc h))%nat).
  { apply lookup_lt_is_Some. unfold Dom.parentOf in Hps.
    destruct (doc h !! s); [by eexists|done]. }
  destruct (lookup_lt_is_Some_2 _ _ Hc) as [ec Hec].
  destruct (lookup_lt_is_Some_2 _ _ Hsl) as [es Hes].
  eexists. split.
  { simpl. unfold replaceStubToRealCanvas. munfold. rewrite Hpg. simpl.
    rewrite Hstub. simpl. rewrite Hpg. simpl. rewrite Hpg. reflexivity. }
  simpl.
  assert (Hrw : Dom.replaceWith s (container pg) (doc h) =
    alter (Dom.with_parentNode None) s
      (alter (Dom.with_children (Dom.replace_child s (container pg))) p
         (alter (Dom.with_parentNode (Some p)) (container pg) (doc h)))).
  { unfold Dom.replaceWith. rewrite Hps. rewrite decide_False by done.
    unfold Dom.detach. by rewrite Hpc. }
  split_and!.
  - done.
  - rewrite Hrw. rewrite childrenOf_alter_same by done.
    rewrite childrenOf_alter_children by (by rewrite length_alter).
    rewrite decide_True by done. rewrite childrenOf_alter_same by done.
    rewrite Hch. by apply replace_child_middle.
  - rewrite Hrw. rewrite parentOf_alter. rewrite decide_False by done.
    rewrite parentOf_alter_same by done.
    rewrite parentOf_alter. rewrite decide_True by done. by rewrite Hec.
  - rewrite Hrw. rewrite parentOf_alter. rewrite decide_True by done.
    by case_match.
  - apply list_eq. intros j. rewrite list_lookup_alter, list_lookup_insert.
    destruct (decide (k = j)) as [<-|Hj].
    + rewrite decide_True by done. by rewrite Hpg.
    + by rewrite decide_False by tauto.
  - unfold replaceStubToRealCanvas. munfold. simpl.
    rewrite list_lookup_alter_eq, Hpg. reflexivity.
Qed.

Lemma C10_witness :
  pages pendingHeap !! 0%nat =
    Some (mkCanvasPage 0 595 842 2 (Some 3%nat) (Some replaceStubToRealCanvas_fn) (Some 1%nat)) ∧
  Dom.parentOf (doc pendingHeap) 1 = Some 0%nat ∧
  Dom.childrenOf (doc pendingHeap) 0 = [] ++ 1%nat :: [] ∧
  Dom.parentOf (doc pendingHeap) 2 = None ∧
  inclusiveAncestor (doc pendingHeap) 2 0 = false ∧
  ∃ h1,
    callInserter replaceStubToRealCanvas_fn (Some 0%nat) pendingHeap = Ok tt h1 ∧
    doc h1 = Dom.replaceWith 1 2 (doc pendingHeap) ∧
    Dom.childrenOf (doc h1) 0 = [] ++ 2%nat :: [] ∧
    Dom.parentOf (doc h1) 2 = Some 0%nat ∧
    Dom.parentOf (doc h1) 1 = None ∧
    pages h1 =
      <[0%nat := mkCanvasPage 0 595 842 2 (Some 3%nat) (Some replaceStubToRealCanvas_fn) None]>
        (pages pendingHeap) ∧
    callInserter replaceStubToRealCanvas_fn (Some 0%nat) h1 = Throw typeError h1.
Proof.
  split; [reflexivity|]. split; [reflexivity|]. split; [reflexivity|].
  split; [reflexivity|]. split; [reflexivity|].
  apply (C10_default_inserter_once 0%nat
           (mkCanvasPage 0 595 842 2 (Some 3%nat) (Some replaceStubToRealCanvas_fn) (Some 1%nat))
           1%nat 0%nat [] [] pendingHeap);
    [reflexivity|reflexivity|reflexivity|reflexivity| | reflexivity | simpl; lia | simpl; lia
    |reflexivity].
  apply not_elem_of_nil.
Defined.


(** ** The log of the attribute patcher *)

Lemma GrowsLog_bind {A B} (m : M A) (k : A → M B) :
  GrowsLog m → (∀ a, GrowsLog (k a)) → GrowsLog (bind m k).
Proof.
  intros Hm Hk h. unfold bind. destruct (Hm h) as [r1 H1].
  destruct (m h) as [a h1|msg h1|h1]; simpl in *.
  - destruct (Hk a h1) as [r2 H2]. exists (r1 ++ r2).
    by rewrite H2, H1, app_assoc.
  - by exists r1.
  - by exists r1.
Qed.

Lemma GrowsLog_keep {A} (m : M A) :
  (∀ h, patchLog (heapOf (m h)) = patchLog h) → GrowsLog m.
Proof. intros Hm h. exists []. by rewrite app_nil_r. Qed.

Lemma GrowsLog_readDoc {A} (f : Document → A) : GrowsLog (readDoc f).
Proof. by apply GrowsLog_keep. Qed.

Lemma GrowsLog_updDoc f : GrowsLog (updDoc f).
Proof. by apply GrowsLog_keep. Qed.

Lemma GrowsLog_ret {A} (a : A) : GrowsLog (ret a).
Proof. by apply GrowsLog_keep. Qed.

Lemma GrowsLog_throw {A} msg : GrowsLog (@throw A msg).
Proof. by apply GrowsLog_keep. Qed.

Lemma GrowsLog_pagesAt i : GrowsLog (pagesAt i).
Proof. by apply GrowsLog_keep. Qed.

Lemma GrowsLog_pagesLength : GrowsLog pagesLength.
Proof. by apply GrowsLog_keep. Qed.

Lemma GrowsLog_readPage {A} pg (f : CanvasPage → A) : GrowsLog (readPage pg f).
Proof.
  apply GrowsLog_keep. intros h. unfold readPage.
  destruct pg as [k|]; [|done]. by destruct (pages h !! k).
Qed.

Lemma GrowsLog_writePage pg f : GrowsLog (writePage pg f).
Proof.
  apply GrowsLog_keep. intros h. unfold writePage.
  destruct pg as [k|]; [|done]. by destruct (pages h !! k).
Qed.

Create HintDb growslog.
#[local] Hint Resolve GrowsLog_readDoc GrowsLog_updDoc GrowsLog_ret GrowsLog_throw
  GrowsLog_pagesAt GrowsLog_pagesLength GrowsLog_readPage GrowsLog_writePage : growslog.

Ltac grows :=
  repeat first
    [ apply GrowsLog_bind; [|intros ?]
    | solve [auto with growslog]
    | case_match ].

Lemma GrowsLog_runOriginViewInstruction ctx prev ins :
  GrowsLog (runOriginViewInstruction ctx prev ins).
Proof.
  destruct ins as [[op off] fr]. unfold runOriginViewInstruction. grows.
Qed.

Lemma GrowsLog_runOriginViewInstructionsOnOutline ctx prev script :
  GrowsLog (runOriginViewInstructionsOnOutline ctx prev script).
Proof.
  induction script as [|ins script IH]; simpl.
  - apply GrowsLog_ret.
  - apply GrowsLog_bind; [apply GrowsLog_runOriginViewInstruction|done].
Qed.

Section PatcherClaims.

Variable TargetView : Type.
Variable equalPatchElem : Document → nat → nat → bool.
Variable patchAttributes : Document → nat → nat → Document.
Variable interpretTargetView :
  Document → list nat → list nat → bool → TargetView * list (nat * nat).
Variable changeViewPerspective :
  Document → list nat → TargetView → list OriginViewInstruction.

Local Abbreviation reuseOrPatchOutlineElem :=
  (reuseOrPatchOutlineElem TargetView equalPatchElem patchAttributes
     interpretTargetView changeViewPerspective).
Local Abbreviation patchOutlineChildren :=
  (patchOutlineChildren TargetView equalPatchElem patchAttributes
     interpretTargetView changeViewPerspective).

Lemma GrowsLog_callPatchAttributes prev next :
  GrowsLog (callPatchAttributes patchAttributes prev next).
Proof. intros h. by exists [(prev, next)]. Qed.

Lemma GrowsLog_driver fuel :
  (∀ ctx prev next, GrowsLog (reuseOrPatchOutlineElem fuel ctx prev next)) ∧
  (∀ ctx prev next, GrowsLog (patchOutlineChildren fuel ctx prev next)).
Proof.
  induction fuel as [|fuel [IHr IHc]].
  - split; intros; by apply GrowsLog_keep.
  - split; intros ctx prev next.
    + simpl. unfold removeAttribute, updElem.
      pose proof (GrowsLog_callPatchAttributes prev next).
      pose proof (IHc ctx prev next).
      grows.
    + simpl. apply GrowsLog_bind; [auto with growslog|]. intros [targetView toPatch].
      apply GrowsLog_bind.
      * induction toPatch as [|[p n] l IH]; [apply GrowsLog_ret|].
        apply GrowsLog_bind; [apply IHr|done].
      * intros _. apply GrowsLog_bind; [auto with growslog|]. intros ?.
        apply GrowsLog_runOriginViewInstructionsOnOutline.
Qed.

(** C6. For a matched pair of distinct nodes.  When the previous node is
    not a page element, the first thing the call does after removing the
    reuse mark is to hand the pair to the attribute patcher, whatever the
    verdict of the oracle: on a reuse verdict the call returns [true] with
    exactly the patched document, on the other verdict the children are
    reconciled starting from exactly the patched document, and the call
    returns [false]; the call to the patcher is the first of the calls the
    run logs.  When the previous node is a page element the patcher is not
    called and the previous node is left as it was, attributes included. *)
Theorem C6_attributes_patched fuel ctx prev next h :
  prev ≠ next →
  let r := reuseOrPatchOutlineElem (S fuel) ctx prev next h in
  if Dom.classContains (doc h) prev "typst-page" then
    doc (heapOf r) !! prev = doc h !! prev ∧ patchLog (heapOf r) = patchLog h
  else
    let patched :=
      mkHeap
        (patchAttributes
           (alter (Dom.with_attributes (Dom.assoc_del (PatchAttr ReuseFrom))) next (doc h))
           prev next)
        (pages h) (patchLog h ++ [(prev, next)]) in
    (∃ rest, patchLog (heapOf r) = patchLog h ++ (prev, next) :: rest) ∧
    r = (if equalPatchElem (doc h) prev next then Ok true patched
         else (_ <- patchOutlineChildren fuel ctx prev next;; ret false) patched).
Proof.
  intros Hne r. subst r.
  destruct (Dom.classContains (doc h) prev "typst-page") eqn:Hpage.
  - simpl. munfold. simpl. rewrite classContains_alter_attributes, Hpage. simpl.
    repeat (case_match; simpl in *; simplify_eq; try done);
      rewrite ?list_lookup_alter_ne by done; done.
  - cbv zeta.
    assert (reuseOrPatchOutlineElem (S fuel) ctx prev next h =
              (if equalPatchElem (doc h) prev next
               then Ok true
                      (mkHeap
                         (patchAttributes
                            (alter (Dom.with_attributes (Dom.assoc_del (PatchAttr ReuseFrom)))
                               next (doc h)) prev next)
                         (pages h) (patchLog h ++ [(prev, next)]))
               else (_ <- patchOutlineChildren fuel ctx prev next;; ret false)
                      (mkHeap
                         (patchAttributes
                            (alter (Dom.with_attributes (Dom.assoc_del (PatchAttr ReuseFrom)))
                               next (doc h)) prev next)
                         (pages h) (patchLog h ++ [(prev, next)])))) as Hrun.
    { simpl. munfold. simpl. rewrite classContains_alter_attributes, Hpage. simpl.
      by destruct (equalPatchElem (doc h) prev next). }
    split; [|exact Hrun]. rewrite Hrun.
    destruct (equalPatchElem (doc h) prev next) eqn:Heq; simpl.
    + by exists [].
    + destruct (proj2 (GrowsLog_driver fuel) ctx prev next
                  (mkHeap
                     (patchAttributes
                        (alter (Dom.with_attributes (Dom.assoc_del (PatchAttr ReuseFrom)))
                           next (doc h)) prev next)
                     (pages h) (patchLog h ++ [(prev, next)]))) as [rest Hrest].
      exists rest. simpl in Hrest. unfold bind, ret.
      destruct (patchOutlineChildren fuel ctx prev next _) eqn:E; simpl in *;
        rewrite Hrest, <- app_assoc; done.
Qed.

End PatcherClaims.

Lemma C6_witness :
  3%nat ≠ 2%nat ∧
  (let r := reuseOrPatchOutlineElem unit neverEqual copyAttributes alignNothing noInstructions
              2 (mkGenContext 1 3 3 None [1]) 3 2 reuseHeap in
   if Dom.classContains (doc reuseHeap) 3 "typst-page" then
     doc (heapOf r) !! 3%nat = doc reuseHeap !! 3%nat ∧
     patchLog (heapOf r) = patchLog reuseHeap
   else
     let patched :=
       mkHeap
         (copyAttributes
            (alter (Dom.with_attributes (Dom.assoc_del (PatchAttr ReuseFrom))) 2%nat
               (doc reuseHeap))
            3%nat 2%nat)
         (pages reuseHeap) (patchLog reuseHeap ++ [(3%nat, 2%nat)]) in
     (∃ rest, patchLog (heapOf r) = patchLog reuseHeap ++ (3%nat, 2%nat) :: rest) ∧
     r = (if neverEqual (doc reuseHeap) 3 2 then Ok true patched
          else (_ <- patchOutlineChildren unit neverEqual copyAttributes alignNothing
                       noInstructions 1 (mkGenContext 1 3 3 None [1]) 3 2;;
                ret false) patched)) ∧
  attributesOf
    (doc (heapOf (reuseOrPatchOutlineElem unit neverEqual copyAttributes alignNothing
                    noInstructions 2 (mkGenContext 1 3 3 None [1]) 3 2 reuseHeap))) 3
    = Some (stubAttributes 0).
Proof.
  split; [lia|]. split; [|vm_compute; reflexivity].
  apply (C6_attributes_patched unit neverEqual copyAttributes alignNothing noInstructions
           1 (mkGenContext 1 3 3 None [1]) 3%nat 2%nat reuseHeap).
  lia.
Defined.

(** * Further properties *)

(** ** Properties of the registry that every run keeps *)

Lemma Invariant_bind {A B} (I : Heap → Prop) (m : M A) (k : A → M B) :
  Invariant I m → (∀ a, Invariant I (k a)) → Invariant I (bind m k).
Proof.
  intros Hm Hk h Hh. unfold bind. specialize (Hm h Hh).
  destruct (m h) as [a h1|msg h1|h1]; simpl in *; [by apply Hk|done|done].
Qed.

Lemma Invariant_ext {A} (I : Heap → Prop) (m m' : M A) :
  (∀ h, m h = m' h) → Invariant I m' → Invariant I m.
Proof. intros He Hm h Hh. rewrite He. by apply Hm. Qed.

Section PagesInvariant.

(** A property of the registry alone. *)
Variable J : list CanvasPage → Prop.

Local Abbreviation I := (λ h : Heap, J (pages h)).

Lemma Invariant_pages_same {A} (m : M A) :
  (∀ h, pages (heapOf (m h)) = pages h) → Invariant I m.
Proof. intros Hm h Hh. simpl. by rewrite Hm. Qed.

Lemma Invariant_readDoc {A} (f : Document → A) : Invariant I (readDoc f).
Proof. by apply Invariant_pages_same. Qed.

Lemma Invariant_updDoc f : Invariant I (updDoc f).
Proof. by apply Invariant_pages_same. Qed.

Lemma Invariant_createElement tag : Invariant I (createElement tag).
Proof. by apply Invariant_pages_same. Qed.

Lemma Invariant_ret {A} (a : A) : Invariant I (ret a).
Proof. by apply Invariant_pages_same. Qed.

Lemma Invariant_throw {A} msg : Invariant I (@throw A msg).
Proof. by apply Invariant_pages_same. Qed.

Lemma Invariant_pagesAt i : Invariant I (pagesAt i).
Proof. by apply Invariant_pages_same. Qed.

Lemma Invariant_pagesLength : Invariant I pagesLength.
Proof. by apply Invariant_pages_same. Qed.

Lemma Invariant_readPage {A} pg (f : CanvasPage → A) : Invariant I (readPage pg f).
Proof.
  apply Invariant_pages_same. intros h. unfold readPage.
  destruct pg as [k|]; [|done]. by destruct (pages h !! k).
Qed.

Lemma Invariant_writePage pg f :
  (∀ k l, J l → J (alter f k l)) → Invariant I (writePage pg f).
Proof.
  intros Hf h Hh. unfold writePage.
  destruct pg as [k|]; [|done]. destruct (pages h !! k); [|done].
  simpl. by apply Hf.
Qed.

Create HintDb keeps.
#[local] Hint Resolve Invariant_readDoc Invariant_updDoc Invariant_createElement
  Invariant_ret Invariant_throw Invariant_pagesAt Invariant_pagesLength
  Invariant_readPage Invariant_writePage : keeps.

Ltac keeps :=
  repeat first
    [ apply Invariant_bind; [|intros ?]
    | solve [auto with keeps]
    | case_match ].

(** *** The builder writes [stub] only *)

Section BuilderKeeps.

Hypothesis J_stub : ∀ s k l, J l → J (alter (with_stub s) k l).

Lemma Invariant_pushCanvas this pg : Invariant I (GenElem.pushCanvas this pg).
Proof.
  unfold GenElem.pushCanvas, setAttribute, updElem.
  pose proof (J_stub (Some 0%nat)). keeps.
Qed.

Lemma Invariant_spliceLoop next n : ∀ i, Invariant I (GenContext.spliceLoop next i n).
Proof.
  induction n as [|n IH]; intros i; simpl; [apply Invariant_ret|].
  apply Invariant_bind; [apply Invariant_pagesAt|]. intros pg.
  apply Invariant_bind; [apply Invariant_pushCanvas|]. intros _. apply IH.
Qed.

Lemma Invariant_spliceCanvas this next until :
  Invariant I (GenContext.spliceCanvas this next until).
Proof.
  unfold GenContext.spliceCanvas.
  pose proof (Invariant_spliceLoop next). keeps.
Qed.

Lemma Invariant_generateEach items level :
  Forall (λ item, ∀ level this, Invariant I (GenContext.generate item level this)) items →
  ∀ this, Invariant I (GenContext.generateEach items level this).
Proof.
  induction 1 as [|item items Hitem _ IH]; intros this; simpl; [apply Invariant_ret|].
  apply Invariant_bind; [apply Hitem|]. intros r. apply IH.
Qed.

Lemma Invariant_generate item :
  ∀ level this, Invariant I (GenContext.generate item level this).
Proof.
  induction item as [t pos chs IH] using OutlineItemData_forall_ind.
  intros level this.
  eapply Invariant_ext; [apply generate_run|].
  assert (∀ this', Invariant I (eachChild (level + 1) chs this')) as Heach.
  { intros this'. eapply Invariant_ext; [apply eachChild_generateEach|].
    by apply Invariant_generateEach. }
  cbn [title children].
  apply Invariant_bind.
  { unfold newOutlineDiv, tagPatchId, classList_add, setAttribute, updElem. keeps. }
  intros N. cbv zeta.
  apply Invariant_bind; [apply Invariant_spliceCanvas|]. intros this1.
  apply Invariant_bind.
  { unfold newTitleSpan, tagPatchId, GenElem.push, classList_add, setAttribute, updElem.
    keeps. }
  intros s.
  apply Invariant_bind; [unfold GenElem.push; keeps|]. intros _.
  apply Invariant_bind; [apply Heach|]. intros this2.
  apply Invariant_bind; [|intros _; apply Invariant_ret].
  unfold makeClickable, updElem. keeps.
Qed.

Lemma Invariant_patchOutlineEntry_generate items :
  Invariant I (patchOutlineEntry_generate items).
Proof.
  unfold patchOutlineEntry_generate.
  apply Invariant_bind; [unfold GenContext.new; keeps|]. intros ctx. cbv zeta.
  apply Invariant_bind.
  { apply Invariant_generateEach, Forall_forall. intros item _. apply Invariant_generate. }
  intros ctx1.
  apply Invariant_bind; [apply Invariant_pagesLength|]. intros len.
  apply Invariant_bind; [apply Invariant_spliceCanvas|]. intros ctx2.
  apply Invariant_ret.
Qed.

End BuilderKeeps.

(** *** The driver writes [container], [elem] and the poison *)

Section DriverKeeps.

Variable TargetView : Type.
Variable equalPatchElem : Document → nat → nat → bool.
Variable patchAttributes : Document → nat → nat → Document.
Variable interpretTargetView :
  Document → list nat → list nat → bool → TargetView * list (nat * nat).
Variable changeViewPerspective :
  Document → list nat → TargetView → list OriginViewInstruction.

Hypothesis J_container : ∀ c k l, J l → J (alter (with_container c) k l).
Hypothesis J_elem : ∀ e k l, J l → J (alter (with_elem e) k l).
Hypothesis J_poison :
  ∀ k l, J l → J (alter (with_inserter (Some poisionCanvasMoved_fn)) k l).

Lemma Invariant_runOriginViewInstruction ctx prev ins :
  Invariant I (runOriginViewInstruction ctx prev ins).
Proof.
  destruct ins as [[op off] fr]. unfold runOriginViewInstruction.
  pose proof J_container. pose proof J_elem. keeps.
Qed.

Lemma Invariant_runOriginViewInstructionsOnOutline ctx prev script :
  Invariant I (runOriginViewInstructionsOnOutline ctx prev script).
Proof.
  induction script as [|ins script IH]; simpl; [apply Invariant_ret|].
  apply Invariant_bind; [apply Invariant_runOriginViewInstruction|done].
Qed.

Lemma Invariant_driver fuel :
  (∀ ctx prev next,
     Invariant I (reuseOrPatchOutlineElem TargetView equalPatchElem patchAttributes
                    interpretTargetView changeViewPerspective fuel ctx prev next)) ∧
  (∀ ctx prev next,
     Invariant I (patchOutlineChildren TargetView equalPatchElem patchAttributes
                    interpretTargetView changeViewPerspective fuel ctx prev next)).
Proof.
  induction fuel as [|fuel [IHr IHc]].
  - split; intros; by apply Invariant_pages_same.
  - split; intros ctx prev next.
    + simpl. unfold removeAttribute, updElem.
      assert (Invariant I (callPatchAttributes patchAttributes prev next))
        by by apply Invariant_pages_same.
      pose proof (IHc ctx prev next).
      pose proof J_container. pose proof J_elem. pose proof J_poison.
      keeps.
    + simpl. apply Invariant_bind; [apply Invariant_readDoc|]. intros [targetView toPatch].
      apply Invariant_bind.
      * induction toPatch as [|[p n] l IH]; [apply Invariant_ret|].
        apply Invariant_bind; [apply IHr|done].
      * intros _. apply Invariant_bind; [apply Invariant_readDoc|]. intros ?.
        apply Invariant_runOriginViewInstructionsOnOutline.
Qed.

Hypothesis J_stub : ∀ s k l, J l → J (alter (with_stub s) k l).
Hypothesis J_default : ∀ l, J l → J (map defaultInserter l).

Lemma Invariant_appendAll prev nodes : Invariant I (appendAll prev nodes).
Proof.
  induction nodes as [|n nodes IH]; simpl; [apply Invariant_ret|].
  apply Invariant_bind; [apply Invariant_updDoc|done].
Qed.

Lemma Invariant_patchOutlineEntry fuel prev items :
  Invariant I (patchOutlineEntry TargetView equalPatchElem patchAttributes
                 interpretTargetView changeViewPerspective fuel prev items).
Proof.
  unfold patchOutlineEntry.
  apply Invariant_bind; [by apply Invariant_patchOutlineEntry_generate|].
  intros [next ctx].
  apply Invariant_bind; [apply Invariant_readDoc|]. intros n.
  apply Invariant_bind.
  - destruct (decide (n = 0%nat)).
    + apply Invariant_bind; [apply Invariant_readDoc|]. intros nodes.
      apply Invariant_appendAll.
    + apply Invariant_driver.
  - intros _ h Hh. simpl. by apply J_default.
Qed.

End DriverKeeps.

End PagesInvariant.

Lemma fmap_alter_same {A B} (g : A → B) (f : A → A) (k : nat) (l : list A) :
  (∀ a, g (f a) = g a) → g <$> alter f k l = g <$> l.
Proof.
  intros Hg. apply list_eq. intros i. rewrite !list_lookup_fmap.
  destruct (decide (i = k)) as [->|Hne].
  - rewrite list_lookup_alter_eq. destruct (l !! k); simpl; [by rewrite Hg|done].
  - by rewrite list_lookup_alter_ne.
Qed.

Lemma inserterIn_alter_same k o f k' l :
  (∀ p, inserter (f p) = inserter p) →
  inserterIn k o l → inserterIn k o (alter f k' l).
Proof.
  intros Hf (p & Hp & Hi). destruct (decide (k = k')) as [->|Hne].
  - exists (f p). rewrite list_lookup_alter_eq, Hp. split; [done|]. by rewrite Hf.
  - exists p. by rewrite list_lookup_alter_ne.
Qed.

Lemma lookup_map_defaultInserter l k p :
  map defaultInserter l !! k = Some p → ∃ f, inserter p = Some f.
Proof.
  change (map defaultInserter l) with (defaultInserter <$> l).
  rewrite list_lookup_fmap. destruct (l !! k) as [q|]; [|done].
  simpl. intros [= <-]. unfold defaultInserter.
  destruct (inserter q) as [f|] eqn:Ef; [by exists f|by eexists].
Qed.

Section KeptByEntry.

Variable TargetView : Type.
Variable equalPatchElem : Document → nat → nat → bool.
Variable patchAttributes : Document → nat → nat → Document.
Variable interpretTargetView :
  Document → list nat → list nat → bool → TargetView * list (nat * nat).
Variable changeViewPerspective :
  Document → list nat → TargetView → list OriginViewInstruction.

Local Abbreviation reuseOrPatchOutlineElem :=
  (reuseOrPatchOutlineElem TargetView equalPatchElem patchAttributes
     interpretTargetView changeViewPerspective).
Local Abbreviation patchOutlineChildren :=
  (patchOutlineChildren TargetView equalPatchElem patchAttributes
     interpretTargetView changeViewPerspective).
Local Abbreviation entry :=
  (patchOutlineEntry TargetView equalPatchElem patchAttributes
     interpretTargetView changeViewPerspective).

(** X1. Whatever the collaborators answer and however the call ends
    (return, exception, exhausted fuel), [patchOutlineEntry] leaves the
    registry with the same number of page objects, each with the [index],
    [width] and [height] it had. *)
Theorem patchOutlineEntry_keeps_identity fuel prev items h :
  identityOf <$> pages (heapOf (entry fuel prev items h))
  = identityOf <$> pages h.
Proof.
  apply (Invariant_patchOutlineEntry (λ l, identityOf <$> l = identityOf <$> pages h));
    [..|done].
  - intros c k l <-. by apply fmap_alter_same.
  - intros e k l <-. by apply fmap_alter_same.
  - intros k l <-. by apply fmap_alter_same.
  - intros s k l <-. by apply fmap_alter_same.
  - intros l <-. rewrite <- list_fmap_compose. apply list_fmap_ext.
    intros i p _. simpl. unfold defaultInserter. by destruct (inserter p).
Qed.

(** X2. The reconciliation of a matched pair and of two child sequences,
    edit script included, never writes the [stub] of a page object,
    whatever the collaborators answer and however the run ends. *)
Theorem driver_keeps_stubs fuel ctx prev next h :
  stub <$> pages (heapOf (reuseOrPatchOutlineElem fuel ctx prev next h))
    = stub <$> pages h ∧
  stub <$> pages (heapOf (patchOutlineChildren fuel ctx prev next h))
    = stub <$> pages h.
Proof.
  destruct (Invariant_driver (λ l, stub <$> l = stub <$> pages h)
              TargetView equalPatchElem patchAttributes interpretTargetView
              changeViewPerspective) with (fuel := fuel) as [Hr Hc].
  - intros c k l <-. by apply fmap_alter_same.
  - intros e k l <-. by apply fmap_alter_same.
  - intros k l <-. by apply fmap_alter_same.
  - split; [by apply Hr|by apply Hc].
Qed.

(** X3. An inserter is never cleared and never replaced by anything but the
    poison: after [patchOutlineEntry], however it ends, the page object in
    a slot carries the inserter it had, or the poison, or, when it had
    none, the default inserter; and when the call returns it carries one. *)
Theorem patchOutlineEntry_inserters fuel prev items h k p :
  pages h !! k = Some p →
  let r := entry fuel prev items h in
  inserterIn k (inserter p) (pages (heapOf r)) ∧
  (∀ h', r = Ok tt h' →
         ∃ p' f, pages h' !! k = Some p' ∧ inserter p' = Some f).
Proof.
  intros Hp r.
  assert (inserterIn k (inserter p) (pages (heapOf r))) as Hin.
  { apply (Invariant_patchOutlineEntry (inserterIn k (inserter p))).
    - intros c k' l. by apply inserterIn_alter_same.
    - intros e k' l. by apply inserterIn_alter_same.
    - intros k' l (p' & Hp' & Hi). destruct (decide (k = k')) as [->|Hne].
      + exists (with_inserter (Some poisionCanvasMoved_fn) p').
        rewrite list_lookup_alter_eq, Hp'. split; [done|]. right. by left.
      + exists p'. by rewrite list_lookup_alter_ne.
    - intros s k' l. by apply inserterIn_alter_same.
    - intros l (p' & Hp' & Hi). exists (defaultInserter p').
      rewrite list_lookup_fmap, Hp'. split; [done|].
      unfold defaultInserter. destruct (inserter p') as [f|] eqn:Ef; [by rewrite Ef|].
      simpl. destruct Hi as [Hi|[Hi|[Hi _]]]; try done.
      right. right. by rewrite <- Hi.
    - exists p. split; [done|]. by left. }
  split; [done|]. intros h' Hr.
  destruct Hin as (p' & Hp' & _). rewrite Hr in Hp'. simpl in Hp'.
  exists p'. subst r. unfold patchOutlineEntry, bind in Hr.
  repeat case_match; simplify_eq.
  all: simpl in Hp'; destruct (lookup_map_defaultInserter _ _ _ Hp') as [f Hf];
    by exists f.
Qed.

End KeptByEntry.


(** ** Page elements are opaque to the driver *)

Section PageElements.

Variable TargetView : Type.
Variable equalPatchElem : Document → nat → nat → bool.
Variable patchAttributes : Document → nat → nat → Document.
Variable interpretTargetView :
  Document → list nat → list nat → bool → TargetView * list (nat * nat).
Variable changeViewPerspective :
  Document → list nat → TargetView → list OriginViewInstruction.

(** X4. The driver never enters a page element.  When the previous node
    is a page element, the result of [reuseOrPatchOutlineElem] depends
    neither on the attribute patcher nor on the alignment collaborators nor
    on the depth allowed to the recursion; and when the oracle does not
    judge it reusable the call returns [false] having done nothing but
    remove the reuse mark of the target node. *)
Theorem page_elem_not_entered fuel ctx prev next h :
  Dom.classContains (doc h) prev "typst-page" = true →
  (∀ TargetView' patchAttributes'
     (interpretTargetView' :
        Document → list nat → list nat → bool → TargetView' * list (nat * nat))
     (changeViewPerspective' :
        Document → list nat → TargetView' → list OriginViewInstruction)
     fuel',
     reuseOrPatchOutlineElem TargetView equalPatchElem patchAttributes
       interpretTargetView changeViewPerspective (S fuel) ctx prev next h =
     reuseOrPatchOutlineElem TargetView' equalPatchElem patchAttributes'
       interpretTargetView' changeViewPerspective' (S fuel') ctx prev next h) ∧
  (equalPatchElem (doc h) prev next = false →
   reuseOrPatchOutlineElem TargetView equalPatchElem patchAttributes
     interpretTargetView changeViewPerspective (S fuel) ctx prev next h =
   Ok false
      (with_doc (alter (Dom.with_attributes (Dom.assoc_del (PatchAttr ReuseFrom))) next)
         h)).
Proof.
  intros Hpage. split.
  - intros TV' pa' itv' cvp' fuel'. simpl. munfold. simpl.
    rewrite classContains_alter_attributes, Hpage. simpl.
    by destruct (equalPatchElem (doc h) prev next).
  - intros Heq. simpl. munfold. simpl.
    by rewrite Heq, classContains_alter_attributes, Hpage.
Qed.

End PageElements.

(** ** Edit scripts *)

(** X5. Running two edit scripts one after the other is running their
    concatenation: the second starts from the heap the first leaves, and
    when the first throws, the second is not run and nothing is rolled
    back. *)
Theorem script_app ctx prev s1 s2 h :
  runOriginViewInstructionsOnOutline ctx prev (s1 ++ s2) h =
    match runOriginViewInstructionsOnOutline ctx prev s1 h with
    | Ok _ h1 => runOriginViewInstructionsOnOutline ctx prev s2 h1
    | Throw msg h1 => Throw msg h1
    | OutOfFuel h1 => OutOfFuel h1
    end.
Proof.
  revert h. induction s1 as [|ins s1 IH]; intros h; [done|].
  simpl. unfold bind.
  destruct (runOriginViewInstruction ctx prev ins h) as [[] h1|msg h1|h1]; [|done..].
  apply IH.
Qed.

(** X6. An instruction that names a child or a node that is not there
    throws a [TypeError] before anything is written: the heap is as the
    instructions before it left it, and the rest of the script is not run. *)
Theorem malformed_instruction_throws ctx prev ins rest h :
  malformed (doc h) prev ins →
  runOriginViewInstructionsOnOutline ctx prev (ins :: rest) h = Throw typeError h.
Proof.
  destruct ins as [[op off] fr]. simpl.
  unfold runOriginViewInstruction, bind, readDoc, throw.
  intros [[-> Hm]|[[-> Hm]|[-> Hm]]]; simpl.
  - by rewrite Hm.
  - destruct fr as [n| |]; [by destruct (Hm n)|done..].
  - by rewrite Hm.
Qed.

Lemma childrenOf_alter_parentNode p x d y :
  Dom.childrenOf (alter (Dom.with_parentNode p) x d) y = Dom.childrenOf d y.
Proof.
  unfold Dom.childrenOf. rewrite list_lookup_alter.
  case_decide; [subst|done]. by destruct (d !! y).
Qed.

Lemma parentOf_alter_children f x d y :
  Dom.parentOf (alter (Dom.with_children f) x d) y = Dom.parentOf d y.
Proof.
  unfold Dom.parentOf. rewrite list_lookup_alter.
  case_decide; [subst|done]. by destruct (d !! y).
Qed.

Lemma childrenOf_alter_children_eq f x d :
  (x < length d)%nat →
  Dom.childrenOf (alter (Dom.with_children f) x d) x = f (Dom.childrenOf d x).
Proof.
  intros Hx. unfold Dom.childrenOf. rewrite list_lookup_alter_eq.
  destruct (lookup_lt_is_Some_2 d x Hx) as [e ->]. done.
Qed.

Lemma childrenOf_alter_children_ne f x d y :
  x ≠ y →
  Dom.childrenOf (alter (Dom.with_children f) x d) y = Dom.childrenOf d y.
Proof. intros Hne. unfold Dom.childrenOf. by rewrite list_lookup_alter_ne. Qed.

Lemma parentOf_alter_parentNode_eq p x d :
  (x < length d)%nat → Dom.parentOf (alter (Dom.with_parentNode p) x d) x = p.
Proof.
  intros Hx. unfold Dom.parentOf. rewrite list_lookup_alter_eq.
  destruct (lookup_lt_is_Some_2 d x Hx) as [e ->]. done.
Qed.

Lemma parentOf_lt d x p : Dom.parentOf d x = Some p → (x < length d)%nat.
Proof.
  unfold Dom.parentOf. destruct (d !! x) eqn:E; [|done].
  intros _. by eapply lookup_lt_Some.
Qed.

(** The children of [p] once [c] is detached. *)
Lemma childrenOf_detach c d p :
  (p < length d)%nat →
  Dom.childrenOf (Dom.detach c d) p =
    if decide (Dom.parentOf d c = Some p) then Dom.remove_child c (Dom.childrenOf d p)
    else Dom.childrenOf d p.
Proof.
  intros Hp. unfold Dom.detach. destruct (Dom.parentOf d c) as [q|] eqn:Eq.
  - rewrite childrenOf_alter_parentNode. case_decide as Hq.
    + injection Hq as ->. by rewrite childrenOf_alter_children_eq.
    + rewrite childrenOf_alter_children_ne; [done|]. by intros ->.
  - by rewrite decide_False.
Qed.

Lemma length_detach c d : length (Dom.detach c d) = length d.
Proof.
  unfold Dom.detach. destruct (Dom.parentOf d c); [|done].
  by rewrite !length_alter.
Qed.

(** The children of [p] after [p.insertBefore(c, ref)]. *)
Lemma childrenOf_insertBefore p c ref d :
  (p < length d)%nat →
  Dom.childrenOf (Dom.insertBefore p c ref d) p =
    let l := if decide (Dom.parentOf d c = Some p)
             then Dom.remove_child c (Dom.childrenOf d p) else Dom.childrenOf d p in
    match (match ref with
           | Some r => if decide (r = c) then Dom.next_sibling c (Dom.childrenOf d p)
                       else Some r
           | None => None
           end) with
    | Some r => Dom.insert_before c r l
    | None => l ++ [c]
    end.
Proof.
  intros Hp. unfold Dom.insertBefore.
  rewrite childrenOf_alter_children_eq by by rewrite length_alter, length_detach.
  rewrite childrenOf_alter_parentNode, childrenOf_detach by done.
  done.
Qed.

Lemma parentOf_insertBefore p c ref d :
  (c < length d)%nat → Dom.parentOf (Dom.insertBefore p c ref d) c = Some p.
Proof.
  intros Hc. unfold Dom.insertBefore.
  rewrite parentOf_alter_children, parentOf_alter_parentNode_eq; [done|].
  by rewrite length_detach.
Qed.

Lemma remove_child_notin c l : c ∉ l → Dom.remove_child c l = l.
Proof.
  intros Hc. unfold Dom.remove_child. induction l as [|x l IH]; [done|].
  apply not_elem_of_cons in Hc as [Hx Hl].
  rewrite filter_cons_True by done. by rewrite IH.
Qed.

Lemma insert_before_at c r l o :
  NoDup l → l !! o = Some r →
  Dom.insert_before c r l = take o l ++ c :: drop o l.
Proof.
  revert o. induction l as [|x l IH]; intros o Hnd Ho; [done|].
  apply NoDup_cons in Hnd as [Hx Hnd]. destruct o as [|o]; simpl in *.
  - injection Ho as ->. by rewrite decide_True.
  - rewrite decide_False.
    + by rewrite (IH o).
    + intros ->. apply Hx. by eapply list_elem_of_lookup_2.
Qed.

Lemma insert_before_perm c r l : Dom.insert_before c r l ≡ₚ c :: l.
Proof.
  induction l as [|x l IH]; simpl; [done|].
  case_decide; [done|]. rewrite IH. apply Permutation_swap.
Qed.

Lemma remove_child_perm c l :
  NoDup l → c ∈ l → c :: Dom.remove_child c l ≡ₚ l.
Proof.
  unfold Dom.remove_child. induction l as [|x l IH]; intros Hnd Hc.
  - by apply elem_of_nil in Hc.
  - apply NoDup_cons in Hnd as [Hx Hnd].
    destruct (decide (x = c)) as [->|Hne].
    + rewrite filter_cons_False by (intros H; by apply H).
      fold (Dom.remove_child c l). by rewrite remove_child_notin.
    + rewrite filter_cons_True by done.
      apply elem_of_cons in Hc as [->|Hc]; [done|].
      rewrite Permutation_swap. by rewrite IH.
Qed.

Lemma next_sibling_elem_of c l r : Dom.next_sibling c l = Some r → r ∈ l.
Proof.
  induction l as [|x l IH]; simpl; [done|].
  case_decide.
  - destruct l as [|y l]; simpl; [done|]. intros [= ->]. right. left.
  - intros Hr. right. by apply IH.
Qed.

(** Taking a child out and putting it back before its next sibling gives
    the list back. *)
Lemma reinsert_in_place c l :
  NoDup l → c ∈ l →
  match Dom.next_sibling c l with
  | Some r => Dom.insert_before c r (Dom.remove_child c l)
  | None => Dom.remove_child c l ++ [c]
  end = l.
Proof.
  unfold Dom.remove_child. induction l as [|x l IH]; intros Hnd Hc.
  - by apply elem_of_nil in Hc.
  - apply NoDup_cons in Hnd as [Hx Hnd]. simpl.
    destruct (decide (x = c)) as [->|Hne].
    + rewrite filter_cons_False by (intros H; by apply H).
      fold (Dom.remove_child c l). rewrite remove_child_notin by done.
      destruct l as [|y l]; simpl; [done|]. by rewrite decide_True.
    + rewrite filter_cons_True by done.
      apply elem_of_cons in Hc as [->|Hc]; [done|].
      specialize (IH Hnd Hc).
      destruct (Dom.next_sibling c l) as [r|] eqn:Er; simpl.
      * rewrite decide_False; [by rewrite IH|].
        intros ->. by apply Hx, (next_sibling_elem_of c).
      * by rewrite IH.
Qed.

Lemma remove_child_split c l o r :
  NoDup l → l !! o = Some r → r ≠ c →
  ∃ l1 l2, Dom.remove_child c l = l1 ++ r :: l2 ∧
           Dom.insert_before c r (Dom.remove_child c l) = l1 ++ c :: r :: l2.
Proof.
  intros Hnd Ho Hne.
  assert (r ∈ Dom.remove_child c l) as Hin.
  { apply list_elem_of_filter. split; [done|]. by eapply list_elem_of_lookup_2. }
  apply list_elem_of_lookup in Hin as [o' Ho'].
  assert (NoDup (Dom.remove_child c l)) as Hnd' by by apply NoDup_filter.
  exists (take o' (Dom.remove_child c l)), (drop (S o') (Dom.remove_child c l)).
  rewrite (insert_before_at c r _ o') by done.
  rewrite <- (take_drop_middle _ o' r) at 1 by done.
  split; [done|]. f_equal. f_equal. by apply drop_S.
Qed.

(** X7. [insert] puts a node that is not yet a child of [prev] (and is not
    one of its ancestors) at the offset it names among the children of
    [prev], the children from that offset on moving one place up; an offset
    at or beyond the end, or a negative one, appends it.  No page object
    is touched. *)
Theorem insert_places_node ctx prev off n l h :
  Dom.childrenOf (doc h) prev = l → NoDup l → n ∉ l →
  (prev < length (doc h))%nat → (n < length (doc h))%nat →
  Dom.parentOf (doc h) n ≠ Some prev →
  inclusiveAncestor (doc h) n prev = false →
  ∃ h',
    runOriginViewInstructionsOnOutline ctx prev [("insert", off, ArgNode n)] h = Ok tt h' ∧
    pages h' = pages h ∧ patchLog h' = patchLog h ∧
    Dom.parentOf (doc h') n = Some prev ∧
    Dom.childrenOf (doc h') prev =
      if decide (0 ≤ off) then take (Z.to_nat off) l ++ n :: drop (Z.to_nat off) l
      else l ++ [n].
Proof.
  intros Hl Hnd Hn Hprev Hlt Hpar _.
  eexists. split; [reflexivity|]. simpl. split_and!; [done..| |].
  - by apply parentOf_insertBefore.
  - rewrite childrenOf_insertBefore by done. cbv zeta.
    rewrite decide_False by done. rewrite Hl.
    unfold Dom.childAt. rewrite Hl. case_decide as Hoff; [|done].
    destruct (l !! Z.to_nat off) as [r|] eqn:Er.
    + rewrite decide_False.
      * by apply insert_before_at.
      * intros ->. apply Hn. by eapply list_elem_of_lookup_2.
    + apply lookup_ge_None in Er.
      by rewrite take_ge, drop_ge by done.
Qed.

(** X8. [swap_in] moves a child of [prev] among the children of [prev]
    and neither loses nor duplicates any of them: the children after it are
    a permutation of the children before.  The moved child lands
    immediately before the child that stood at the target offset, at the
    end when that offset is outside the children, and stays where it is
    when the two offsets are the same.  No page object is touched. *)
Theorem swap_in_permutes ctx prev off fr c l h :
  Dom.childrenOf (doc h) prev = l → NoDup l →
  Dom.childAt (doc h) prev fr = Some c →
  Dom.parentOf (doc h) c = Some prev →
  (prev < length (doc h))%nat →
  inclusiveAncestor (doc h) c prev = false →
  ∃ h',
    runOriginViewInstructionsOnOutline ctx prev [("swap_in", off, ArgNumber fr)] h
      = Ok tt h' ∧
    pages h' = pages h ∧ patchLog h' = patchLog h ∧
    Dom.parentOf (doc h') c = Some prev ∧
    Dom.childrenOf (doc h') prev ≡ₚ l ∧
    match Dom.childAt (doc h) prev off with
    | Some r =>
        if decide (r = c) then Dom.childrenOf (doc h') prev = l
        else ∃ l1 l2, Dom.remove_child c l = l1 ++ r :: l2 ∧
                      Dom.childrenOf (doc h') prev = l1 ++ c :: r :: l2
    | None => Dom.childrenOf (doc h') prev = Dom.remove_child c l ++ [c]
    end.
Proof.
  intros Hl Hnd Hc Hpar Hprev _.
  assert (c ∈ l) as Hin.
  { unfold Dom.childAt in Hc. rewrite Hl in Hc. case_decide; [|done].
    by eapply list_elem_of_lookup_2. }
  unfold runOriginViewInstructionsOnOutline, runOriginViewInstruction.
  munfold. simpl. rewrite Hc.
  eexists. split; [reflexivity|]. simpl. split_and!; [done..| | |].
  - apply parentOf_insertBefore. by eapply parentOf_lt.
  - rewrite childrenOf_insertBefore by done. cbv zeta.
    rewrite decide_True by done. rewrite Hl.
    match goal with |- match ?ref with _ => _ end ≡ₚ _ => destruct ref as [r|] end.
    + rewrite insert_before_perm. by apply remove_child_perm.
    + rewrite <- Permutation_cons_append. by apply remove_child_perm.
  - rewrite childrenOf_insertBefore by done. cbv zeta.
    rewrite decide_True by done. rewrite Hl.
    destruct (Dom.childAt (doc h) prev off) as [r|] eqn:Er; [|done].
    destruct (decide (r = c)) as [->|Hne].
    + by apply reinsert_in_place.
    + unfold Dom.childAt in Er. rewrite Hl in Er. case_decide; [|done].
      by eapply remove_child_split.
Qed.

(** X9. [remove] of a child that is not a page element detaches it and
    nothing more: it leaves the children of [prev], it has no parent any
    longer, every other child keeps its place, and no page object is
    touched. *)
Theorem remove_plain_child ctx prev off fr e l h :
  Dom.childrenOf (doc h) prev = l →
  Dom.childAt (doc h) prev off = Some e →
  Dom.classContains (doc h) e "typst-page" = false →
  Dom.parentOf (doc h) e = Some prev →
  (prev < length (doc h))%nat →
  ∃ h',
    runOriginViewInstructionsOnOutline ctx prev [("remove", off, fr)] h = Ok tt h' ∧
    pages h' = pages h ∧ patchLog h' = patchLog h ∧
    Dom.parentOf (doc h') e = None ∧
    Dom.childrenOf (doc h') prev = Dom.remove_child e l ∧
    e ∉ Dom.childrenOf (doc h') prev.
Proof.
  intros Hl He Hpage Hpar Hprev.
  unfold runOriginViewInstructionsOnOutline, runOriginViewInstruction.
  munfold. simpl. rewrite He, Hpage. simpl.
  eexists. split; [reflexivity|]. simpl.
  assert (Dom.childrenOf (Dom.remove e (doc h)) prev = Dom.remove_child e l) as Hch.
  { unfold Dom.remove. rewrite childrenOf_detach by done.
    by rewrite decide_True, Hl. }
  split_and!; [done..| |done|].
  - unfold Dom.remove, Dom.detach. rewrite Hpar.
    apply parentOf_alter_parentNode_eq. rewrite length_alter.
    by eapply parentOf_lt.
  - rewrite Hch. unfold Dom.remove_child. rewrite list_elem_of_filter.
    by intros [? _].
Qed.

(** ** The shape of the target tree *)

Section ShapeFacts.

Local Open Scope nat_scope.

Lemma with_children_nil e : Dom.with_children (λ l, l ++ []) e = e.
Proof. destruct e. unfold Dom.with_children. simpl. by rewrite app_nil_r. Qed.

Lemma with_children_app e a b :
  Dom.with_children (λ l, l ++ b) (Dom.with_children (λ l, l ++ a) e) =
    Dom.with_children (λ l, l ++ (a ++ b)) e.
Proof. destruct e. unfold Dom.with_children. simpl. by rewrite app_assoc. Qed.

Lemma Extends_refl ip par h : Extends ip par h h.
Proof. intros x e He. exists []. by rewrite with_children_nil. Qed.

Lemma Extends_trans ip par ip' par' h1 h2 h3 :
  Extends ip par h1 h2 → Extends ip' par' h2 h3 →
  (∀ x, x < length (doc h1) → x = ip' ∨ x = par' → x = ip ∨ x = par) →
  Extends ip par h1 h3.
Proof.
  intros H12 H23 Hsub x e He.
  destruct (H12 x e He) as (a & Ha & Hna).
  destruct (H23 x _ Ha) as (b & Hb & Hnb).
  exists (a ++ b). rewrite Hb, with_children_app. split; [done|].
  intros Hi Hp. rewrite Hna by done. rewrite Hnb; [done|..].
  - intros ->. destruct (Hsub ip'); [by eapply lookup_lt_Some|by left|done..].
  - intros ->. destruct (Hsub par'); [by eapply lookup_lt_Some|by right|done..].
Qed.

Lemma Extends_same ip par h h' x e :
  Extends ip par h h' → doc h !! x = Some e → x ≠ ip → x ≠ par →
  doc h' !! x = Some e.
Proof.
  intros HE He Hi Hp. destruct (HE x e He) as (more & Hm & Hn).
  rewrite Hn in Hm by done. by rewrite with_children_nil in Hm.
Qed.

Lemma getAttribute_lookup d x e k :
  d !! x = Some e → Dom.getAttribute d x k = Dom.assoc_get k (Dom.attributes e).
Proof. intros He. unfold Dom.getAttribute. by rewrite He. Qed.

Lemma Extends_getAttribute ip par h h' x k :
  Extends ip par h h' → x < length (doc h) →
  Dom.getAttribute (doc h') x k = Dom.getAttribute (doc h) x k.
Proof.
  intros HE Hx. destruct (lookup_lt_is_Some_2 _ _ Hx) as [e He].
  destruct (HE x e He) as (more & Hm & _).
  rewrite (getAttribute_lookup _ _ _ _ He), (getAttribute_lookup _ _ _ _ Hm).
  by destruct e.
Qed.

Lemma entriesOf_app d l1 l2 : entriesOf d (l1 ++ l2) = entriesOf d l1 ++ entriesOf d l2.
Proof. apply omap_app. Qed.

Lemma entriesOf_agree d d' l :
  (∀ x, x ∈ l → Dom.getAttribute d' x (Attr "data-title")
               = Dom.getAttribute d x (Attr "data-title")) →
  entriesOf d' l = entriesOf d l.
Proof.
  intros H. unfold entriesOf. induction l as [|x l IH]; [done|]. csimpl.
  rewrite H by left. rewrite IH; [done|]. intros y Hy. apply H. by right.
Qed.

Lemma entriesOf_none d l :
  (∀ x, x ∈ l → Dom.getAttribute d x (Attr "data-title") = None) →
  entriesOf d l = [].
Proof.
  intros H. unfold entriesOf. induction l as [|x l IH]; [done|]. csimpl.
  rewrite H by left. apply IH. intros y Hy. apply H. by right.
Qed.

(** Appending the nodes [cs], which had no parent, under [q] keeps children
    and parents in agreement. *)
Lemma Agree_append root d d' q cs :
  Agree root d →
  (∀ y, y ≠ q → Dom.childrenOf d' y = Dom.childrenOf d y) →
  Dom.childrenOf d' q = Dom.childrenOf d q ++ cs →
  (∀ c, c ∈ cs → Dom.parentOf d c = None ∧ Dom.parentOf d' c = Some q) →
  (∀ y, y ∉ cs → Dom.parentOf d' y = Dom.parentOf d y) →
  Agree root d'.
Proof.
  intros HA Hch Hq Hcs Hpar x c Hx Hc.
  destruct (decide (c ∈ cs)) as [Hin|Hin].
  - destruct (Hcs c Hin) as [Hnone Hsome].
    destruct (decide (x = q)) as [->|Hne]; [done|].
    rewrite Hch in Hc by done. rewrite (HA x c Hx Hc) in Hnone. done.
  - rewrite Hpar by done. apply HA; [done|].
    destruct (decide (x = q)) as [->|Hne].
    + rewrite Hq in Hc. apply elem_of_app in Hc as [Hc|Hc]; done.
    + by rewrite Hch in Hc.
Qed.

(** What the loop of [spliceCanvas] does to the document when it comes to
    its end. *)
Lemma spliceLoop_effect next k :
  ∀ i h h',
  GenContext.spliceLoop next i k h = Ok tt h' → next < length (doc h) →
  length (doc h') = length (doc h) + k ∧
  (∀ x e, doc h !! x = Some e →
          doc h' !! x =
            Some (if decide (x = next)
                  then Dom.with_children (λ l, l ++ seq (length (doc h)) k) e else e)) ∧
  (∀ y, length (doc h) ≤ y < length (doc h) + k →
        ∃ p, pages h !! (Z.to_nat (i - 1) + (y - length (doc h))) = Some p ∧
             doc h' !! y = Some (stubElem p next)).
Proof.
  induction k as [|k IH]; intros i h h' Hrun Hnext.
  - simpl in Hrun. injection Hrun as <-. split_and!; [lia| |intros y Hy; lia].
    intros x e He. case_decide; [|done]. by rewrite with_children_nil.
  - simpl in Hrun. unfold bind at 1 in Hrun. unfold pagesAt in Hrun.
    case_decide as Hi.
    2:{ unfold bind, GenElem.pushCanvas, bind, createElement, readPage in Hrun.
        simpl in Hrun. done. }
    destruct (lookup_lt_is_Some_2 (pages h) (Z.to_nat (i - 1))) as [p Hp]; [lia|].
    unfold bind in Hrun. rewrite (pushCanvas_eq next _ p h Hp Hnext) in Hrun.
    set (h1 := mkHeap _ _ _) in Hrun.
    assert (Hd1 : doc h1 = alter (Dom.with_children (λ l, l ++ [length (doc h)])) next (doc h)
                             ++ [stubElem p next]) by done.
    assert (Hp1 : pages h1 = alter (with_stub (Some (length (doc h)))) (Z.to_nat (i - 1))
                               (pages h)) by done.
    clearbody h1.
    assert (Hl1 : length (doc h1) = S (length (doc h))).
    { rewrite Hd1, length_app, length_alter. simpl. lia. }
    destruct (IH _ h1 h' Hrun) as (Hl & Hold & Hnew); [lia|].
    split_and!.
    + lia.
    + intros x e He. pose proof (lookup_lt_Some _ _ _ He) as Hx.
      assert (doc h1 !! x =
                Some (if decide (x = next)
                      then Dom.with_children (λ l, l ++ [length (doc h)]) e else e)) as H1.
      { rewrite Hd1, lookup_app_l by by rewrite length_alter.
        destruct (decide (x = next)) as [->|Hne].
        - by rewrite list_lookup_alter_eq, He.
        - by rewrite list_lookup_alter_ne. }
      rewrite (Hold _ _ H1). case_decide; [|done].
      rewrite with_children_app, Hl1. done.
    + intros y Hy. destruct (decide (y = length (doc h))) as [->|Hne].
      * exists p. rewrite Nat.sub_diag, Nat.add_0_r. split; [done|].
        rewrite (Hold _ (stubElem p next)).
        -- by rewrite decide_False by lia.
        -- rewrite Hd1, lookup_app_r by by rewrite length_alter.
           by rewrite length_alter, Nat.sub_diag.
      * destruct (Hnew y) as (p' & Hp' & Hy'); [lia|]. exists p'. split; [|done].
        rewrite Hp1, list_lookup_alter_ne in Hp' by lia.
        rewrite <- Hp'. f_equal. lia.
Qed.

Lemma spliceCanvas_effect this next until h this' h' :
  GenContext.spliceCanvas this next until h = Ok this' h' → next < length (doc h) →
  let k := spliceCount this until h in
  length (doc h') = length (doc h) + k ∧
  (∀ x e, doc h !! x = Some e →
          doc h' !! x =
            Some (if decide (x = next)
                  then Dom.with_children (λ l, l ++ seq (length (doc h)) k) e else e)) ∧
  (∀ y, length (doc h) ≤ y < length (doc h) + k →
        ∃ p, pages h !! (Z.to_nat (populateCnt this - 1) + (y - length (doc h))) = Some p ∧
             doc h' !! y = Some (stubElem p next)).
Proof.
  intros Hrun Hnext k.
  unfold GenContext.spliceCanvas, bind, pagesLength in Hrun.
  destruct (GenContext.spliceLoop next (populateCnt this) _ h) as [[] h1| |] eqn:E;
    [|done..].
  injection Hrun as _ <-. by eapply spliceLoop_effect.
Qed.

Lemma makeClickable_eq b s h :
  makeClickable b s h = Ok tt (with_doc (alter (clickable b) s) h).
Proof.
  destruct b; simpl.
  - unfold bind, updElem, updDoc, with_doc. simpl.
    by rewrite !list_alter_alter_eq.
  - unfold ret, with_doc. simpl. rewrite list_alter_id; [by destruct h|done].
Qed.

Lemma clickable_title b t level N :
  clickable b (titleSpanElem t level N) = titleElem t level N b.
Proof. by destruct b. Qed.

Lemma clickable_parentNode b e : Dom.parentNode (clickable b e) = Dom.parentNode e.
Proof. by destruct b, e. Qed.

Lemma clickable_attributes b e : Dom.attributes (clickable b e) = Dom.attributes e.
Proof. by destruct b, e. Qed.

Lemma labelsOf_app d l1 l2 : labelsOf d (l1 ++ l2) = labelsOf d l1 ++ labelsOf d l2.
Proof. apply omap_app. Qed.

Lemma labelOf_attrs d d' x :
  attributesOf d' x = attributesOf d x → labelOf d' x = labelOf d x.
Proof. intros H. unfold labelOf. by rewrite !getAttribute_attributesOf, H. Qed.

Lemma labelsOf_agree d d' l :
  (∀ x, x ∈ l → attributesOf d' x = attributesOf d x) → labelsOf d' l = labelsOf d l.
Proof.
  intros H. unfold labelsOf. induction l as [|x l IH]; [done|]. csimpl.
  rewrite (labelOf_attrs d d' x) by (apply H; left).
  rewrite IH; [done|]. intros y Hy. apply H. by right.
Qed.

Lemma Extends_attributesOf ip par h h' x :
  Extends ip par h h' → x < length (doc h) →
  attributesOf (doc h') x = attributesOf (doc h) x.
Proof.
  intros HE Hx. destruct (lookup_lt_is_Some_2 _ _ Hx) as [e He].
  destruct (HE x e He) as (more & Hm & _).
  unfold attributesOf. rewrite He, Hm. by destruct e.
Qed.

(** The labels of consecutive placeholders. *)
Lemma labelsOf_stubs d k :
  ∀ base (idx : list Z),
  (∀ j, j < k → ∃ i, idx !! j = Some i ∧
                     labelOf d (base + j) = Some (Page (Number_toString i))) →
  labelsOf d (seq base k) = (λ i, Page (Number_toString i)) <$> take k idx.
Proof.
  induction k as [|k IH]; intros base idx H; [done|].
  destruct (H 0) as (i & Hi & Hl); [lia|].
  destruct idx as [|i' idx]; [done|]. injection Hi as ->.
  rewrite Nat.add_0_r in Hl. unfold labelsOf. csimpl. rewrite Hl. simpl. f_equal.
  apply IH. intros j Hj. destruct (H (S j)) as (i' & Hi' & Hl'); [lia|].
  exists i'. split; [done|]. by replace (S base + j) with (base + S j) by lia.
Qed.

Lemma outlineLabels_run idx item cnt :
  outlineLabels idx item cnt =
    let until := Z.min (GenContext.posOf item) (Z.of_nat (length idx) + 1) in
    let r := outlineLabelsEach idx (children item) (Z.max until cnt) in
    (pageLabels idx cnt until ++ Entry (title item) :: r.1, r.2).
Proof.
  destruct item as [t pos chs]. simpl.
  set (c := Z.max _ cnt). clearbody c.
  assert (∀ c, (fix each (chs : list OutlineItemData) (cnt : Z) : list OutlineLabel * Z :=
                  match chs with
                  | [] => ([], cnt)
                  | ch :: chs' =>
                      ((outlineLabels idx ch cnt).1 ++ (each chs' (outlineLabels idx ch cnt).2).1,
                       (each chs' (outlineLabels idx ch cnt).2).2)
                  end) chs c = outlineLabelsEach idx chs c) as ->; [|done].
  induction chs as [|ch chs IH]; intros c'; [done|]. simpl. by rewrite IH.
Qed.

Lemma Keeps_refl d : Keeps d d.
Proof. intros x e He. exists e. split_and!; try done. exists []. by rewrite app_nil_r. Qed.

Lemma Keeps_trans d1 d2 d3 : Keeps d1 d2 → Keeps d2 d3 → Keeps d1 d3.
Proof.
  intros H12 H23 x e He.
  destruct (H12 x e He) as (e2 & He2 & T2 & A2 & C2 & X2 & m2 & K2).
  destruct (H23 x e2 He2) as (e3 & He3 & T3 & A3 & C3 & X3 & m3 & K3).
  exists e3. split_and!; try congruence.
  exists (m2 ++ m3). by rewrite K3, K2, app_assoc.
Qed.

Lemma Extends_keeps ip par h h' : Extends ip par h h' → Keeps (doc h) (doc h').
Proof.
  intros HE x e He. destruct (HE x e He) as (more & Hm & _).
  eexists. split; [exact Hm|]. destruct e. split_and!; try done. by exists more.
Qed.

Lemma Keeps_alter_clickable b s d : Keeps d (alter (clickable b) s d).
Proof.
  intros x e He. destruct (decide (x = s)) as [->|Hne].
  - exists (clickable b e). rewrite list_lookup_alter_eq, He.
    split; [done|]. destruct b, e; split_and!; try done; exists []; by rewrite app_nil_r.
  - exists e. rewrite list_lookup_alter_ne by done.
    split_and!; try done. exists []. by rewrite app_nil_r.
Qed.

Lemma Keeps_appended d d' next l :
  (∀ x e, d !! x = Some e →
          d' !! x = Some (if decide (x = next)
                          then Dom.with_children (λ c, c ++ l) e else e)) →
  Keeps d d'.
Proof.
  intros H x e He. eexists. split; [exact (H x e He)|].
  case_decide.
  - destruct e. split_and!; try done. by exists l.
  - split_and!; try done. exists []. by rewrite app_nil_r.
Qed.

Lemma isTitleOf_keeps d d' s t : Keeps d d' → isTitleOf d s t → isTitleOf d' s t.
Proof.
  intros HK (e & He & T & X & C & A).
  destruct (HK s e He) as (e' & He' & T' & A' & C' & X' & _).
  exists e'. split_and!; congruence.
Qed.

Lemma Made_keeps titles d d' y : Keeps d d' → Made titles d y → Made titles d' y.
Proof.
  intros HK [(t & Ht & e & s & kids & He & T & C & A & K & Hs)|[(t & Ht & Hs)|(e & i & He & T & A)]].
  - left. exists t. split; [done|].
    destruct (HK y e He) as (e' & He' & T' & A' & C' & X' & more & K').
    exists e', s, (kids ++ more). split_and!; try congruence.
    + by rewrite K', K.
    + by eapply isTitleOf_keeps.
  - right. left. exists t. split; [done|]. by eapply isTitleOf_keeps.
  - right. right.
    destruct (HK y e He) as (e' & He' & T' & A' & _).
    exists e', i. split_and!; congruence.
Qed.

Lemma Made_mono titles titles' d y : titles ⊆ titles' → Made titles d y → Made titles' d y.
Proof.
  intros Hsub [(t & Ht & H)|[(t & Ht & H)|H]].
  - left. exists t. split; [by apply Hsub|done].
  - right. left. exists t. split; [by apply Hsub|done].
  - by right; right.
Qed.

Lemma isTitleOf_titleElem d s t level N b :
  d !! s = Some (titleElem t level N b) → isTitleOf d s t.
Proof.
  intros Hs. eexists. split; [exact Hs|]. split_and!; try done. simpl. left.
Qed.

Lemma isStubElem_stubElem d y p q : d !! y = Some (stubElem p q) → isStubElem d y.
Proof. intros Hy. exists (stubElem p q), (index p). by split_and!. Qed.

Lemma generateEach_shape root level items :
  Forall (GenerateShape root) items →
  ∀ ctx h, Building root h ctx → LastOk h ctx → Agree root (doc h) →
  ∃ ctx' h' new,
    GenContext.generateEach items level ctx h = Ok ctx' h' ∧
    Agree root (doc h') ∧
    Extends (insertionPoint ctx) (parent ctx) h h' ∧
    Dom.documentOrder (doc h') root = Dom.documentOrder (doc h) root ++ new ∧
    entriesOf (doc h') new = flat_map titlesOf items ∧
    labelsOf (doc h') new
      = (outlineLabelsEach (index <$> pages h) items (populateCnt ctx)).1 ∧
    populateCnt ctx' = (outlineLabelsEach (index <$> pages h) items (populateCnt ctx)).2 ∧
    (∀ y, length (doc h) ≤ y < length (doc h') →
          Made (flat_map titlesOf items) (doc h') y).
Proof.
  induction 1 as [|item items Hitem _ IH]; intros ctx h HB HL HA.
  - exists ctx, h, []. split_and!; try done;
      [apply Extends_refl|by rewrite app_nil_r|intros y Hy; lia].
  - destruct (Hitem level ctx h HB HA)
      as (ctx1 & h1 & kids & new1 & R1 & A1 & E1 & O1 & T1 & Lb1 & Cn1 & _ & _ & _ & _ & _
          & M1).
    destruct (generate_building (titlesOf item) root item) with (level := level)
      (ctx := ctx) (h := h)
      as (N & ctx1' & h1' & R1' & B1 & P1 & (v & V1 & SV1) & St1 & _);
      [done|done|].
    cbv zeta in R1. rewrite R1 in R1'. injection R1' as <- <- <-.
    destruct (IH (with_insertionPoint (length (doc h)) ctx1) h1 B1)
      as (ctx2 & h2 & new2 & R2 & A2 & E2 & O2 & T2 & Lb2 & Cn2 & M2); [|done|].
    { intros v' Hv'. simpl in *. congruence. }
    rewrite (Step_indices _ _ St1) in Lb2, Cn2. simpl in Lb2, Cn2.
    rewrite Cn1 in Lb2, Cn2.
    assert (∀ x, x ∈ new1 → x < length (doc h1)) as Hnew1.
    { intros x Hx. eapply documentOrder_lt; [exact (building_grown _ _ _ B1)|].
      rewrite O1. apply elem_of_app. by right. }
    exists ctx2, h2, (new1 ++ new2). split_and!.
    + simpl. unfold bind. rewrite R1. simpl. by rewrite R2.
    + done.
    + eapply Extends_trans; [exact E1|exact E2|]. simpl.
      intros x Hx [->| ->]; [lia|by right].
    + by rewrite O2, O1, app_assoc.
    + rewrite entriesOf_app, T2. simpl. f_equal. rewrite <- T1.
      apply entriesOf_agree. intros x Hx.
      eapply Extends_getAttribute; [exact E2|]. by apply Hnew1.
    + rewrite labelsOf_app, Lb2. simpl. f_equal. rewrite <- Lb1.
      apply labelsOf_agree. intros x Hx.
      eapply Extends_attributesOf; [exact E2|]. by apply Hnew1.
    + done.
    + intros y Hy. simpl.
      destruct (decide (y < length (doc h1))) as [Hy1|Hy1].
      * eapply Made_mono; [|eapply Made_keeps; [exact (Extends_keeps _ _ _ _ E2)|]].
        -- intros u Hu. apply elem_of_app. by left.
        -- apply M1. lia.
      * eapply Made_mono; [|apply M2; lia].
        intros u Hu. apply elem_of_app. by right.
Qed.

Lemma generate_shape root item : GenerateShape root item.
Proof.
  induction item as [t pos chs IH] using OutlineItemData_forall_ind.
  intros level ctx h HB HA.
  set (item := mkOutlineItemData t pos chs) in *.
  set (titles := titlesOf item).
  assert (Ht : t ∈ titles) by (simpl; left).
  assert (Hchs : Forall (GenerateSpec titles root) chs).
  { apply Forall_forall. intros c Hc. apply generate_building.
    intros u Hu. simpl. right. apply elem_of_flat_map. eauto. }
  destruct (Building_parent_bounds _ _ _ HB) as (Hrp & Hpi & Hil).
  set (N := length (doc h)).
  set (q := parent ctx) in *. set (ip := insertionPoint ctx) in *.
  (* the outline container *)
  destruct (newOutlineDiv_building titles root h ctx t HB Ht)
    as (h1 & R1 & B1 & S1 & _ & L1 & C1 & PN & AN & O1).
  assert (D1 : doc h1 = doc h ++ [outlineDivElem t]).
  { pose proof (newOutlineDiv_eq t h) as E. rewrite R1 in E. by injection E as ->. }
  (* stubs before this node *)
  destruct (spliceCanvas_building titles root h1 ctx (GenContext.posOf item) B1)
    as (h2 & k & R2 & B2 & S2 & _ & L2 & C2 & O2 & P2).
  set (ctx1 := with_populateCnt _ ctx) in *.
  destruct (spliceCanvas_effect _ _ _ _ _ _ R2) as (L2' & F2 & N2); [fold ip; lia|].
  assert (Hk : k = spliceCount ctx (GenContext.posOf item) h).
  { unfold spliceCount in *. rewrite <- (Step_pages_length _ _ S1). lia. }
  replace (spliceCount ctx (GenContext.posOf item) h1) with k in *
    by (rewrite Hk; unfold spliceCount; by rewrite (Step_pages_length _ _ S1)).
  clear L2'. fold ip in F2, N2, C2.
  set (s := length (doc h2)).
  assert (Hs : s = N + 1 + k) by (unfold s, N; lia).
  (* title and attachment *)
  destruct (attach_building titles root h2 ctx1 t level N B2)
    as (h3 & h4 & R3 & R4 & B4 & Sq & SqN & S4 & _ & L4 & C4 & O4); try done.
  { simpl. unfold N. lia. }
  { unfold N. lia. }
  { rewrite C2 by (unfold N; lia). rewrite C1. by apply childrenOf_ge. }
  { rewrite P2 by lia. done. }
  { rewrite (step_attrs _ _ S2) by lia. done. }
  { rewrite O2, O1. intros [Hin|Hin]%elem_of_app.
    - eapply documentOrder_lt in Hin; [|exact (building_grown _ _ _ HB)]. unfold N in Hin. lia.
    - apply elem_of_seq in Hin. unfold N in Hin. lia. }
  assert (D3 : doc h3 = alter (Dom.with_children (λ l, l ++ [s])) N (doc h2)
                          ++ [titleSpanElem t level N]).
  { pose proof (newTitleSpan_eq t level N h2) as E. rewrite R3 in E.
    injection E as ->; [done|unfold N; lia]. }
  assert (PN3 : Dom.parentOf (doc h3) N = None).
  { rewrite D3, parentOf_snoc, decide_False by (rewrite length_alter; unfold N; lia).
    rewrite parentOf_alter_children, P2 by lia. done. }
  assert (D4 : doc h4 = alter (Dom.with_children (λ l, l ++ [N])) q
                          (alter (Dom.with_parentNode (Some q)) N (doc h3))).
  { pose proof (push_eq q N h3 PN3) as E. change (parent ctx1) with q in R4.
    rewrite R4 in E. by injection E as ->. }
  assert (Hl3 : length (doc h3) = S s).
  { rewrite D3, length_app, length_alter. simpl. unfold s. lia. }
  (* where the elements stand after the attachment *)
  assert (K1 : ∀ x e, doc h !! x = Some e → doc h1 !! x = Some e).
  { intros x e He. rewrite D1. apply lookup_app_l_Some. done. }
  assert (K4 : ∀ x e, doc h2 !! x = Some e → x ≠ N →
            doc h4 !! x =
              Some (if decide (x = q) then Dom.with_children (λ l, l ++ [N]) e else e)).
  { intros x e He Hx. pose proof (lookup_lt_Some _ _ _ He) as Hlt.
    assert (doc h3 !! x = Some e) as H3.
    { rewrite D3, lookup_app_l by by rewrite length_alter.
      by rewrite list_lookup_alter_ne. }
    rewrite D4. destruct (decide (x = q)) as [->|Hne].
    - rewrite list_lookup_alter_eq, list_lookup_alter_ne by done. by rewrite H3.
    - rewrite !list_lookup_alter_ne by done. done. }
  assert (KN4 : doc h4 !! N =
            Some (Dom.mkElem "div" (outlineAttributes t) ["typst-outline"] ""
                    [] [] [s] (Some q))).
  { assert (doc h2 !! N = Some (outlineDivElem t)) as H2.
    { rewrite (F2 N (outlineDivElem t)).
      - by rewrite decide_False by lia.
      - rewrite D1. by apply list_lookup_middle. }
    rewrite D4, list_lookup_alter_ne, list_lookup_alter_eq by lia.
    rewrite D3, lookup_app_l by (rewrite length_alter; unfold N; lia).
    rewrite list_lookup_alter_eq, H2. done. }
  assert (Ks4 : doc h4 !! s = Some (titleSpanElem t level N)).
  { rewrite D4, !list_lookup_alter_ne by lia.
    rewrite D3. apply list_lookup_middle. by rewrite length_alter. }
  (* children and parents agree *)
  assert (A1 : Agree root (doc h1)).
  { apply (Agree_append root (doc h) (doc h1) root []);
      [done|by intros; apply C1| |by intros ? ?%elem_of_nil|].
    - by rewrite C1, app_nil_r.
    - intros y _. rewrite D1, parentOf_snoc. case_decide; [subst|done].
      symmetry. by apply parentOf_ge. }
  assert (A2 : Agree root (doc h2)).
  { apply (Agree_append root (doc h1) (doc h2) ip (seq (length (doc h1)) k)); [done|done|..].
    - destruct (lookup_lt_is_Some_2 (doc h1) ip) as [e He]; [lia|].
      unfold Dom.childrenOf. rewrite (F2 _ _ He), He, decide_True by done. done.
    - intros c Hc. apply elem_of_seq in Hc. split; [apply parentOf_ge; lia|].
      destruct (N2 c) as (p & _ & Hp); [lia|]. unfold Dom.parentOf. by rewrite Hp.
    - intros y Hy. destruct (decide (y < length (doc h1))) as [Hlt|Hge]; [by apply P2|].
      rewrite !parentOf_ge; [done|lia|]. rewrite elem_of_seq in Hy. lia. }
  assert (A3 : Agree root (doc h3)).
  { apply (Agree_append root (doc h2) (doc h3) N [s]); [done|..].
    - intros y Hy. rewrite D3, childrenOf_snoc, length_alter.
      case_decide; [subst; symmetry; by apply childrenOf_ge|].
      rewrite childrenOf_alter_children by (unfold N; lia). by rewrite decide_False.
    - rewrite D3, childrenOf_snoc, length_alter, decide_False by (unfold N; lia).
      rewrite childrenOf_alter_children by (unfold N; lia). by rewrite decide_True.
    - intros c ->%list_elem_of_singleton. split; [by apply parentOf_ge|].
      rewrite D3, parentOf_snoc, length_alter. by rewrite decide_True.
    - intros y Hy. rewrite list_elem_of_singleton in Hy.
      rewrite D3, parentOf_snoc, length_alter, decide_False by done.
      apply parentOf_alter_children. }
  assert (A4 : Agree root (doc h4)).
  { apply (Agree_append root (doc h3) (doc h4) q [N]); [done|..].
    - intros y Hy. rewrite D4, childrenOf_alter_children by (rewrite length_alter; lia).
      rewrite decide_False by done. apply childrenOf_alter_parentNode.
    - rewrite D4, childrenOf_alter_children by (rewrite length_alter; lia).
      rewrite decide_True by done. by rewrite childrenOf_alter_parentNode.
    - intros c ->%list_elem_of_singleton. split; [done|].
      rewrite D4, parentOf_alter_children. apply parentOf_alter_parentNode_eq.
      unfold N. lia.
    - intros y Hy. rewrite list_elem_of_singleton in Hy.
      rewrite D4, parentOf_alter_children. unfold Dom.parentOf.
      by rewrite list_lookup_alter_ne. }
  (* the children *)
  set (ctx5 := with_insertionPoint N (with_parent N (with_lastVisit (Some N) ctx1))) in *.
  destruct (generateEach_building titles root (level + 1)%Z chs Hchs ctx5 h4 B4)
    as (ctx6 & h5 & R5 & B5 & P5 & LO5 & V5 & S5 & _ & _ & C5).
  { intros v [= <-]. apply Spine_here. }
  destruct (generateEach_shape root (level + 1)%Z chs IH ctx5 h4 B4)
    as (ctx6' & h5' & new5 & R5' & A5 & E5 & O5 & T5 & Lb5 & Cn5 & M5); [|done|].
  { intros v [= <-]. apply Spine_here. }
  rewrite R5 in R5'. injection R5' as <- <-.
  change (insertionPoint ctx5) with N in E5. change (parent ctx5) with N in E5.
  (* the title made clickable *)
  set (b := hasChildren item ctx).
  destruct (makeClickable_building root h5 ctx6 b s B5)
    as (h6 & R6 & B6 & S6 & L6 & C6 & O6).
  assert (D6 : doc h6 = alter (clickable b) s (doc h5)).
  { pose proof (makeClickable_eq b s h5) as E. rewrite R6 in E. by injection E as ->. }
  assert (K6 : ∀ x e, doc h4 !! x = Some e → x ≠ N → x ≠ s → doc h6 !! x = Some e).
  { intros x e He HxN Hxs. rewrite D6, list_lookup_alter_ne by done.
    by apply (Extends_same N N h4 h5). }
  assert (KK : ∀ x e, doc h2 !! x = Some e → x ≠ N → x ≠ s →
            doc h6 !! x =
              Some (if decide (x = q) then Dom.with_children (λ l, l ++ [N]) e else e)).
  { intros x e He HxN Hxs. apply K6; [|done..]. by apply K4. }
  assert (Kstub : ∀ y, N < y < s →
            ∃ p, pages h !! (Z.to_nat (populateCnt ctx - 1) + (y - S N)) = Some p ∧
                 doc h6 !! y = Some (stubElem p ip)).
  { intros y Hy. destruct (N2 y) as (p & Hpg & Hp); [lia|]. exists p. split.
    - rewrite <- Hpg, L1. pose proof (newOutlineDiv_eq t h) as E. rewrite R1 in E.
      by injection E as ->.
    - rewrite (KK y _ Hp) by lia. by rewrite decide_False by lia. }
  assert (KN6 : ∃ kids, doc h6 !! N =
            Some (Dom.mkElem "div" (outlineAttributes t) ["typst-outline"] ""
                    [] [] (s :: kids) (Some q))).
  { destruct (E5 N _ KN4) as (more & Hm & _). exists more.
    rewrite D6, list_lookup_alter_ne by lia. by rewrite Hm. }
  assert (Ks6 : doc h6 !! s = Some (titleElem t level N b)).
  { rewrite D6, list_lookup_alter_eq.
    rewrite (Extends_same N N h4 h5 s _ E5 Ks4) by lia.
    simpl. by rewrite clickable_title. }
  destruct KN6 as [kids KN6].
  exists (with_parent (parent ctx1) (with_insertionPoint (insertionPoint ctx1) ctx6)), h6,
    kids, (seq (S N) k ++ [N; s] ++ new5).
  cbv zeta. fold N. rewrite <- Hk, <- Hs.
  split_and!.
  - clear -R1 R2 R3 R4 R5 R6. subst ctx5 ctx1 N b s. unfold hasChildren in R6.
    rewrite generate_run. unfold bind.
    change (title item) with t. change (children item) with chs. rewrite R1.
    cbv zeta. rewrite R2, R3, R4.
    change (children item) with chs in R6.
    rewrite eachChild_generateEach. rewrite R5, R6. reflexivity.
  - apply (Agree_append root (doc h5) (doc h6) root []);
      [done|by intros; apply C6| |by intros ? ?%elem_of_nil|].
    + by rewrite C6, app_nil_r.
    + intros y _. rewrite D6. apply parentOf_alter_same. apply clickable_parentNode.
  - intros x e He. pose proof (lookup_lt_Some _ _ _ He) as Hx. fold N in Hx.
    pose proof (F2 x e (K1 x e He)) as H2.
    rewrite (KK x _ H2) by lia.
    destruct (decide (x = ip)) as [Hi|Hi], (decide (x = q)) as [Hq|Hq].
    + eexists. split; [by rewrite with_children_app|]. done.
    + eexists. split; [done|]. done.
    + eexists. split; [done|]. done.
    + exists []. by rewrite with_children_nil.
  - rewrite O6, O5, O4, O2, O1, L1. fold N s. by rewrite <- !app_assoc.
  - rewrite !entriesOf_app. rewrite (entriesOf_none _ (seq (S N) k)).
    2:{ intros y Hy%elem_of_seq. destruct (Kstub y) as (p & _ & Hp); [lia|].
        by rewrite (getAttribute_lookup _ _ _ _ Hp). }
    assert (entriesOf (doc h6) new5 = entriesOf (doc h5) new5) as ->.
    { apply entriesOf_agree. intros x _. rewrite D6.
      rewrite !getAttribute_attributesOf. f_equal.
      apply attributesOf_alter. apply clickable_attributes. }
    rewrite T5. unfold entriesOf. csimpl.
    rewrite (getAttribute_lookup _ _ _ _ KN6), (getAttribute_lookup _ _ _ _ Ks6).
    done.
  - (* the labels, in the order of emission *)
    assert (Hidx4 : index <$> pages h4 = index <$> pages h).
    { rewrite (Step_indices _ _ S4), (Step_indices _ _ S2). apply (Step_indices _ _ S1). }
    rewrite Hidx4 in Lb5. change (populateCnt ctx5) with (populateCnt ctx1) in Lb5.
    rewrite outlineLabels_run. cbv zeta. cbn [fst].
    change (title item) with t. change (children item) with chs.
    assert (Hc1 : populateCnt ctx1 =
              Z.max (Z.min (GenContext.posOf item)
                       (Z.of_nat (length (index <$> pages h)) + 1)) (populateCnt ctx)).
    { unfold ctx1. simpl. by rewrite length_fmap, (Step_pages_length _ _ S1). }
    rewrite <- Hc1, <- Lb5.
    rewrite !labelsOf_app. f_equal; [|].
    + unfold pageLabels.
      replace (Z.to_nat (Z.min (GenContext.posOf item)
                           (Z.of_nat (length (index <$> pages h)) + 1) - populateCnt ctx))
        with k by (rewrite Hk; unfold spliceCount; by rewrite length_fmap).
      apply labelsOf_stubs. intros j Hj.
      destruct (Kstub (S N + j)) as (p & Hpg & Hp); [lia|].
      replace (S N + j - S N) with j in Hpg by lia.
      exists (index p). split.
      * by rewrite lookup_drop, list_lookup_fmap, Hpg.
      * unfold labelOf. by rewrite !(getAttribute_lookup _ _ _ _ Hp).
    + assert (labelsOf (doc h6) new5 = labelsOf (doc h5) new5) as ->.
      { apply labelsOf_agree. intros x _. rewrite D6.
        apply attributesOf_alter. apply clickable_attributes. }
      unfold labelsOf. csimpl. unfold labelOf at 1 2.
      rewrite !(getAttribute_lookup _ _ _ _ KN6), !(getAttribute_lookup _ _ _ _ Ks6).
      done.
  - rewrite outlineLabels_run. cbv zeta. cbn [snd].
    change (children item) with chs. simpl.
    rewrite Cn5.
    assert (Hidx4 : index <$> pages h4 = index <$> pages h).
    { rewrite (Step_indices _ _ S4), (Step_indices _ _ S2). apply (Step_indices _ _ S1). }
    rewrite Hidx4. f_equal. simpl.
    by rewrite length_fmap, (Step_pages_length _ _ S1).
  - done.
  - destruct (lookup_lt_is_Some_2 (doc h) q) as [e He]; [lia|].
    pose proof (F2 q e (K1 q e He)) as H2.
    pose proof (KK q _ H2) as H6. rewrite decide_True in H6 by done.
    unfold Dom.childrenOf. rewrite H6 by (unfold N; lia). simpl. apply last_snoc.
  - done.
  - done.
  - done.
  - (* what each new node is *)
    intros y Hy. rewrite L6 in Hy.
    assert (Hts : isTitleOf (doc h6) s t) by by eapply isTitleOf_titleElem.
    destruct (decide (y = N)) as [->|HyN].
    { left. exists t. split; [simpl; left|].
      eexists. exists s, kids. split; [exact KN6|]. by split_and!. }
    destruct (decide (y < s)) as [Hys|Hys].
    { right. right. destruct (Kstub y) as (p & _ & Hp); [lia|].
      by eapply isStubElem_stubElem. }
    destruct (decide (y = s)) as [->|Hys'].
    { right. left. exists t. split; [simpl; left|done]. }
    eapply Made_mono; [|eapply Made_keeps; [rewrite D6; apply Keeps_alter_clickable|]].
    + intros u Hu. simpl. by right.
    + apply M5. rewrite L4. fold s. lia.
Qed.

(** The construction pass of [patchOutlineEntry], from any heap. *)
Lemma patchOutlineEntry_generate_shape (items : list OutlineItemData) (h : Heap) :
  ∃ ctx h',
    patchOutlineEntry_generate items h = Ok (length (doc h), ctx) h' ∧
    Agree (length (doc h)) (doc h') ∧
    (∀ x e, doc h !! x = Some e → doc h' !! x = Some e) ∧
    entriesOf (doc h') (Dom.documentOrder (doc h') (length (doc h)))
      = flat_map titlesOf items ∧
    readingOrder (doc h') (length (doc h)) = targetLabels (index <$> pages h) items ∧
    (∀ y, length (doc h) < y < length (doc h') →
          Made (flat_map titlesOf items) (doc h') y).
Proof.
  set (titles := flat_map titlesOf items).
  set (root := length (doc h)).
  destruct (GenContext_new_building h) as (h0 & R0 & B0 & S0 & L0 & A0).
  fold root in R0, B0, A0.
  set (ctx0 := mkGenContext 1 root root None [1%Z]) in *.
  assert (D0 : doc h0 = doc h ++ [Dom.blank "div"]).
  { unfold GenContext.new, bind, createElement, ret in R0. by injection R0 as <-. }
  assert (Hch0 : ∀ y, root ≤ y → Dom.childrenOf (doc h0) y = []).
  { intros y Hy. rewrite D0, childrenOf_snoc. case_decide; [done|].
    by apply childrenOf_ge. }
  assert (Ag0 : Agree root (doc h0)).
  { intros x c Hx Hc. rewrite Hch0 in Hc by done. by apply elem_of_nil in Hc. }
  assert (O0 : Dom.documentOrder (doc h0) root = [root]).
  { unfold Dom.documentOrder. rewrite L0, flatten_S, Hch0 by done. done. }
  assert (Hspecs : Forall (GenerateSpec titles root) items).
  { apply Forall_forall. intros item Hitem. apply generate_building.
    intros t Ht. apply elem_of_flat_map. eauto. }
  assert (Hshapes : Forall (GenerateShape root) items).
  { apply Forall_forall. intros item _. apply generate_shape. }
  destruct (generateEach_building titles root 1%Z items Hspecs ctx0 h0 B0)
    as (ctx1 & h1 & R1 & B1 & P1 & LO1 & _ & S1 & _ & _ & C1).
  { intros v [=]. }
  destruct (generateEach_shape root 1%Z items Hshapes ctx0 h0 B0)
    as (ctx1' & h1' & new1 & R1' & Ag1 & E1 & O1 & T1 & Lb1 & Cn1 & M1); [|done|].
  { intros v [=]. }
  rewrite R1 in R1'. injection R1' as <- <-.
  change (insertionPoint ctx0) with root in E1. change (parent ctx0) with root in E1.
  pose proof B1 as [G1 N1 SP1 SI1 HL1 HH1 HB1].
  set (next := default root (lastVisit ctx1)).
  assert (Hnext : Spine (Dom.childrenOf (doc h1)) root next).
  { unfold next. destruct (lastVisit ctx1) as [v|] eqn:Hv; simpl.
    - eapply Spine_trans; [exact SP1|]. eapply Spine_trans; [exact SI1|]. by apply LO1.
    - apply Spine_here. }
  destruct (Spine_root_lt root h1 _ next G1 Hnext) as [Hrn Hnl].
  destruct (spliceCanvas_grown titles root h1 ctx1 next
              (Z.of_nat (length (pages h1)) + 1)%Z G1 N1 Hnext)
    as (h2 & k & R2 & G2 & S2 & _ & L2 & C2 & Cq & O2 & P2).
  destruct (spliceCanvas_effect _ _ _ _ _ _ R2 Hnl) as (L2' & F2 & N2).
  set (k' := spliceCount _ _ _) in *.
  assert (Hk : k' = k) by lia. rewrite Hk in F2, N2. clear L2'.
  unfold k', spliceCount in Hk.
  exists (with_populateCnt
            (Z.max (Z.min (Z.of_nat (length (pages h1)) + 1)
                      (Z.of_nat (length (pages h1)) + 1)) (populateCnt ctx1)) ctx1), h2.
  split_and!.
  - unfold patchOutlineEntry_generate, bind. rewrite R0. simpl.
    fold root ctx0. rewrite R1. unfold pagesLength. fold next. rewrite R2. done.
  - apply (Agree_append root (doc h1) (doc h2) next (seq (length (doc h1)) k));
      [done|done|done|..].
    + intros c Hc. apply elem_of_seq in Hc. split; [apply parentOf_ge; lia|].
      destruct (N2 c) as (p & _ & Hp); [lia|]. unfold Dom.parentOf. by rewrite Hp.
    + intros y Hy. destruct (decide (y < length (doc h1))) as [Hlt|Hge]; [by apply P2|].
      rewrite !parentOf_ge; [done|lia|]. rewrite elem_of_seq in Hy. lia.
  - intros x e He. pose proof (lookup_lt_Some _ _ _ He) as Hx. fold root in Hx.
    assert (doc h0 !! x = Some e) as H0 by (rewrite D0; by apply lookup_app_l_Some).
    pose proof (Extends_same root root h0 h1 x e E1 H0) as H1.
    rewrite (F2 x e) by (apply H1; lia). by rewrite decide_False by lia.
  - fold root. rewrite O2, O1, O0, !entriesOf_app.
    rewrite (entriesOf_none _ [root]), (entriesOf_none _ (seq _ _)).
    + rewrite app_nil_r. simpl. unfold titles. rewrite <- T1.
      apply entriesOf_agree. intros x Hx. rewrite !getAttribute_attributesOf.
      rewrite (step_attrs _ _ S2); [done|].
      eapply documentOrder_lt; [exact G1|]. rewrite O1. apply elem_of_app. by right.
    + intros y Hy%elem_of_seq. destruct (N2 y) as (p & _ & Hp); [lia|].
      by rewrite (getAttribute_lookup _ _ _ _ Hp).
    + intros y ->%list_elem_of_singleton. rewrite getAttribute_attributesOf.
      rewrite (step_attrs _ _ S2), (step_attrs _ _ S1), A0; [done|lia|].
      pose proof (step_length _ _ S1). lia.
  - fold root. unfold readingOrder, targetLabels. cbv zeta.
    change (omap (labelOf (doc h2)) (Dom.documentOrder (doc h2) root))
      with (labelsOf (doc h2) (Dom.documentOrder (doc h2) root)).
    rewrite (Step_indices _ _ S0) in Lb1, Cn1. simpl in Lb1, Cn1.
    rewrite O2, O1, O0, !labelsOf_app, <- Lb1, <- Cn1.
    assert (labelsOf (doc h2) [root] = []) as ->.
    { unfold labelsOf. csimpl. unfold labelOf. rewrite !getAttribute_attributesOf.
      rewrite (step_attrs _ _ S2), (step_attrs _ _ S1), A0; [done|lia|].
      pose proof (step_length _ _ S1). lia. }
    simpl. f_equal.
    + apply labelsOf_agree. intros x Hx. apply (step_attrs _ _ S2).
      eapply documentOrder_lt; [exact G1|]. rewrite O1. apply elem_of_app. by right.
    + unfold pageLabels.
      replace (Z.to_nat (Z.of_nat (length (index <$> pages h)) + 1 - populateCnt ctx1))
        with k.
      2:{ rewrite length_fmap, <- (Step_pages_length _ _ S0), <- (Step_pages_length _ _ S1).
          lia. }
      apply labelsOf_stubs. intros j Hj.
      destruct (N2 (length (doc h1) + j)) as (p & Hpg & Hp); [lia|].
      replace (length (doc h1) + j - length (doc h1)) with j in Hpg by lia.
      exists (index p). split.
      * rewrite lookup_drop, <- (Step_indices _ _ S0), <- (Step_indices _ _ S1).
        by rewrite list_lookup_fmap, Hpg.
      * unfold labelOf. by rewrite !(getAttribute_lookup _ _ _ _ Hp).
  - intros y Hy. fold root in Hy.
    destruct (decide (y < length (doc h1))) as [Hy1|Hy1].
    + eapply Made_keeps; [exact (Keeps_appended _ _ _ _ F2)|]. apply M1. lia.
    + right. right. destruct (N2 y) as (p & _ & Hp); [lia|].
      by eapply isStubElem_stubElem.
Qed.

End ShapeFacts.

Section ShapeTheorems.

Local Open Scope nat_scope.

(** X10. What one call of [generate] does, from any state the builder
    reaches.  It returns a new [div] of class [typst-outline] tagged for
    the title, appended last under the current parent; the placeholders of
    the pages before the item's page, taken from the registry in slot
    order from the watermark on, have gone under the insertion point the
    call found, not under the new node; the first child of the new node
    is the title span, of classes [typst-outline-title] and [level-n], whose
    text is the title, and which is underlined, shown with a pointer and
    given one click listener exactly when the item's page number is beyond
    the watermark the call found or the item has children; [parent] and
    [insertionPoint] are put back,
    [lastVisit] is set; and every element that existed is as it was, but
    for the children appended to the parent and to the insertion point. *)
Theorem generate_contract root item level ctx h :
  Building root h ctx → Agree root (doc h) →
  ∃ ctx' h' kids,
    let N := length (doc h) in
    let s := N + 1 + spliceCount ctx (GenContext.posOf item) h in
    GenContext.generate item level ctx h = Ok (N, ctx') h' ∧
    insertionPoint ctx' = insertionPoint ctx ∧ parent ctx' = parent ctx ∧
    is_Some (lastVisit ctx') ∧
    Extends (insertionPoint ctx) (parent ctx) h h' ∧
    last (Dom.childrenOf (doc h') (parent ctx)) = Some N ∧
    doc h' !! N =
      Some (Dom.mkElem "div" (outlineAttributes (title item)) ["typst-outline"] ""
              [] [] (s :: kids) (Some (parent ctx))) ∧
    doc h' !! s = Some (titleElem (title item) level N (hasChildren item ctx)) ∧
    (∀ y, N < y < s →
          ∃ p, pages h !! (Z.to_nat (populateCnt ctx - 1) + (y - S N)) = Some p ∧
               doc h' !! y = Some (stubElem p (insertionPoint ctx))).
Proof.
  intros HB HA.
  destruct (generate_shape root item level ctx h HB HA)
    as (ctx' & h' & kids & new & R & _ & E & _ & _ & _ & _ & I & La & KN & Ks & Kst & _).
  destruct (generate_building (titlesOf item) root item) with (level := level)
    (ctx := ctx) (h := h) as (N & ctx2 & h2 & R2 & _ & P & (v & V & _) & _); [done|done|].
  cbv zeta in R. rewrite R in R2. injection R2 as <- <- <-.
  exists ctx', h', kids. cbv zeta. split_and!; done.
Qed.

(** X11. The construction pass of [patchOutlineEntry] always comes to its
    end, whatever the outline and the registry, and builds the target tree
    out of new elements only: every element that existed before the pass
    is exactly as it was, children and parent included, and the attribute
    patcher is not called. *)
Theorem construction_keeps_existing (items : list OutlineItemData) (h : Heap) :
  ∃ ctx h',
    patchOutlineEntry_generate items h = Ok (length (doc h), ctx) h' ∧
    take (length (doc h)) (doc h') = doc h ∧
    patchLog h' = patchLog h.
Proof.
  destruct (patchOutlineEntry_generate_shape items h) as (ctx & h' & R & _ & K & _ & _ & _).
  destruct (patchOutlineEntry_generate_built items h) as (ctx2 & h2 & R2 & _ & St & _).
  rewrite R in R2. injection R2 as <- <-.
  exists ctx, h'. split_and!; [done| |apply (step_log _ _ St)].
  apply list_eq. intros x. destruct (decide (x < length (doc h))) as [Hx|Hx].
  - rewrite lookup_take_lt by done.
    destruct (lookup_lt_is_Some_2 _ _ Hx) as [e He]. by rewrite He, (K x e He).
  - rewrite lookup_take_ge by lia. symmetry. apply lookup_ge_None. lia.
Qed.

(** X12. The outline containers of the target tree, read in document
    order, carry the titles of the outline in pre-order: one container for
    each item, children after their parent and before its next sibling. *)
Theorem target_titles_in_preorder (items : list OutlineItemData) (h : Heap) :
  ∃ ctx h',
    patchOutlineEntry_generate items h = Ok (length (doc h), ctx) h' ∧
    entriesOf (doc h') (Dom.documentOrder (doc h') (length (doc h)))
      = flat_map titlesOf items.
Proof.
  destruct (patchOutlineEntry_generate_shape items h) as (ctx & h' & R & _ & _ & T & _ & _).
  by exists ctx, h'.
Qed.

(** X15. The reading order of the target tree, for any outline and any
    registry: in document order, the entries and the page placeholders of
    the target tree are what [generate] emits item by item: before the
    entry of an item the placeholders of the pages from the watermark up to
    (not including) the page of the item, clamped to the registry; after
    the last item the placeholders of the pages that are left.  A
    placeholder is labelled with the [index] of the page object it stands
    for. *)
Theorem target_reading_order (items : list OutlineItemData) (h : Heap) :
  ∃ ctx h',
    patchOutlineEntry_generate items h = Ok (length (doc h), ctx) h' ∧
    readingOrder (doc h') (length (doc h)) = targetLabels (index <$> pages h) items.
Proof.
  destruct (patchOutlineEntry_generate_shape items h) as (ctx & h' & R & _ & _ & _ & RO & _).
  by exists ctx, h'.
Qed.

(** On the outline A (page 1), B (page 3) with three pages of indices 1, 2
    and 3, the reading order is A, 1, 2, B, 3. *)
Example targetLabels_scenario :
  targetLabels (index <$> pages scenarioHeap) scenarioOutline =
    [Entry "A"; Page "1"; Page "2"; Entry "B"; Page "3"].
Proof. reflexivity. Qed.

End ShapeTheorems.

(** ** The first render *)

Section FirstRender.

Local Open Scope nat_scope.

Lemma attributesOf_detach c d y : attributesOf (Dom.detach c d) y = attributesOf d y.
Proof.
  unfold Dom.detach. destruct (Dom.parentOf d c); [|done].
  by rewrite !attributesOf_alter by by intros [].
Qed.

Lemma parentOf_detach_ne c d y : y ≠ c → Dom.parentOf (Dom.detach c d) y = Dom.parentOf d y.
Proof.
  intros Hy. unfold Dom.detach. destruct (Dom.parentOf d c); [|done].
  unfold Dom.parentOf at 1. rewrite list_lookup_alter_ne by done.
  apply parentOf_alter_children.
Qed.

(** [p.append(c)] for a node [c] that is a child of [r]. *)
Lemma append_moves p c r d :
  Dom.parentOf d c = Some r → p ≠ r → p < length d → r < length d →
  length (Dom.append p c d) = length d ∧
  Dom.childrenOf (Dom.append p c d) p = Dom.childrenOf d p ++ [c] ∧
  Dom.childrenOf (Dom.append p c d) r = Dom.remove_child c (Dom.childrenOf d r) ∧
  (∀ y, y ≠ p → y ≠ r → Dom.childrenOf (Dom.append p c d) y = Dom.childrenOf d y) ∧
  Dom.parentOf (Dom.append p c d) c = Some p ∧
  (∀ y, y ≠ c → Dom.parentOf (Dom.append p c d) y = Dom.parentOf d y) ∧
  (∀ y, attributesOf (Dom.append p c d) y = attributesOf d y).
Proof.
  intros Hc Hpr Hp Hr. pose proof (parentOf_lt _ _ _ Hc) as Hcl.
  unfold Dom.append. split_and!.
  - by rewrite !length_alter, length_detach.
  - rewrite childrenOf_alter_children_eq by by rewrite length_alter, length_detach.
    rewrite childrenOf_alter_parentNode, childrenOf_detach by done.
    rewrite decide_False; [done|]. rewrite Hc. by intros [= ->].
  - rewrite childrenOf_alter_children_ne by done.
    rewrite childrenOf_alter_parentNode, childrenOf_detach by done.
    by rewrite decide_True.
  - intros y Hyp Hyr. rewrite childrenOf_alter_children_ne by done.
    rewrite childrenOf_alter_parentNode. unfold Dom.detach. rewrite Hc.
    rewrite childrenOf_alter_parentNode. by rewrite childrenOf_alter_children_ne.
  - rewrite parentOf_alter_children. apply parentOf_alter_parentNode_eq.
    by rewrite length_detach.
  - intros y Hy. rewrite parentOf_alter_children. unfold Dom.parentOf at 1.
    rewrite list_lookup_alter_ne by done. by apply parentOf_detach_ne.
  - intros y. rewrite !attributesOf_alter by by intros []. apply attributesOf_detach.
Qed.

(** [prev.append(...next.children)] takes every child of [next] over, in
    order. *)
Lemma appendAll_adopts prev root cs :
  ∀ h,
  prev ≠ root → prev < length (doc h) → root < length (doc h) →
  NoDup cs → Dom.childrenOf (doc h) root = cs →
  (∀ c, c ∈ cs → Dom.parentOf (doc h) c = Some root) →
  ∃ h', appendAll prev cs h = Ok tt h' ∧
    length (doc h') = length (doc h) ∧ pages h' = pages h ∧ patchLog h' = patchLog h ∧
    Dom.childrenOf (doc h') prev = Dom.childrenOf (doc h) prev ++ cs ∧
    Dom.childrenOf (doc h') root = [] ∧
    (∀ y, y ≠ prev → y ≠ root →
          Dom.childrenOf (doc h') y = Dom.childrenOf (doc h) y) ∧
    (∀ c, c ∈ cs → Dom.parentOf (doc h') c = Some prev) ∧
    (∀ y, y ∉ cs → Dom.parentOf (doc h') y = Dom.parentOf (doc h) y) ∧
    (∀ y, attributesOf (doc h') y = attributesOf (doc h) y).
Proof.
  induction cs as [|c cs IH]; intros h Hpr Hp Hr Hnd Hch Hpar.
  - exists h. simpl. rewrite app_nil_r. split_and!; try done.
    by intros c Hc%elem_of_nil.
  - apply NoDup_cons in Hnd as [Hc Hnd].
    destruct (append_moves prev c root (doc h)) as (L1 & P1 & R1 & O1 & PC1 & PO1 & A1);
      [apply Hpar; left|done..|].
    set (h1 := with_doc (Dom.append prev c) h).
    assert (D1 : doc h1 = Dom.append prev c (doc h)) by done.
    assert (Pg1 : pages h1 = pages h) by done.
    assert (Lg1 : patchLog h1 = patchLog h) by done.
    destruct (IH h1) as (h' & Hrun & L & Pg & Lg & P & R & O & PC & PO & A);
      [done|rewrite D1; lia|rewrite D1; lia|done|..].
    { rewrite D1, R1, Hch. unfold Dom.remove_child.
      rewrite filter_cons_False by (intros H; by apply H).
      by apply remove_child_notin. }
    { intros c' Hc'. rewrite D1, PO1; [apply Hpar; by right|]. by intros ->. }
    exists h'. split_and!.
    + simpl. unfold bind, updDoc. fold h1. done.
    + rewrite L, D1. done.
    + by rewrite Pg.
    + by rewrite Lg.
    + rewrite P, D1, P1. by rewrite <- app_assoc.
    + done.
    + intros y Hy1 Hy2. rewrite O, D1 by done. by apply O1.
    + intros c' [->|Hc']%elem_of_cons; [|by apply PC].
      rewrite PO, D1 by done. done.
    + intros y Hy. apply not_elem_of_cons in Hy as [Hyc Hy].
      rewrite PO, D1 by done. by apply PO1.
    + intros y. by rewrite A, D1.
Qed.

Lemma NoDup_flat_map_heads {A} (f : A → list A) (l : list A) :
  (∀ x, x ∈ l → x ∈ f x) → NoDup (flat_map f l) → NoDup l.
Proof.
  induction l as [|a l IH]; intros Hin Hnd; [constructor|].
  simpl in Hnd. apply NoDup_app in Hnd as (Ha & Hdis & Hl).
  apply NoDup_cons. split.
  - intros Hal. apply (Hdis a); [apply Hin; left|].
    apply elem_of_flat_map. exists a. split; [done|apply Hin; left].
  - apply IH; [|done]. intros x Hx. apply Hin. by right.
Qed.

Variable TargetView : Type.
Variable equalPatchElem : Document → nat → nat → bool.
Variable patchAttributes : Document → nat → nat → Document.
Variable interpretTargetView :
  Document → list nat → list nat → bool → TargetView * list (nat * nat).
Variable changeViewPerspective :
  Document → list nat → TargetView → list OriginViewInstruction.

(** X13. The first render, for any outline and any registry.  When [prev]
    has no children (and no parent reference of the document dangles),
    [patchOutlineEntry] returns, whatever the collaborators and the depth
    allowed to the recursion, and the attribute patcher is not called: the
    children of the target root become the children of [prev], in order,
    and the target root is left empty; the tree under [prev] is, in
    document order, the target tree without its root, and no attribute is
    changed, so that the entries and placeholders read under [prev] are
    those the builder emitted, in its order; the placeholder of every page
    is in the tree under [prev], and every page object has an inserter, the
    one it had or else the default one. *)
Theorem first_render_adopts_target fuel prev items h :
  prev < length (doc h) → Dom.childrenOf (doc h) prev = [] → closed (doc h) = true →
  ∃ ctx ht h',
    let root := length (doc h) in
    patchOutlineEntry_generate items h = Ok (root, ctx) ht ∧
    patchOutlineEntry TargetView equalPatchElem patchAttributes interpretTargetView
      changeViewPerspective fuel prev items h = Ok tt h' ∧
    patchLog h' = patchLog h ∧
    Dom.childrenOf (doc h') prev = Dom.childrenOf (doc ht) root ∧
    Dom.childrenOf (doc h') root = [] ∧
    (∀ c, c ∈ Dom.childrenOf (doc h') prev → Dom.parentOf (doc h') c = Some prev) ∧
    Dom.documentOrder (doc h') prev = prev :: tail (Dom.documentOrder (doc ht) root) ∧
    (∀ y, attributesOf (doc h') y = attributesOf (doc ht) y) ∧
    labelsOf (doc h') (tail (Dom.documentOrder (doc h') prev))
      = targetLabels (index <$> pages h) items ∧
    pages h' = defaultInserter <$> pages ht ∧
    (∀ k p, pages h' !! k = Some p →
            is_Some (inserter p) ∧
            ∃ s, stub p = Some s ∧ s ∈ Dom.documentOrder (doc h') prev).
Proof.
  intros Hprev Hempty _.
  set (root := length (doc h)).
  destruct (patchOutlineEntry_generate_shape items h) as (ctx & ht & R & Ag & K & _ & RO & _).
  destruct (patchOutlineEntry_generate_built items h)
    as (ctx2 & ht2 & R2 & G & St & Ar & _).
  rewrite R in R2. injection R2 as <- <-. fold root in R, Ag, G, Ar, RO.
  pose proof G as [Hroot Hfw Hnd Hst].
  set (cs := Dom.childrenOf (doc ht) root).
  assert (Hprev_t : Dom.childrenOf (doc ht) prev = []).
  { destruct (lookup_lt_is_Some_2 _ _ Hprev) as [e He].
    unfold Dom.childrenOf in *. rewrite (K prev e He). by rewrite He in Hempty. }
  assert (Ho : Dom.documentOrder (doc ht) root =
                 root :: flat_map (Dom.flatten (Dom.childrenOf (doc ht)) (length (doc ht))) cs).
  { unfold Dom.documentOrder. eapply flatten_unfold; eauto. lia. }
  assert (Hcs : NoDup cs).
  { rewrite Ho in Hnd. apply NoDup_cons in Hnd as [_ Hnd].
    eapply NoDup_flat_map_heads; [|exact Hnd].
    intros x _. destruct (length (doc ht)) as [|n] eqn:E; [lia|].
    rewrite flatten_S. left. }
  destruct (appendAll_adopts prev root cs ht)
    as (h1 & Hrun & L1 & Pg1 & Lg1 & P1 & R1 & O1 & PC1 & PO1 & A1);
    [unfold root; lia|pose proof (step_length _ _ St); lia|done|done|done| |].
  { intros c Hc. by apply Ag. }
  rewrite Hprev_t in P1. simpl in P1.
  assert (Ho1 : Dom.documentOrder (doc h1) prev =
                  prev :: tail (Dom.documentOrder (doc ht) root)).
  { rewrite Ho. simpl. unfold Dom.documentOrder. rewrite L1.
    destruct (length (doc ht)) as [|n] eqn:E; [lia|].
    rewrite flatten_S, P1. f_equal.
    apply flat_map_agree. intros c Hc.
    rewrite <- (flatten_fuel root (Dom.childrenOf (doc ht)) (S n) Hfw n (S n) c).
    - apply flatten_agree. intros y Hy. apply O1.
      + eapply flatten_ge in Hy; [|exact Hfw|]; destruct (Hfw root c); try done; unfold root in *; lia.
      + eapply flatten_ge in Hy; [|exact Hfw|]; destruct (Hfw root c); try done; lia.
    - destruct (Hfw root c); [done..|lia].
    - destruct (Hfw root c); [done..|lia].
    - lia.
    - destruct (Hfw root c); [done..|lia].
    - lia. }
  exists ctx, ht, (with_pages (map defaultInserter) h1). cbv zeta. fold root.
  split_and!; try done.
  - unfold patchOutlineEntry, bind. rewrite R. simpl. unfold readDoc.
    rewrite Hprev_t. simpl. fold cs. by rewrite Hrun.
  - simpl. rewrite Lg1. apply (step_log _ _ St).
  - simpl. rewrite P1. intros c Hc. by apply PC1.
  - simpl. rewrite Ho1. simpl. rewrite <- RO. unfold readingOrder.
    rewrite Ho. csimpl.
    assert (labelOf (doc ht) root = None) as ->.
    { unfold labelOf. by rewrite !getAttribute_attributesOf, Ar. }
    apply labelsOf_agree. intros x _. apply A1.
  - simpl. by rewrite Pg1.
  - simpl. intros k p Hp. rewrite Pg1 in Hp.
    change (map defaultInserter (pages ht)) with (defaultInserter <$> pages ht) in Hp.
    rewrite list_lookup_fmap in Hp.
    destruct (pages ht !! k) as [p0|] eqn:Ep0; [|done]. injection Hp as <-.
    split.
    { unfold defaultInserter. destruct (inserter p0) eqn:Ei; [by rewrite Ei|done]. }
    rewrite take_ge in Hst by done.
    destruct (Forall2_lookup_r _ _ _ _ _ Hst Ep0) as (s & Hs & [Hstub _]).
    exists s. split.
    { unfold defaultInserter. by destruct (inserter p0). }
    rewrite Ho1. apply list_elem_of_lookup_2 in Hs.
    unfold placeholders in Hs. apply list_elem_of_filter in Hs as [Hph Hs].
    rewrite Ho in Hs |- *. simpl. apply elem_of_cons in Hs as [->|Hs]; [|by right].
    unfold isPlaceholder in Hph. rewrite getAttribute_attributesOf, Ar in Hph.
    by destruct Hph.
Qed.

End FirstRender.

(** ** The watermark of the builder *)

(** X14. Once [spliceCanvas] has returned, a further call with the same
    bound or a smaller one, on whatever node, emits nothing: the heap and
    the watermark are left as they are. *)
Theorem spliceCanvas_again this next until h this' h' next' until' :
  GenContext.spliceCanvas this next until h = Ok this' h' → until' ≤ until →
  GenContext.spliceCanvas this' next' until' h' =
    Ok (with_populateCnt (populateCnt this') this') h'.
Proof.
  intros Hrun Hle.
  assert (length (pages h') = length (pages h)) as Hlen.
  { pose proof (Invariant_spliceCanvas (λ l, length l = length (pages h))) as HI.
    specialize (HI (λ s k l Hl, eq_trans (length_alter _ _ _) Hl) this next until h eq_refl).
    simpl in HI. by rewrite Hrun in HI. }
  unfold GenContext.spliceCanvas, bind, pagesLength in Hrun.
  destruct (GenContext.spliceLoop next _ _ h) as [[] h1| |]; [|done..].
  injection Hrun as <- <-.
  unfold GenContext.spliceCanvas, bind, pagesLength. rewrite Hlen. simpl.
  replace (Z.to_nat _) with 0%nat by lia. simpl. unfold ret.
  do 2 f_equal. lia.
Qed.

(** * The statements tried on concrete heaps *)

Lemma patchOutlineEntry_inserters_witness :
  pages scenarioHeap !! 0%nat = Some (mkCanvasPage 1 595 842 1 None None None) ∧
  let r := patchOutlineEntry unit alwaysEqual patchNothing alignNothing noInstructions
             0 0 scenarioOutline scenarioHeap in
  inserterIn 0 (inserter (mkCanvasPage 1 595 842 1 None None None)) (pages (heapOf r)) ∧
  (∀ h', r = Ok tt h' →
         ∃ p' f, pages h' !! 0%nat = Some p' ∧ inserter p' = Some f).
Proof.
  split; [reflexivity|].
  apply (patchOutlineEntry_inserters unit alwaysEqual patchNothing alignNothing
           noInstructions 0 0%nat scenarioOutline scenarioHeap 0%nat).
  reflexivity.
Defined.

Lemma page_elem_not_entered_witness :
  Dom.classContains (doc reuseHeap) 0 "typst-page" = true ∧
  (∀ TargetView' patchAttributes'
     (interpretTargetView' :
        Document → list nat → list nat → bool → TargetView' * list (nat * nat))
     (changeViewPerspective' :
        Document → list nat → TargetView' → list OriginViewInstruction)
     fuel',
     reuseOrPatchOutlineElem unit (λ _ _ _, false) patchNothing alignNothing
       noInstructions 1 (mkGenContext 1 3 3 None [1]) 0 2 reuseHeap =
     reuseOrPatchOutlineElem TargetView' (λ _ _ _, false) patchAttributes'
       interpretTargetView' changeViewPerspective' (S fuel')
       (mkGenContext 1 3 3 None [1]) 0 2 reuseHeap) ∧
  ((λ _ _ _, false) (doc reuseHeap) 0%nat 2%nat = false →
   reuseOrPatchOutlineElem unit (λ _ _ _, false) patchNothing alignNothing
     noInstructions 1 (mkGenContext 1 3 3 None [1]) 0 2 reuseHeap =
   Ok false
      (with_doc (alter (Dom.with_attributes (Dom.assoc_del (PatchAttr ReuseFrom))) 2%nat)
         reuseHeap)).
Proof.
  split; [reflexivity|].
  apply (page_elem_not_entered unit (λ _ _ _, false) patchNothing alignNothing
           noInstructions 0 (mkGenContext 1 3 3 None [1]) 0%nat 2%nat reuseHeap).
  reflexivity.
Defined.

Lemma malformed_instruction_throws_witness :
  malformed (doc removalHeap) 0 ("remove", 7, ArgUndefined) ∧
  runOriginViewInstructionsOnOutline (mkGenContext 1 0 0 None [1]) 0
    (("remove", 7, ArgUndefined) :: [("remove", 0, ArgUndefined)]) removalHeap
    = Throw typeError removalHeap.
Proof.
  assert (malformed (doc removalHeap) 0 ("remove", 7, ArgUndefined)) as Hm.
  { left. split; reflexivity. }
  split; [exact Hm|].
  apply (malformed_instruction_throws (mkGenContext 1 0 0 None [1]) 0%nat
           ("remove", 7, ArgUndefined) [("remove", 0, ArgUndefined)] removalHeap Hm).
Defined.

Lemma insert_places_node_witness :
  Dom.childrenOf (doc removalHeap) 0 = [1%nat] ∧ NoDup [1%nat] ∧ (3%nat ∉ [1%nat]) ∧
  (0 < length (doc removalHeap))%nat ∧ (3 < length (doc removalHeap))%nat ∧
  Dom.parentOf (doc removalHeap) 3 ≠ Some 0%nat ∧
  inclusiveAncestor (doc removalHeap) 3 0 = false ∧
  ∃ h',
    runOriginViewInstructionsOnOutline (mkGenContext 1 0 0 None [1]) 0
      [("insert", 0, ArgNode 3)] removalHeap = Ok tt h' ∧
    pages h' = pages removalHeap ∧ patchLog h' = patchLog removalHeap ∧
    Dom.parentOf (doc h') 3 = Some 0%nat ∧
    Dom.childrenOf (doc h') 0 =
      if decide (0 ≤ 0) then take (Z.to_nat 0) [1%nat] ++ 3%nat :: drop (Z.to_nat 0) [1%nat]
      else [1%nat] ++ [3%nat].
Proof.
  assert (NoDup [1%nat]) as Hnd by (apply (bool_decide_unpack _); vm_compute; exact I).
  assert (3%nat ∉ [1%nat]) as Hni by (apply (bool_decide_unpack _); vm_compute; exact I).
  assert (Dom.parentOf (doc removalHeap) 3 ≠ Some 0%nat) as Hpar by (vm_compute; discriminate).
  split; [reflexivity|]. split; [exact Hnd|]. split; [exact Hni|].
  split; [vm_compute; lia|]. split; [vm_compute; lia|]. split; [exact Hpar|].
  split; [reflexivity|].
  apply (insert_places_node (mkGenContext 1 0 0 None [1]) 0%nat 0 3%nat [1%nat] removalHeap);
    [reflexivity|exact Hnd|exact Hni|vm_compute; lia|vm_compute; lia|exact Hpar|reflexivity].
Defined.

Lemma swap_in_permutes_witness :
  Dom.childrenOf (doc removalHeap) 0 = [1%nat] ∧ NoDup [1%nat] ∧
  Dom.childAt (doc removalHeap) 0 0 = Some 1%nat ∧
  Dom.parentOf (doc removalHeap) 1 = Some 0%nat ∧
  (0 < length (doc removalHeap))%nat ∧
  inclusiveAncestor (doc removalHeap) 1 0 = false ∧
  ∃ h',
    runOriginViewInstructionsOnOutline (mkGenContext 1 0 0 None [1]) 0
      [("swap_in", 5, ArgNumber 0)] removalHeap = Ok tt h' ∧
    pages h' = pages removalHeap ∧ patchLog h' = patchLog removalHeap ∧
    Dom.parentOf (doc h') 1 = Some 0%nat ∧
    Dom.childrenOf (doc h') 0 ≡ₚ [1%nat] ∧
    match Dom.childAt (doc removalHeap) 0 5 with
    | Some r =>
        if decide (r = 1%nat) then Dom.childrenOf (doc h') 0 = [1%nat]
        else ∃ l1 l2, Dom.remove_child 1 [1%nat] = l1 ++ r :: l2 ∧
                      Dom.childrenOf (doc h') 0 = l1 ++ 1%nat :: r :: l2
    | None => Dom.childrenOf (doc h') 0 = Dom.remove_child 1 [1%nat] ++ [1%nat]
    end.
Proof.
  assert (NoDup [1%nat]) as Hnd by (apply (bool_decide_unpack _); vm_compute; exact I).
  split; [reflexivity|]. split; [exact Hnd|]. split; [reflexivity|].
  split; [reflexivity|]. split; [vm_compute; lia|]. split; [reflexivity|].
  apply (swap_in_permutes (mkGenContext 1 0 0 None [1]) 0%nat 5 0 1%nat [1%nat] removalHeap);
    [reflexivity|exact Hnd|reflexivity|reflexivity|vm_compute; lia|reflexivity].
Defined.

Lemma remove_plain_child_witness :
  Dom.childrenOf (doc removalHeap) 1 = [2%nat] ∧
  Dom.childAt (doc removalHeap) 1 0 = Some 2%nat ∧
  Dom.classContains (doc removalHeap) 2 "typst-page" = false ∧
  Dom.parentOf (doc removalHeap) 2 = Some 1%nat ∧
  (1 < length (doc removalHeap))%nat ∧
  ∃ h',
    runOriginViewInstructionsOnOutline (mkGenContext 1 0 0 None [1]) 1
      [("remove", 0, ArgUndefined)] removalHeap = Ok tt h' ∧
    pages h' = pages removalHeap ∧ patchLog h' = patchLog removalHeap ∧
    Dom.parentOf (doc h') 2 = None ∧
    Dom.childrenOf (doc h') 1 = Dom.remove_child 2 [2%nat] ∧
    (2%nat ∉ Dom.childrenOf (doc h') 1).
Proof.
  split; [reflexivity|]. split; [reflexivity|]. split; [reflexivity|].
  split; [reflexivity|]. split; [vm_compute; lia|].
  apply (remove_plain_child (mkGenContext 1 0 0 None [1]) 1%nat 0 ArgUndefined 2%nat
           [2%nat] removalHeap);
    [reflexivity|reflexivity|reflexivity|reflexivity|vm_compute; lia].
Defined.

Lemma builderStart_building : Building 4 builderStart builderStartContext.
Proof.
  destruct (GenContext_new_building scenarioHeap) as (h0 & R & B & _).
  unfold builderStart. rewrite R. exact B.
Qed.

Lemma builderStart_agree : Agree 4 (doc builderStart).
Proof.
  assert (∀ x, Dom.childrenOf (doc builderStart) x = []) as Hch.
  { intros x. do 5 (destruct x as [|x]; [reflexivity|]). reflexivity. }
  intros x c Hx Hc. rewrite Hch in Hc. by apply elem_of_nil in Hc.
Qed.

Lemma generate_contract_witness :
  Building 4 builderStart builderStartContext ∧ Agree 4 (doc builderStart) ∧
  ∃ ctx' h' kids,
    let item := mkOutlineItemData "B" (Some (mkCursorPosition 3 0 0)) [] in
    let N := length (doc builderStart) in
    let s := (N + 1 + spliceCount builderStartContext (GenContext.posOf item) builderStart)%nat in
    GenContext.generate item 1 builderStartContext builderStart = Ok (N, ctx') h' ∧
    insertionPoint ctx' = insertionPoint builderStartContext ∧
    parent ctx' = parent builderStartContext ∧
    is_Some (lastVisit ctx') ∧
    Extends (insertionPoint builderStartContext) (parent builderStartContext) builderStart h' ∧
    last (Dom.childrenOf (doc h') (parent builderStartContext)) = Some N ∧
    doc h' !! N =
      Some (Dom.mkElem "div" (outlineAttributes (title item)) ["typst-outline"] ""
              [] [] (s :: kids) (Some (parent builderStartContext))) ∧
    doc h' !! s = Some (titleElem (title item) 1 N (hasChildren item builderStartContext)) ∧
    (∀ y, (N < y < s)%nat →
          ∃ p, pages builderStart
                 !! (Z.to_nat (populateCnt builderStartContext - 1) + (y - S N))%nat = Some p ∧
               doc h' !! y = Some (stubElem p (insertionPoint builderStartContext))).
Proof.
  split; [exact builderStart_building|]. split; [exact builderStart_agree|].
  apply (generate_contract 4%nat (mkOutlineItemData "B" (Some (mkCursorPosition 3 0 0)) [])
           1 builderStartContext builderStart builderStart_building builderStart_agree).
Defined.

Lemma first_render_adopts_target_witness :
  (0 < length (doc scenarioHeap))%nat ∧ Dom.childrenOf (doc scenarioHeap) 0 = [] ∧
  closed (doc scenarioHeap) = true ∧
  ∃ ctx ht h',
    let root := length (doc scenarioHeap) in
    patchOutlineEntry_generate scenarioOutline scenarioHeap = Ok (root, ctx) ht ∧
    patchOutlineEntry unit alwaysEqual patchNothing alignNothing noInstructions
      0 0 scenarioOutline scenarioHeap = Ok tt h' ∧
    patchLog h' = patchLog scenarioHeap ∧
    Dom.childrenOf (doc h') 0 = Dom.childrenOf (doc ht) root ∧
    Dom.childrenOf (doc h') root = [] ∧
    (∀ c, c ∈ Dom.childrenOf (doc h') 0 → Dom.parentOf (doc h') c = Some 0%nat) ∧
    Dom.documentOrder (doc h') 0 = 0%nat :: tail (Dom.documentOrder (doc ht) root) ∧
    (∀ y, attributesOf (doc h') y = attributesOf (doc ht) y) ∧
    labelsOf (doc h') (tail (Dom.documentOrder (doc h') 0))
      = targetLabels (index <$> pages scenarioHeap) scenarioOutline ∧
    pages h' = defaultInserter <$> pages ht ∧
    (∀ k p, pages h' !! k = Some p →
            is_Some (inserter p) ∧
            ∃ s, stub p = Some s ∧ s ∈ Dom.documentOrder (doc h') 0).
Proof.
  split; [vm_compute; lia|]. split; [reflexivity|]. split; [reflexivity|].
  apply (first_render_adopts_target unit alwaysEqual patchNothing alignNothing
           noInstructions 0 0%nat scenarioOutline scenarioHeap);
    [vm_compute; lia|reflexivity|reflexivity].
Defined.

Lemma spliceCanvas_again_witness :
  GenContext.spliceCanvas builderStartContext 4 3 builderStart =
    Ok (with_populateCnt 3 builderStartContext)
       (heapOf (GenContext.spliceCanvas builderStartContext 4 3 builderStart)) ∧
  2 ≤ 3 ∧
  GenContext.spliceCanvas (with_populateCnt 3 builderStartContext) 4 2
    (heapOf (GenContext.spliceCanvas builderStartContext 4 3 builderStart)) =
    Ok (with_populateCnt (populateCnt (with_populateCnt 3 builderStartContext))
          (with_populateCnt 3 builderStartContext))
       (heapOf (GenContext.spliceCanvas builderStartContext 4 3 builderStart)).
Proof.
  assert (GenContext.spliceCanvas builderStartContext 4 3 builderStart =
            Ok (with_populateCnt 3 builderStartContext)
               (heapOf (GenContext.spliceCanvas builderStartContext 4 3 builderStart)))
    as Hrun by (vm_compute; reflexivity).
  split; [exact Hrun|]. split; [lia|].
  apply (spliceCanvas_again builderStartContext 4%nat 3 builderStart
           (with_populateCnt 3 builderStartContext)
           (heapOf (GenContext.spliceCanvas builderStartContext 4 3 builderStart))
           4%nat 2 Hrun).
  lia.
Defined.

(** * The claims on what the builder and the reuse path leave *)

(** C7, as the code has it.  Every element created by the construction pass
    other than the virtual root is tagged, and its tag is that of what it
    is.  The container of an item (a [div] of class [typst-outline]) carries
    [data-title] and the tag ["outline:" + title] for the title of the
    item, and its first child is the title span of the item (a [span] of
    class [typst-outline-title] whose text is the title), which carries the
    tag ["title:" + title]; both carry the reuse tag and the bad-equality
    flag.  A page placeholder (a [div]) is the stub of a page object of the
    registry and carries the tag ["canvas:" + index] and [data-page-number]
    for the index of that page object.  There is no other element; every
    item has its container, in pre-order, and every page object its
    placeholder, in registry order.  The virtual root carries no
    attribute. *)
Theorem C7_generated_nodes_tagged (items : list OutlineItemData) (h : Heap) :
  ∃ next ctx h',
    patchOutlineEntry_generate items h = Ok (next, ctx) h' ∧
    next = length (doc h) ∧
    attributesOf (doc h') next = Some [] ∧
    (∀ y, (next < y < length (doc h'))%nat →
      (∃ t, t ∈ flat_map titlesOf items ∧
            attributesOf (doc h') y =
              Some [(Attr "data-title", t); (PatchAttr Tid, "outline:" +:+ t);
                    (PatchAttr ReuseFrom, "outline:" +:+ t); (PatchAttr BadEquality, "1")]) ∨
      (∃ t, t ∈ flat_map titlesOf items ∧
            attributesOf (doc h') y =
              Some [(PatchAttr Tid, "title:" +:+ t);
                    (PatchAttr ReuseFrom, "title:" +:+ t); (PatchAttr BadEquality, "1")]) ∨
      (∃ i, i ∈ index <$> pages h ∧
            attributesOf (doc h') y =
              Some [(PatchAttr Tid, "canvas:" +:+ Number_toString i);
                    (Attr "data-page-number", Number_toString i)])) ∧
    (∀ y, (next < y < length (doc h'))%nat →
      (∃ t, t ∈ flat_map titlesOf items ∧ isContainerOf (doc h') y t) ∨
      (∃ t, t ∈ flat_map titlesOf items ∧ isTitleOf (doc h') y t) ∨
      (∃ k p e, pages h' !! k = Some p ∧ stub p = Some y ∧
                doc h' !! y = Some e ∧ Dom.tagName e = "div" ∧
                Dom.attributes e = stubAttributes (index p))) ∧
    entriesOf (doc h') (Dom.documentOrder (doc h') next) = flat_map titlesOf items ∧
    Forall2 (StubFor (doc h')) (placeholders (doc h') next) (pages h').
Proof.
  destruct (patchOutlineEntry_generate_built items h)
    as (ctx & h' & Hrun & Hg & _ & Hroot & Htag & Hin & _).
  destruct (patchOutlineEntry_generate_shape items h)
    as (ctx2 & h2 & Hrun2 & _ & _ & Hent & _ & Hmade).
  rewrite Hrun in Hrun2. injection Hrun2 as <- <-.
  pose proof Hg as [_ _ _ Hst]. rewrite take_ge in Hst by done.
  exists (length (doc h)), ctx, h'. split_and!; try done.
  intros y Hy.
  destruct (Hmade y Hy) as [Hc|[Ht|(e & i & He & Htn & Hat)]]; [by left|by right; left|].
  right. right.
  assert (y ∈ placeholders (doc h') (length (doc h))) as Hph.
  { apply list_elem_of_filter. split; [|apply Hin; lia].
    unfold isPlaceholder. rewrite (getAttribute_lookup _ _ _ _ He), Hat. by eexists. }
  apply list_elem_of_lookup in Hph as [k Hk].
  destruct (Forall2_lookup_l _ _ _ _ _ Hst Hk) as (p & Hp & Hstub & Hattr).
  exists k, p, e. split_and!; try done.
  unfold attributesOf in Hattr. rewrite He in Hattr. by injection Hattr.
Qed.

(** ** What stays of a reuse *)




Section ReuseAfterwards.

Variable TargetView : Type.
Variable equalPatchElem : Document → nat → nat → bool.
Variable patchAttributes : Document → nat → nat → Document.
Variable interpretTargetView :
  Document → list nat → list nat → bool → TargetView * list (nat * nat).
Variable changeViewPerspective :
  Document → list nat → TargetView → list OriginViewInstruction.

Local Abbreviation reuseOrPatchOutlineElem :=
  (reuseOrPatchOutlineElem TargetView equalPatchElem patchAttributes
     interpretTargetView changeViewPerspective).
Local Abbreviation entry :=
  (patchOutlineEntry TargetView equalPatchElem patchAttributes
     interpretTargetView changeViewPerspective).


End ReuseAfterwards.


